(** * minirpc: a shallow embedding of the RPC client, server dispatch,
      codec table and registry, with the properties of its specification.

    Go values are modelled as follows.
    - [uint64], [int], [time.Duration], [time.Time]: [Z] (the wrap-around of
      the [uint64] sequence counter is written out);
    - [string]: [string] (a sequence of bytes, as in Go);
    - [error]: [option string], [None] being [nil] and [Some msg] an error
      whose [Error()] text is [msg];
    - pointers: locations ([loc]) into explicit stores, [nil] being [None];
    - [map[K]V]: [gmap K V]. *)

From Stdlib Require Import ZArith String Ascii List.
From stdpp Require Import gmap strings list sorting.

Local Open Scope string_scope.
Local Open Scope Z_scope.

(** Locations of heap-allocated objects. *)
Abbreviation loc := positive.

(** Go's [error] interface value. *)
Abbreviation error := (option string).

(* ===================================================================== *)
(** ** Package codec (src/dayone/codec/codec.go) *)
(* ===================================================================== *)

Module codec.

Record Header := mkHeader {
  ServiceMethod : string;
  Seq : Z;
  Error : string
}.

(** [type Type string] and its two constants. *)
Definition GobType : string := "application/gob".
Definition JsonType : string := "application/json".

(** [type NewCodecFunc func(io.ReadWriteCloser) Codec].  The repository
    defines a single function of that type, [NewGobCodec]
    (src/daytwo/codec/gob.go). *)
Inductive NewCodecFunc := NewGobCodec.

(** [init()]: the table starts empty and receives two assignments. *)
Definition init : gmap string NewCodecFunc :=
  let m : gmap string NewCodecFunc := ∅ in
  let m := <[GobType := NewGobCodec]> m in
  let m := <[JsonType := NewGobCodec]> m in
  m.

Definition NewCodecFuncMap : gmap string NewCodecFunc := init.

End codec.

(* ===================================================================== *)
(** ** Option (src/unnamed/part_000) and parseOptions (src/client.go) *)
(* ===================================================================== *)

Module opt.

Definition MagicNumber : Z := 0x3bef5c.

(** [time.Second] in nanoseconds. *)
Definition Second : Z := 1000000000.

Record Option := mkOption {
  oMagicNumber : Z;
  oCodecType : string;
  oConnectTimeout : Z;
  oHandleTimeout : Z
}.

(** The store of [Option] structs: [*Option] values are locations in it. *)
Abbreviation store := (gmap loc Option).

(** [var DefaultOption = &Option{...}]: the package variable holds a
    pointer; [DefaultOption] is that pointer and [DefaultOption_init] the
    struct it points to when the package is initialised. *)
Definition DefaultOption : loc := 1%positive.

Definition DefaultOption_init : Option :=
  {| oMagicNumber := MagicNumber;
     oCodecType := codec.GobType;
     oConnectTimeout := Second * 10;
     oHandleTimeout := 0 |}.

Definition init_store : store := {[ DefaultOption := DefaultOption_init ]}.

Definition set_MagicNumber (v : Z) (o : Option) : Option :=
  {| oMagicNumber := v; oCodecType := oCodecType o;
     oConnectTimeout := oConnectTimeout o;
     oHandleTimeout := oHandleTimeout o |}.

Definition set_CodecType (v : string) (o : Option) : Option :=
  {| oMagicNumber := oMagicNumber o; oCodecType := v;
     oConnectTimeout := oConnectTimeout o;
     oHandleTimeout := oHandleTimeout o |}.

(** [parseOptions], variadic over [*Option], returning a pointer and an
    error.  The model returns the pointer, the error and the store after
    the call; the outer [None] stands for the dereference of a pointer the
    store does not hold, which no well-formed Go state contains.  The two
    assignments through [opt] are performed one after the other on the
    store, so that [opt] and [DefaultOption] may alias. *)
Definition parseOptions (opts : list (option loc)) (σ : store)
  : option (option loc * error * store) :=
  if bool_decide (length opts = 0%nat ∨ opts !! 0%nat = Some None) then
    Some (Some DefaultOption, None, σ)
  else if bool_decide (length opts ≠ 1%nat) then
    Some (None, Some "number of options is more than 1", σ)
  else
    opt ← mjoin (opts !! 0%nat);
    (* opt.MagicNumber = DefaultOption.MagicNumber *)
    d ← σ !! DefaultOption;
    o ← σ !! opt;
    let σ := <[opt := set_MagicNumber (oMagicNumber d) o]> σ in
    (* if opt.CodecType == "" { opt.CodecType = DefaultOption.CodecType } *)
    o ← σ !! opt;
    if String.eqb (oCodecType o) "" then
      d ← σ !! DefaultOption;
      Some (Some opt, None, <[opt := set_CodecType (oCodecType d) o]> σ)
    else
      Some (Some opt, None, σ).

End opt.

(** The constants of the HTTP upgrade (src/unnamed/part_000). *)
Module http.
Definition connected : string := "200 Connected to Mini RPC".
Definition defaultRPCPath : string := "/_minirpc_".
Definition defaultDebugPath : string := "/debug/minirpc".
(** The one-byte strings written [\n] and [\r] in Go. *)
Definition LF : string := String "010"%char "".
Definition CR : string := String "013"%char "".
End http.

(* ===================================================================== *)
(** ** The client (src/client.go) *)
(* ===================================================================== *)

(** Code that may panic or block on a channel is run in a state monad with
    those two extra outcomes. *)
Inductive outcome (S A : Type) :=
  | Ret (a : A) (s : S)
  | Panic (msg : string)
  | Block.
Arguments Ret {S A} a s.
Arguments Panic {S A} msg.
Arguments Block {S A}.

Definition M (S A : Type) : Type := S → outcome S A.

#[global] Instance M_ret {S} : MRet (M S) := λ A a s, Ret a s.
#[global] Instance M_bind {S} : MBind (M S) := λ A B f m s,
  match m s with
  | Ret a s' => f a s'
  | Panic msg => Panic msg
  | Block => Block
  end.

Definition panic {S A} (msg : string) : M S A := λ _, Panic msg.
Definition block {S A} : M S A := λ _, Block.
Definition get {S} : M S S := λ s, Ret s s.
Definition modify {S} (f : S → S) : M S unit := λ s, Ret tt (f s).

(** The runtime panic of a dereference outside the store. *)
Definition nil_deref : string :=
  "invalid memory address or nil pointer dereference".

Module client.

(** [interface{}] arguments and replies are opaque to the client. *)
Abbreviation any := string.

Record Call := mkCall {
  Seq : Z;
  ServiceMethod : string;
  Args : any;
  Reply : any;
  Error : error;
  Done : option loc            (* chan *Call; nil is None *)
}.

(** A channel of [*Call]: its capacity and the elements queued in it. *)
Record Chan := mkChan {
  ch_cap : nat;
  ch_buf : list loc
}.

(** What has been written to a connection. *)
Inductive msg :=
  | RawBytes (s : string)                        (* io.WriteString *)
  | JsonOption (o : opt.Option)                  (* json Encode(opt) *)
  | GobFrame (h : codec.Header) (body : any).    (* gob header, then body *)

(** A [net.Conn]: the messages written so far, whether it was closed, and
    the error (if any) that a write to it meets. *)
Record Conn := mkConn {
  sent : list msg;
  conn_closed : bool;
  conn_fault : error
}.

Definition conn_write (m : msg) (c : Conn) : error * Conn :=
  match conn_fault c with
  | Some e => (Some e, c)
  | None => (None, mkConn (sent c ++ [m]) (conn_closed c) (conn_fault c))
  end.

Definition conn_close (c : Conn) : Conn :=
  mkConn (sent c) true (conn_fault c).

(** [conn.Close()]: a connection that was closed before returns an error,
    here the text of [net.ErrClosed]. *)
Definition ErrClosed : string := "use of closed network connection".

Definition conn_Close (c : Conn) : error * Conn :=
  (if conn_closed c then Some ErrClosed else None, conn_close c).

(** A [codec.Codec]: the repository has one implementation, [GobCodec],
    which writes through a [bufio.Writer] on its connection.
    [GobCodec conn] is the codec on [conn] whose writer is empty and holds
    no error, as [NewGobCodec] makes it and as a flush that succeeds leaves
    it.  [GobCodecErr conn] is the codec after a flush has failed: the
    writer keeps the error that the write to the connection met and returns
    it for every later write and flush. *)
Inductive Codec :=
  | GobCodec (conn : Conn)
  | GobCodecErr (conn : Conn).

Definition conn_of (cc : Codec) : Conn :=
  match cc with GobCodec c | GobCodecErr c => c end.

(** The error that the writer of the codec holds. *)
Definition buf_err (cc : Codec) : error :=
  match cc with
  | GobCodec _ => None
  | GobCodecErr c => conn_fault c
  end.

(** The codec after [f] has acted on its connection. *)
Definition on_conn (f : Conn → Conn) (cc : Codec) : Codec :=
  match cc with
  | GobCodec c => GobCodec (f c)
  | GobCodecErr c => GobCodecErr (f c)
  end.

(** Calling a [NewCodecFunc]. *)
Definition new_codec (f : codec.NewCodecFunc) (conn : Conn) : Codec :=
  match f with codec.NewGobCodec => GobCodec conn end.

(** The fields of [Client] held in the struct itself.  [cc] and [pending]
    are references and live in the world below; the two mutexes have no
    content in a sequential run. *)
Record Client := mkClient {
  opt : loc;
  header : codec.Header;
  seq : Z;
  closing : bool;
  shutdown : bool
}.

(** Everything reachable from one [*Client]. *)
Record World := mkWorld {
  w_client : Client;            (* the struct the pointer refers to *)
  w_pending : gmap Z loc;       (* the map object of client.pending *)
  w_calls : gmap loc Call;      (* the *Call objects *)
  w_chans : gmap loc Chan;      (* the channels *)
  w_cc : Codec                  (* the codec object of client.cc *)
}.

Definition set_client (f : Client → Client) (w : World) : World :=
  mkWorld (f (w_client w)) (w_pending w) (w_calls w) (w_chans w) (w_cc w).
Definition set_pending (f : gmap Z loc → gmap Z loc) (w : World) : World :=
  mkWorld (w_client w) (f (w_pending w)) (w_calls w) (w_chans w) (w_cc w).
Definition set_calls (f : gmap loc Call → gmap loc Call) (w : World) : World :=
  mkWorld (w_client w) (w_pending w) (f (w_calls w)) (w_chans w) (w_cc w).
Definition set_chans (f : gmap loc Chan → gmap loc Chan) (w : World) : World :=
  mkWorld (w_client w) (w_pending w) (w_calls w) (f (w_chans w)) (w_cc w).
Definition set_cc (f : Codec → Codec) (w : World) : World :=
  mkWorld (w_client w) (w_pending w) (w_calls w) (w_chans w) (f (w_cc w)).

Definition set_seq (v : Z) (c : Client) : Client :=
  mkClient (opt c) (header c) v (closing c) (shutdown c).
Definition set_closing (v : bool) (c : Client) : Client :=
  mkClient (opt c) (header c) (seq c) v (shutdown c).
Definition set_shutdown (v : bool) (c : Client) : Client :=
  mkClient (opt c) (header c) (seq c) (closing c) v.
Definition set_header (v : codec.Header) (c : Client) : Client :=
  mkClient (opt c) v (seq c) (closing c) (shutdown c).

Definition set_Seq (v : Z) (c : Call) : Call :=
  mkCall v (ServiceMethod c) (Args c) (Reply c) (Error c) (Done c).
Definition set_Error (v : error) (c : Call) : Call :=
  mkCall (Seq c) (ServiceMethod c) (Args c) (Reply c) v (Done c).

Definition push (x : loc) (c : Chan) : Chan :=
  mkChan (ch_cap c) (ch_buf c ++ [x]).

Definition ErrShutdown : error := Some "connection is shut down".

(** [uint64] arithmetic. *)
Definition u64 (z : Z) : Z := z mod 2 ^ 64.

(** Reading through a [*Call]. *)
Definition load_call (call : loc) : M World Call := λ w,
  match w_calls w !! call with
  | Some c => Ret c w
  | None => Panic nil_deref
  end.

(** [ch <- x]: a nil channel and a full channel block the sender. *)
Definition chan_send (ch : option loc) (x : loc) : M World unit := λ w,
  match ch with
  | None => Block
  | Some l =>
      match w_chans w !! l with
      | None => Panic nil_deref
      | Some c =>
          if (length (ch_buf c) <? ch_cap c)%nat
          then Ret tt (set_chans <[l := push x c]> w)
          else Block
      end
  end.

(** [cap(ch)], which is 0 for a nil channel. *)
Definition cap (ch : option loc) : M World nat := λ w,
  match ch with
  | None => Ret 0%nat w
  | Some l =>
      match w_chans w !! l with
      | None => Panic nil_deref
      | Some c => Ret (ch_cap c) w
      end
  end.

(** [make(chan *Call, n)]. *)
Definition make_chan (n : nat) : M World (option loc) := λ w,
  let l := fresh (dom (w_chans w)) in
  Ret (Some l) (set_chans <[l := mkChan n []]> w).

(** [&Call{...}]. *)
Definition new_call (c : Call) : M World loc := λ w,
  let l := fresh (dom (w_calls w)) in
  Ret l (set_calls <[l := c]> w).

(** [func (call *Call) done() { call.Done <- call }] *)
Definition done (call : loc) : M World unit :=
  c ← load_call call;
  chan_send (Done c) call.

(** [GobCodec.Close]: the result of [conn.Close()]. *)
Definition cc_Close : M World error := λ w,
  let '(err, conn) := conn_Close (conn_of (w_cc w)) in
  Ret err (set_cc (on_conn (λ _, conn)) w).

(** [GobCodec.Write].  The encoder writes header and body into the
    buffered writer, and the deferred function flushes the writer, drops
    the error of the flush, and closes the codec when [err] is not nil.
    The values are taken to be ones that gob encodes, in frames that fit
    the buffer of the writer; an encoding then fails only with the error
    that the writer holds.  (A value that gob refuses would make
    [Encode(body)] fail with the header in the buffer, which the flush then
    writes before the codec is closed; a frame larger than the buffer would
    meet the failure of the connection inside [Encode].)
    - When the writer holds an error, [Encode(h)] returns it: nothing is
      buffered or written, and the codec is closed.
    - Otherwise both encodings succeed and the flush writes the frame to
      the connection.  When that write fails, the writer keeps the error,
      the frame is lost, and [Write] returns nil all the same. *)
Definition cc_Write (h : codec.Header) (body : any) : M World error :=
  w ← get;
  match buf_err (w_cc w) with
  | Some e =>
      (* err = c.enc.Encode(h); then _ = c.buf.Flush() and _ = c.Close() *)
      cc_Close;;
      mret (Some e)
  | None =>
      (* _ = c.buf.Flush() *)
      let '(err, conn) := conn_write (GobFrame h body) (conn_of (w_cc w)) in
      match err with
      | Some _ => modify (set_cc (λ _, GobCodecErr conn))
      | None => modify (set_cc (λ _, GobCodec conn))
      end;;
      mret None
  end.

(** [Client.Close] *)
Definition Close : M World error :=
  w ← get;
  if closing (w_client w) then mret ErrShutdown
  else
    modify (set_client (set_closing true));;
    cc_Close.

(** [Client.IsAvailable] *)
Definition IsAvailable : M World bool :=
  w ← get;
  mret (negb (shutdown (w_client w)) && negb (closing (w_client w))).

(** [Client.registerCall] *)
Definition registerCall (call : loc) : M World (Z * error) :=
  w ← get;
  if closing (w_client w) || shutdown (w_client w) then
    mret (0, ErrShutdown)
  else
    (* call.Seq = client.seq *)
    c ← load_call call;
    modify (set_calls <[call := set_Seq (seq (w_client w)) c]>);;
    (* client.pending[call.Seq] = call *)
    c ← load_call call;
    modify (set_pending <[Seq c := call]>);;
    (* client.seq++ *)
    modify (set_client (λ cl, set_seq (u64 (seq cl + 1)) cl));;
    c ← load_call call;
    mret (Seq c, None).

(** [Client.removeCall]: a missing key yields the nil pointer. *)
Definition removeCall (seq : Z) : M World (option loc) :=
  w ← get;
  let call := w_pending w !! seq in
  modify (set_pending (delete seq));;
  mret call.

Fixpoint for_each {A} (body : A → M World unit) (l : list A)
  : M World unit :=
  match l with
  | [] => mret tt
  | x :: l => body x;; for_each body l
  end.

(** The body of the loop of [terminateCalls], at one entry of [pending]. *)
Definition notify (err : error) (entry : Z * loc) : M World unit :=
  let '(_, call) := entry in
  (* call.Error = err *)
  c ← load_call call;
  modify (set_calls <[call := set_Error err c]>);;
  (* call.done() *)
  done call.

(** [func (client Client) terminateCalls(err error)].  The receiver is a
    value: [client] is the caller's copy of the struct, and the copy is
    what the function returns here, to show its final contents.  Its
    [pending] field refers to the same map object as the original's.
    [order] is the order in which [range] visits the entries of that map,
    which Go leaves unspecified. *)
Definition terminateCalls (client : Client) (order : list (Z * loc))
    (err : error) : M World Client :=
  let client := set_shutdown true client in
  for_each (notify err) order;;
  mret client.

(** The call [client.terminateCalls(err)] through a [*Client], as in
    [receive]: the struct is copied into the receiver. *)
Definition call_terminateCalls (order : list (Z * loc)) (err : error)
  : M World unit :=
  w ← get;
  terminateCalls (w_client w) order err;;
  mret tt.

(** [Client.send] *)
Definition send (call : loc) : M World unit :=
  '(seq, err) ← registerCall call;
  match err with
  | Some _ =>
      c ← load_call call;
      modify (set_calls <[call := set_Error err c]>);;
      done call
  | None =>
      c ← load_call call;
      modify (set_client (λ cl,
        set_header (codec.mkHeader (ServiceMethod c) seq "") cl));;
      w ← get;
      err ← cc_Write (header (w_client w)) (Args c);
      match err with
      | Some _ =>
          call ← removeCall seq;
          match call with
          | Some call =>
              c ← load_call call;
              modify (set_calls <[call := set_Error err c]>);;
              done call
          | None => mret tt
          end
      | None => mret tt
      end
  end.

(** [Client.Go] *)
Definition Go (serviceMethod : string) (args reply : any)
    (done : option loc) : M World loc :=
  done ← (if bool_decide (done ≠ None) then
            make_chan 10
          else
            n ← cap done;
            if (n =? 0)%nat then
              panic "rpc client:done channel is unbuffered"
            else mret done);
  call ← new_call (mkCall 0 serviceMethod args reply None done);
  send call;;
  mret call.

(** Whether a receive from [ch] is ready in a [select]: a buffered value
    waits.  A nil channel is never ready. *)
Definition chan_ready (ch : option loc) : M World bool := λ w,
  match ch with
  | None => Ret false w
  | Some l =>
      match w_chans w !! l with
      | None => Panic nil_deref
      | Some c => Ret (negb (bool_decide (ch_buf c = []))) w
      end
  end.

(** [<-ch]: the oldest value of the buffer; a nil channel and an empty one
    block the receiver. *)
Definition chan_recv (ch : option loc) : M World loc := λ w,
  match ch with
  | None => Block
  | Some l =>
      match w_chans w !! l with
      | None => Panic nil_deref
      | Some c =>
          match ch_buf c with
          | [] => Block
          | x :: buf => Ret x (set_chans <[l := mkChan (ch_cap c) buf]> w)
          end
      end
  end.

(** The [select] of [Client.Call], when it is run for the call [call].
    [ctx] is the state of the context then: [Some e] when [ctx.Done()] is
    closed, [e] being the text of [ctx.Err()]; [ctx_first] tells which case
    is taken when both are ready.  When none is ready the caller waits. *)
Definition Call_select (ctx : option string) (ctx_first : bool) (call : loc)
  : M World error :=
  c ← load_call call;
  ready ← chan_ready (Done c);
  match ctx with
  | Some e =>
      if negb ready || ctx_first then
        (* case <-ctx.Done() *)
        removeCall (Seq c);;
        mret (Some ("rpc client: call failed:" ++ e))
      else
        call ← chan_recv (Done c);
        c ← load_call call;
        mret (Error c)
  | None =>
      (* case call := <-call.Done *)
      call ← chan_recv (Done c);
      c ← load_call call;
      mret (Error c)
  end.

(** [Client.Call], with the [select] run as soon as [Go] has returned.
    (The name [Call] is that of the struct.) *)
Definition Client_Call (ctx : option string) (ctx_first : bool)
    (serviceMethod : string) (args reply : any) : M World error :=
  done ← make_chan 1;
  call ← Go serviceMethod args reply done;
  Call_select ctx ctx_first call.

(** [newClientCodec]: the new client's world.  The receiver goroutine it
    starts is outside a sequential run. *)
Definition newClientCodec (cc : Codec) (opt : loc) : World :=
  mkWorld (mkClient opt (codec.mkHeader "" 0 "") 1 false false) ∅ ∅ ∅ cc.

(** [NewClient(conn, opt)].  The outer [None] stands for a dereference of
    [opt] outside the store.  The result is the client (nil on failure),
    the error, and the connection as the call leaves it (on success the
    connection is the one inside the client's codec). *)
Definition NewClient (σ : opt.store) (conn : Conn) (opt : loc)
  : option (option World * error * Conn) :=
  o ← σ !! opt;
  match codec.NewCodecFuncMap !! opt.oCodecType o with
  | None =>
      Some (None, Some ("invalid codec type " ++ opt.oCodecType o), conn)
  | Some f =>
      match conn_write (JsonOption o) conn with
      | (Some e, conn) => Some (None, Some e, conn_close conn)
      | (None, conn) =>
          Some (Some (newClientCodec (new_codec f conn) opt), None, conn)
      end
  end.

(** [NewHTTPClient(conn, opt)].  [http.ReadResponse] belongs to Go's
    library: [ReadResponse conn] is what it returns on the bytes the peer
    sent, either [inl status] (a response, with its [Status]) or
    [inr err]. *)
Definition NewHTTPClient (ReadResponse : Conn → string + string)
    (σ : opt.store) (conn : Conn) (opt : loc)
  : option (option World * error * Conn) :=
  let '(_, conn) :=
    conn_write (RawBytes ("CONNECT " ++ http.defaultRPCPath ++ " HTTP/1.0"
                            ++ http.LF ++ http.LF)) conn in
  match ReadResponse conn with
  | inl status =>
      if String.eqb status http.connected then NewClient σ conn opt
      else Some (None, Some ("unexpected HTTP response: " ++ status), conn)
  | inr err => Some (None, Some err, conn)
  end.

(** [dialTimeout].  [dial] is the result of [net.DialTimeout], a
    connection or an error.  [f] runs in a goroutine of its own, which
    reports on an unbuffered channel; it is taken to have run when the
    handshake is awaited, and [timer_first] tells whether the [select] then
    takes the case of [time.After].  [text d] is the text that [fmt] gives
    for the duration [d].  The results are the client, the error, the store
    of options and the connection (if one was made) as the call leaves
    them. *)
Definition dialTimeout
    (f : opt.store → Conn → loc → option (option World * error * Conn))
    (text : Z → string) (timer_first : bool)
    (σ : opt.store) (dial : Conn + string) (opts : list (option loc))
  : option (option World * error * opt.store * option Conn) :=
  '(opt, err, σ) ← opt.parseOptions opts σ;
  match err, opt with
  | Some e, _ => Some (None, Some e, σ, None)
  | None, None => None
  | None, Some opt =>
      match dial with
      | inr e => Some (None, Some e, σ, None)
      | inl conn =>
          o ← σ !! opt;
          '(client, err, conn) ← f σ conn opt;
          (* the deferred function closes conn when err != nil *)
          let result (client : option World) (err : error) :=
            Some (client, err, σ,
                  Some (match err with
                        | Some _ => conn_close conn
                        | None => conn
                        end)) in
          if opt.oConnectTimeout o =? 0 then result client err
          else if timer_first then
            result None
              (Some ("rpc client:connect timeout: expect within "
                       ++ text (opt.oConnectTimeout o)))
          else result client err
      end
  end.

(** [Dial] and [DialHTTP] *)
Definition Dial := dialTimeout NewClient.
Definition DialHTTP (ReadResponse : Conn → string + string) :=
  dialTimeout (NewHTTPClient ReadResponse).

(** The option preambles among the messages written to a connection. *)
Definition preambles (conn : Conn) : list opt.Option :=
  omap (λ m, match m with JsonOption o => Some o | _ => None end) (sent conn).

(** [strings.Split(s, sep)] for a separator [sep] of one byte: the pieces of
    [s] between the occurrences of [sep], one more than there are
    occurrences. *)
Fixpoint Split (s : string) (sep : ascii) : list string :=
  match s with
  | "" => [""]
  | String a s' =>
      if Ascii.eqb a sep then "" :: Split s' sep
      else match Split s' sep with
           | p :: ps => String a p :: ps
           | [] => [String a ""]
           end
  end.

(** [XDial].  [net network address] is the result of [net.DialTimeout] for
    that network and address; the other parameters are those of
    [dialTimeout] and [NewHTTPClient]. *)
Definition XDial (net : string → string → Conn + string)
    (ReadResponse : Conn → string + string)
    (text : Z → string) (timer_first : bool)
    (σ : opt.store) (rpcAddr : string) (opts : list (option loc))
  : option (option World * error * opt.store * option Conn) :=
  let parts := Split rpcAddr "@" in
  if bool_decide (length parts ≠ 2%nat) then
    Some (None,
          Some ("rpc client err: wrong format '" ++ rpcAddr
                  ++ "', expect protocol@addr"),
          σ, None)
  else
    match parts with
    | [protocol; addr] =>
        if String.eqb protocol "http" then
          DialHTTP ReadResponse text timer_first σ (net "tcp" addr) opts
        else
          Dial text timer_first σ (net protocol addr) opts
    | _ => None
    end.

Definition set_Reply (v : any) (c : Call) : Call :=
  mkCall (Seq c) (ServiceMethod c) (Args c) v (Error c) (Done c).

(** What one turn of the loop of [receive] reads from the codec:
    [t_header] is the outcome of [ReadHeader(&h)], a header or an error;
    [t_err] is the error of the read that follows it ([ReadBody] or
    [ReadHeader(nil)]), and [t_reply] what the reply object holds after
    [ReadBody(call.Reply)].  The field [Reply] of a call stands for the
    object that the caller's pointer refers to. *)
Record turn := mkTurn {
  t_header : codec.Header + string;
  t_err : error;
  t_reply : any
}.

(** One turn of the loop of [receive]; the result is the value of [err] at
    the end of the turn.  [Errorf format] is the text of
    [fmt.Errorf(format)]. *)
Definition receive_turn (Errorf : string → string) (t : turn)
  : M World error :=
  match t_header t with
  | inr e => mret (Some e)
  | inl h =>
      call ← removeCall (codec.Seq h);
      match call with
      | None =>
          (* err = client.cc.ReadBody(nil) *)
          mret (t_err t)
      | Some call =>
          if negb (String.eqb (codec.Error h) "") then
            (* call.Error = fmt.Errorf(h.Error) *)
            c ← load_call call;
            modify (set_calls
                      <[call := set_Error (Some (Errorf (codec.Error h))) c]>);;
            (* err = client.cc.ReadHeader(nil) *)
            done call;;
            mret (t_err t)
          else
            (* err = client.cc.ReadBody(call.Reply) *)
            c ← load_call call;
            modify (set_calls <[call := set_Reply (t_reply t) c]>);;
            match t_err t with
            | Some e =>
                c ← load_call call;
                modify (set_calls
                          <[call := set_Error (Some ("reading body" ++ e)) c]>)
            | None => mret tt
            end;;
            done call;;
            mret (t_err t)
      end
  end.



(** A sequential history of the operations on [seq] and [pending] that one
    client goes through, in the order in which they take the mutex [mu]. *)
Inductive op :=
  | OpRegister (call : loc)
  | OpRemove (seq : Z)
  | OpClose.

(** Runs a history and collects the sequence numbers returned by the
    [registerCall]s that succeeded. *)
Fixpoint run_ops (ops : list op) : M World (list Z) :=
  match ops with
  | [] => mret []
  | OpRegister call :: ops =>
      '(s, err) ← registerCall call;
      rest ← run_ops ops;
      mret (match err with None => s :: rest | Some _ => rest end)
  | OpRemove s :: ops => removeCall s;; run_ops ops
  | OpClose :: ops => Close;; run_ops ops
  end.

End client.

(* ===================================================================== *)
(** ** Services and their methods (src/unnamed/part_001) *)
(* ===================================================================== *)

(** What the code uses of package [reflect]. *)
Module reflect.

Inductive Kind :=
  | Invalid | Bool | Int | Int8 | Int16 | Int32 | Int64
  | Uint | Uint8 | Uint16 | Uint32 | Uint64 | Uintptr
  | Float32 | Float64 | Complex64 | Complex128
  | Array | Chan | Func | Interface | Map | Pointer | Slice
  | String | Struct | UnsafePointer.

(** A [reflect.Type].  [Named pkg name u] is a defined type of underlying
    type [u], declared in the package of path [pkg]; the predeclared types
    ([int], [string], [error], ...) are the named types of empty package
    path.  The other types are type literals: pointers, slices and maps, and
    [Lit k repr] for the remaining ones (struct, func, interface literals,
    ...), [repr] being their text. *)
Inductive Type_ :=
  | Named (pkg name : string) (underlying : Type_)
  | Lit (k : Kind) (repr : string)
  | PtrTo (elem : Type_)
  | SliceOf (elem : Type_)
  | MapOf (key elem : Type_).

#[global] Instance Kind_eq_dec : EqDecision Kind.
Proof. solve_decision. Defined.

#[global] Instance Type_eq_dec : EqDecision Type_.
Proof. solve_decision. Defined.

(** [Type.Name]: empty for the types that are not defined types. *)
Definition Name (t : Type_) : string :=
  match t with Named _ name _ => name | _ => "" end.

(** [Type.PkgPath]: empty for predeclared and for not defined types. *)
Definition PkgPath (t : Type_) : string :=
  match t with Named pkg _ _ => pkg | _ => "" end.

(** [Type.Kind] *)
Fixpoint kind (t : Type_) : Kind :=
  match t with
  | Named _ _ u => kind u
  | Lit k _ => k
  | PtrTo _ => Pointer
  | SliceOf _ => Slice
  | MapOf _ _ => Map
  end.

(** [Type.Elem], which panics on the kinds without element type. *)
Fixpoint Elem (t : Type_) : option Type_ :=
  match t with
  | Named _ _ u => Elem u
  | Lit _ _ => None
  | PtrTo e | SliceOf e | MapOf _ e => Some e
  end.

(** [reflect.TypeOf(( *error)(nil)).Elem()]: the predeclared type [error]. *)
Definition errorType : Type_ := Named "" "error" (Lit Interface "interface { Error() string }").

(** A [reflect.Method]: its name and the parameter and result types of its
    function type, the receiver being parameter 0. *)
Record Method := mkMethod {
  mName : string;
  mIn : list Type_;
  mOut : list Type_
}.

(** A [reflect.Value], as far as [newArgv] and [newReplyv] build one: the
    zero value of a type, a non-nil pointer to a value (of type [PtrTo t]
    when the value has type [t]), an empty map, or a slice of given length
    and capacity whose elements are zero. *)
Inductive Value :=
  | Zero (t : Type_)
  | Ptr (t : Type_) (v : Value)
  | MakeMap (t : Type_)
  | MakeSlice (t : Type_) (len cap : Z).

(** [reflect.New(t)]: a pointer to a new zero value of type [t]. *)
Definition New (t : Type_) : Value := Ptr t (Zero t).

(** [Value.Type] *)
Definition TypeOf (v : Value) : Type_ :=
  match v with
  | Zero t | MakeMap t | MakeSlice t _ _ => t
  | Ptr t _ => PtrTo t
  end.

End reflect.

(** [ast.IsExported]: whether the name starts with an upper-case letter.
    Identifiers are taken to be ASCII. *)
Definition IsExported (name : string) : bool :=
  match name with
  | "" => false
  | String a _ => (("A" <=? a) && (a <=? "Z"))%char
  end.

Module service.

Record methodType := mkMethodType {
  method : reflect.Method;
  ArgType : reflect.Type_;
  ReplyType : reflect.Type_;
  numCalls : Z
}.

Record service := mkService {
  name : string;
  typ : reflect.Type_;
  methods : gmap string methodType     (* the field [method] *)
}.

(** [isExportedOrBuiltinType] *)
Definition isExportedOrBuiltinType (t : reflect.Type_) : bool :=
  IsExported (reflect.Name t) || bool_decide (reflect.PkgPath t = "").

(** One turn of the loop of [registerMethods], on [s.typ.Method(i)]; each
    [continue] leaves the map as it is. *)
Definition register_one (m : gmap string methodType) (method : reflect.Method)
  : gmap string methodType :=
  if bool_decide (length (reflect.mIn method) ≠ 3%nat
                  ∨ length (reflect.mOut method) ≠ 1%nat) then m
  else if bool_decide (reflect.mOut method !! 0%nat ≠ Some reflect.errorType)
  then m
  else
    match reflect.mIn method !! 1%nat, reflect.mIn method !! 2%nat with
    | Some argType, Some replyType =>
        if negb (isExportedOrBuiltinType argType)
           || negb (isExportedOrBuiltinType replyType) then m
        else <[reflect.mName method :=
                 mkMethodType method argType replyType 0]> m
    | _, _ => m
    end.

(** [service.registerMethods], over [s.typ.Method(0)], ...,
    [s.typ.Method(s.typ.NumMethod()-1)]. *)
Definition registerMethods (typ_methods : list reflect.Method)
  : gmap string methodType :=
  foldl register_one ∅ typ_methods.

(** [Type.Method] and [Type.NumMethod] give the exported methods of the
    method set only. *)
Definition exported_methods (method_set : list reflect.Method)
  : list reflect.Method :=
  filter (λ m, IsExported (reflect.mName m) = true) method_set.

(** [reflect.Indirect(v).Type()] for a value of type [t]. *)
Definition indirect (t : reflect.Type_) : reflect.Type_ :=
  match reflect.kind t, reflect.Elem t with
  | reflect.Pointer, Some e => e
  | _, _ => t
  end.

(** [newService(rcvr)], for a receiver of type [t] whose method set is
    [method_set]; [None] is the exit of [log.Fatalf]. *)
Definition newService (t : reflect.Type_) (method_set : list reflect.Method)
  : option service :=
  let name := reflect.Name (indirect t) in
  if negb (IsExported name) then None
  else Some (mkService name t (registerMethods (exported_methods method_set))).

(** [methodType.newArgv]; [None] is the panic of [Type.Elem]. *)
Definition newArgv (m : methodType) : option reflect.Value :=
  if decide (reflect.kind (ArgType m) = reflect.Pointer) then
    e ← reflect.Elem (ArgType m);
    Some (reflect.New e)
  else
    (* reflect.New(m.ArgType).Elem() *)
    Some (reflect.Zero (ArgType m)).

(** [methodType.newReplyv]; [None] is the panic of [Type.Elem]. *)
Definition newReplyv (m : methodType) : option reflect.Value :=
  e ← reflect.Elem (ReplyType m);
  let replyv := reflect.New e in
  Some (match reflect.kind e with
        | reflect.Map => reflect.Ptr e (reflect.MakeMap e)
        | reflect.Slice => reflect.Ptr e (reflect.MakeSlice e 0 0)
        | _ => replyv
        end).

End service.

(* ===================================================================== *)
(** ** The server (src/unnamed/part_000) *)
(* ===================================================================== *)

Module server.

(** How [ServeConn] leaves its set-up phase: it either returns (closing
    the connection) or enters [serveCodec] with a codec built by [f]. *)
Inductive setup :=
  | Closed
  | ServeCodec (f : codec.NewCodecFunc) (o : opt.Option).

(** [Server.ServeConn] up to the call of [serveCodec].  [decoded] is the
    result of [json.NewDecoder(conn).Decode(&opt)]: an error or the
    decoded [Option]. *)
Definition ServeConn (decoded : string + opt.Option) : setup :=
  match decoded with
  | inl _ => Closed
  | inr o =>
      if bool_decide (opt.oMagicNumber o ≠ opt.MagicNumber) then Closed
      else
        match codec.NewCodecFuncMap !! opt.oCodecType o with
        | None => Closed
        | Some f => ServeCodec f o
        end
  end.

(** [strings.LastIndex(s, sep)] for a separator [sep] of one byte: the index
    of its last occurrence in [s], or -1. *)
Fixpoint LastIndex (s : string) (sep : ascii) : Z :=
  match s with
  | "" => -1
  | String a s' =>
      let i := LastIndex s' sep in
      if 0 <=? i then i + 1
      else if Ascii.eqb a sep then 0 else -1
  end.

(** The slice expression [s[i:j]]. *)
Definition slice (s : string) (i j : Z) : string :=
  substring (Z.to_nat i) (Z.to_nat (j - i)) s.

(** [len(s)] *)
Definition len (s : string) : Z := Z.of_nat (String.length s).

(** [Server.findService]; [serviceMap] is the content of the server's
    [sync.Map].  The three results are [svc], [mtype] and [err]. *)
Definition findService (serviceMap : gmap string service.service)
    (serviceMethod : string)
  : option service.service * option service.methodType * error :=
  let dot := LastIndex serviceMethod "." in
  if dot <? 0 then
    (None, None,
     Some ("rpc server:service/method request ill-formed:" ++ serviceMethod))
  else
    let serviceName := slice serviceMethod 0 dot in
    let methodName := slice serviceMethod (dot + 1) (len serviceMethod) in
    match serviceMap !! serviceName with
    | None =>
        (None, None, Some ("rpc server:can't find service" ++ serviceName))
    | Some svc =>
        let mtype := service.methods svc !! methodName in
        match mtype with
        | None =>
            (Some svc, mtype,
             Some ("rpc server : can't find method" ++ methodName))
        | Some _ => (Some svc, mtype, None)
        end
    end.

(** *** handleRequest

    [handleRequest] runs two goroutines, the handler itself and the one it
    starts for the call, which meet on the unbuffered channels [called] and
    [sent].  Their interleavings are the schedules of the machine below:
    each action is one step of one goroutine, or a rendezvous of both on a
    channel, and an action that is not enabled in a state cannot be
    scheduled there. *)

(** The body given to [sendResponse]: the placeholder [invalidRequest] or
    the reply value. *)
Inductive body :=
  | invalidRequest
  | replyv (v : client.any).

(** Where the handler is: before the [go] statement, at the test of
    [timeout], at [<-called], at [<-sent], at the [select], or returned. *)
Inductive handler_pc :=
  | HSpawn | HTest | HRecvCalled | HRecvSent | HSelect | HReturn.

(** Where the started goroutine is: not started, in [req.svc.call], at
    [called <- struct{}{}], before its [sendResponse], at
    [sent <- struct{}{}], or returned. *)
Inductive worker_pc :=
  | WNone | WCall | WSendCalled | WRespond | WSendSent | WReturn.

Record handling := mkHandling {
  h_pc : handler_pc;
  w_pc : worker_pc;
  req_h : codec.Header;                   (* the header behind req.h *)
  written : list (codec.Header * body)    (* the calls of cc.Write *)
}.

(** What is fixed while a request is handled: the handle timeout, and the
    error and reply with which the user's method returns. *)
Record request := mkRequest {
  timeout : Z;
  call_err : error;
  call_reply : client.any
}.

Definition set_Error (e : string) (h : codec.Header) : codec.Header :=
  codec.mkHeader (codec.ServiceMethod h) (codec.Seq h) e.

Inductive action :=
  | AGo          (* the handler starts the goroutine *)
  | ATest        (* the handler tests timeout == 0 *)
  | ACall        (* req.svc.call returns *)
  | ACalled      (* rendezvous on called *)
  | ARespond     (* the goroutine's sendResponse *)
  | ASent        (* rendezvous on sent *)
  | ATimer.      (* the select takes the case of time.After *)

#[global] Instance action_eq_dec : EqDecision action.
Proof. solve_decision. Defined.

(** One step; [None] when the action is not enabled.  [text d] is the text
    that [fmt.Sprintf] gives for the duration [d] (Go's
    [Duration.String]). *)
Definition exec (text : Z → string) (rq : request) (a : action)
    (s : handling) : option handling :=
  match a, h_pc s, w_pc s with
  | AGo, HSpawn, WNone =>
      Some (mkHandling HTest WCall (req_h s) (written s))
  | ATest, HTest, w =>
      Some (mkHandling (if timeout rq =? 0 then HRecvCalled else HSelect)
              w (req_h s) (written s))
  | ACall, h, WCall =>
      Some (mkHandling h WSendCalled (req_h s) (written s))
  | ACalled, (HRecvCalled | HSelect), WSendCalled =>
      Some (mkHandling HRecvSent WRespond (req_h s) (written s))
  | ARespond, h, WRespond =>
      match call_err rq with
      | Some e =>
          (* req.h.Error = err.Error(); sendResponse(req.h, invalidRequest) *)
          let hd := set_Error e (req_h s) in
          Some (mkHandling h WSendSent hd
                  (written s ++ [(hd, invalidRequest)]))
      | None =>
          Some (mkHandling h WSendSent (req_h s)
                  (written s ++ [(req_h s, replyv (call_reply rq))]))
      end
  | ASent, HRecvSent, WSendSent =>
      Some (mkHandling HReturn WReturn (req_h s) (written s))
  | ATimer, HSelect, w =>
      let hd := set_Error
                  ("rpc server: request handle timeout: expect within "
                     ++ text (timeout rq)) (req_h s) in
      Some (mkHandling HReturn w hd (written s ++ [(hd, invalidRequest)]))
  | _, _, _ => None
  end.

(** A schedule, run from a state. *)
Fixpoint run (text : Z → string) (rq : request) (sched : list action)
    (s : handling) : option handling :=
  match sched with
  | [] => Some s
  | a :: sched => s' ← exec text rq a s; run text rq sched s'
  end.

(** The state in which [handleRequest] is entered for the header [h]. *)
Definition enter (h : codec.Header) : handling :=
  mkHandling HSpawn WNone h [].

(** *** Register, readRequest and the loop of serveCodec *)

(** [Server.Register], for a receiver of type [t] whose method set is
    [method_set]: the error and the service map after the call; [None] is
    the exit of [log.Fatalf] in [newService]. *)
Definition Register (serviceMap : gmap string service.service)
    (t : reflect.Type_) (method_set : list reflect.Method)
  : option (error * gmap string service.service) :=
  s ← service.newService t method_set;
  (* LoadOrStore(s.name, s) *)
  match serviceMap !! service.name s with
  | Some _ =>
      Some (Some ("rpc: service already defined:" ++ service.name s),
            serviceMap)
  | None => Some (None, <[service.name s := s]> serviceMap)
  end.

(** The struct [request] of the server; the fields that [readRequest] has
    not set are [None]. *)
Record request_ := mkRequest_ {
  rq_h : codec.Header;
  rq_argv : option reflect.Value;
  rq_replyv : option reflect.Value;
  rq_mtype : option service.methodType;
  rq_svc : option service.service
}.

(** [readRequestHeader]; [read] is the outcome of [cc.ReadHeader(&h)]. *)
Definition readRequestHeader (read : codec.Header + string)
  : option codec.Header * error :=
  match read with
  | inl h => (Some h, None)
  | inr e => (None, Some e)
  end.

(** [readRequest]; [body] is the error of [cc.ReadBody(argvi)], which the
    code logs and drops (what the read stores in [argv] is not
    represented).  The outer [None] is a panic, of [newArgv] or
    [newReplyv]. *)
Definition readRequest (serviceMap : gmap string service.service)
    (read : codec.Header + string) (body : error)
  : option (option request_ * error) :=
  match readRequestHeader read with
  | (_, Some e) => Some (None, Some e)
  | (None, None) => None
  | (Some h, None) =>
      let '(svc, mtype, err) :=
        findService serviceMap (codec.ServiceMethod h) in
      match err with
      | Some e => Some (Some (mkRequest_ h None None mtype svc), Some e)
      | None =>
          m ← mtype;
          argv ← service.newArgv m;
          replyv ← service.newReplyv m;
          let req := mkRequest_ h (Some argv) (Some replyv) mtype svc in
          match body with
          | Some _ => Some (Some req, None)
          | None => Some (Some req, None)
          end
      end
  end.

(** What the loop of [serveCodec] has done when it stops reading: the
    responses it wrote itself, the requests for which it started
    [handleRequest], in order, and whether it left the loop ([false] when
    it waits for a read that does not come). *)
Record served := mkServed {
  responses : list (codec.Header * body);
  handled : list request_;
  ended : bool
}.

(** The loop of [serveCodec] on the reads of [script], one pair of header
    read and body read for each turn; [None] is a panic. *)
Fixpoint serveCodec (serviceMap : gmap string service.service)
    (script : list ((codec.Header + string) * error))
    (acc : served) : option served :=
  match script with
  | [] => Some acc
  | (read, body) :: script =>
      '(req, err) ← readRequest serviceMap read body;
      match err, req with
      | Some e, None =>
          (* break *)
          Some (mkServed (responses acc) (handled acc) true)
      | Some e, Some req =>
          (* req.h.Error = err.Error(); sendResponse(..., invalidRequest) *)
          serveCodec serviceMap script
            (mkServed (responses acc ++ [(set_Error e (rq_h req), invalidRequest)])
               (handled acc) (ended acc))
      | None, Some req =>
          (* go server.handleRequest(cc, req, ...) *)
          serveCodec serviceMap script
            (mkServed (responses acc) (handled acc ++ [req]) (ended acc))
      | None, None => None
      end
  end.

End server.

(* ===================================================================== *)
(** ** The registry (src/unnamed/part_003) *)
(* ===================================================================== *)

Module registry.

(** [time.Time] and [time.Duration] are counted in nanoseconds. *)
Definition Minute : Z := 60 * 1000000000.

Record ServerItem := mkServerItem {
  Addr : string;
  start : Z
}.

(** The map holds pointers to items that nothing else refers to; the items
    are kept in the map itself.  The mutex has no content in a sequential
    run. *)
Record MiniRegistry := mkRegistry {
  timeout : Z;
  servers : gmap string ServerItem
}.

Definition defaultPath : string := "/_minirpc_/registry".
Definition defaultTimeout : Z := Minute * 5.

Definition New (timeout : Z) : MiniRegistry := mkRegistry timeout ∅.

(** [putServer]; [now] is the reading of [time.Now()]. *)
Definition putServer (addr : string) (now : Z) (r : MiniRegistry)
  : MiniRegistry :=
  match servers r !! addr with
  | None =>
      mkRegistry (timeout r) (<[addr := mkServerItem addr now]> (servers r))
  | Some s =>
      mkRegistry (timeout r)
        (<[addr := mkServerItem (Addr s) now]> (servers r))
  end.

(** [sort.Strings]: ascending in the order of Go's strings, which compares
    byte by byte. *)
Definition sort_Strings (l : list string) : list string :=
  merge_sort String.le l.

(** [strings.Join] *)
Fixpoint Join (elems : list string) (sep : string) : string :=
  match elems with
  | [] => ""
  | [x] => x
  | x :: rest => x ++ sep ++ Join rest sep
  end.

(** One turn of the loop of [aliveServers], at the entry [(addr, s)];
    [now addr] is the reading of [time.Now()] in that turn. *)
Definition alive_step (timeout : Z) (now : string → Z)
    (st : list string * gmap string ServerItem) (entry : string * ServerItem)
  : list string * gmap string ServerItem :=
  let '(alive, servers) := st in
  let '(addr, s) := entry in
  if (timeout =? 0) || (now addr <? start s + timeout)
  then ((alive ++ [addr])%list, servers)
  else (alive, delete addr servers).

(** [aliveServers].  The receiver is a value, but its [servers] field
    refers to the registry's own map, so the deletions are the registry's.
    [order] is the order in which [range] visits the entries the map has
    when the loop starts, which Go leaves unspecified. *)
Definition aliveServers (r : MiniRegistry) (now : string → Z)
    (order : list (string * ServerItem)) : list string * MiniRegistry :=
  let '(alive, servers) :=
    foldl (alive_step (timeout r) now) ([], servers r) order in
  (sort_Strings alive, mkRegistry (timeout r) servers).

(** An [http.Request], as far as the handler reads it, and what the handler
    does to its [http.ResponseWriter]: the headers it sets, the status it
    writes (if any; the server sends 200 otherwise) and the body. *)
Record Request := mkRequest {
  Method : string;
  Header : gmap string string
}.

Record Response := mkResponse {
  w_header : gmap string string;
  w_status : option Z;
  w_body : string
}.

Definition StatusInternalServerError : Z := 500.
Definition StatusMethodNotAllowed : Z := 405.

(** [Header.Get]: the empty string for an absent key. *)
Definition Header_Get (h : gmap string string) (key : string) : string :=
  default "" (h !! key).

(** [MiniRegistry.ServeHTTP], started on the response [w]. *)
Definition ServeHTTP (r : MiniRegistry) (w : Response) (req : Request)
    (now : string → Z) (order : list (string * ServerItem))
  : Response * MiniRegistry :=
  if String.eqb (Method req) "GET" then
    let '(alive, r) := aliveServers r now order in
    (mkResponse (<["X-Minirpc-Servers" := Join alive ","]> (w_header w))
       (w_status w) (w_body w), r)
  else if String.eqb (Method req) "POST" then
    let addr := Header_Get (Header req) "X-Minirpc-Server" in
    if String.eqb addr "" then
      (mkResponse (w_header w) (Some StatusInternalServerError) (w_body w), r)
    else (w, putServer addr (now addr) r)
  else
    (mkResponse (w_header w) (Some StatusMethodNotAllowed) (w_body w), r).

(** The period of the ticker of [Heartbeat], called with [duration]. *)
Definition Heartbeat_period (duration : Z) : Z :=
  if duration =? 0 then defaultTimeout - 1 * Minute else duration.

End registry.

(* ===================================================================== *)
(** ** Discovery and the client over several servers
       (src/unnamed/part_004) *)
(* ===================================================================== *)

Module xclient.

(** [SelectMode] *)
Definition RandomSelect : Z := 0.
Definition RoundRobinSelect : Z := 1.

Definition MaxInt32 : Z := 2147483647.

(** The arithmetic of [int], taken to have 64 bits: [int x] is the [int]
    that Go computes where the integers give [x]. *)
Definition int (x : Z) : Z := (x + 2 ^ 63) `mod` 2 ^ 64 - 2 ^ 63.

(** [l[i]], which panics when [i] is out of range. *)
Definition at_ {A} (l : list A) (i : Z) : option A :=
  if i <? 0 then None else l !! Z.to_nat i.

(** The fields of [MultiServersDiscovery] that hold data.  The generator
    [r] is represented by its draws: where the code calls [d.r.Intn(n)],
    the model takes [Intn n], the number drawn at that call. *)
Record MultiServersDiscovery := mkDiscovery {
  servers : list string;
  index : Z
}.

Definition NewMultiServerDiscovery (Intn : Z → Z) (servers : list string)
  : MultiServersDiscovery :=
  mkDiscovery servers (Intn (MaxInt32 - 1)).

Definition Refresh (d : MultiServersDiscovery) : error := None.

Definition Update (servers : list string) (d : MultiServersDiscovery)
  : error * MultiServersDiscovery :=
  (None, mkDiscovery servers (index d)).

(** [Get]: the address, the error and the discovery after the call; [None]
    is the panic of an index out of range. *)
Definition Get (Intn : Z → Z) (mode : Z) (d : MultiServersDiscovery)
  : option (string * error * MultiServersDiscovery) :=
  let n := Z.of_nat (length (servers d)) in
  if n =? 0 then Some ("", Some "rpc discovery: no available servers", d)
  else if mode =? RandomSelect then
    s ← at_ (servers d) (Intn n);
    Some (s, None, d)
  else if mode =? RoundRobinSelect then
    s ← at_ (servers d) (Z.rem (index d) n);
    Some (s, None, mkDiscovery (servers d) (Z.rem (int (index d + 1)) n))
  else Some ("", Some "rpc discovery: not supported select mode", d).

(** [GetAll]: the copy is a slice of its own, with the same elements. *)
Definition GetAll (d : MultiServersDiscovery) : list string * error :=
  (servers d, None).

(** [XClient].  [clients] maps an address to a pointer to a [Client]; the
    clients themselves are in the heap, each with the world of its own
    that the functions of [Client] act on. *)
Record XClient := mkXClient {
  d : MultiServersDiscovery;
  mode : Z;
  opt : option loc;
  clients : gmap string (option loc)
}.

Abbreviation heap := (gmap loc client.World).

Definition NewXClient (d : MultiServersDiscovery) (mode : Z)
    (opt : option loc) : XClient :=
  mkXClient d mode opt ∅.

Definition set_clients (f : gmap string (option loc) → gmap string (option loc))
    (xc : XClient) : XClient :=
  mkXClient (d xc) (mode xc) (opt xc) (f (clients xc)).

Definition set_d (v : MultiServersDiscovery) (xc : XClient) : XClient :=
  mkXClient v (mode xc) (opt xc) (clients xc).

(** A call of a method of [Client] on the client at [p]; a nil or dangling
    receiver, a panic and a block all leave no result. *)
Definition on_client {A} (f : M client.World A) (p : option loc) (h : heap)
  : option (A * heap) :=
  p ← p;
  w ← h !! p;
  match f w with
  | Ret a w' => Some (a, <[p := w']> h)
  | _ => None
  end.

(** One turn of the loop of [XClient.Close], at the entry [(key, client)]. *)
Definition Close_step (st : option (XClient * heap))
    (entry : string * option loc) : option (XClient * heap) :=
  '(xc, h) ← st;
  (* _ = client.Close() *)
  '(_, h) ← on_client client.Close entry.2 h;
  (* delete(xc.clients, key) *)
  Some (set_clients (delete entry.1) xc, h).

(** [XClient.Close]; [order] is the order in which [range] visits the
    entries of [xc.clients]. *)
Definition Close (xc : XClient) (h : heap)
    (order : list (string * option loc)) : option (error * XClient * heap) :=
  '(xc, h) ← foldl Close_step (Some (xc, h)) order;
  Some (None, xc, h).

(** The first statements of [XClient.dial]: the client that the table has
    for the address, unless it is not available; such a client is closed
    and leaves the table. *)
Definition dial_cached (rpcAddr : string) (xc : XClient) (h : heap)
  : option (option loc * XClient * heap) :=
  (* client, ok := xc.clients[rpcAddr] *)
  match clients xc !! rpcAddr with
  | Some client =>
      '(available, h) ← on_client client.IsAvailable client h;
      if negb available then
        '(_, h) ← on_client client.Close client h;
        Some (None, set_clients (delete rpcAddr) xc, h)
      else Some (client, xc, h)
  | None => Some (None, xc, h)
  end.

(** The rest of [XClient.dial], with [client] as the first statements
    leave it.  [XDial rpcAddr opt] is the result of
    [XDial(rpcAddr, xc.opt)]: the client it made, in its first state, and
    the error.  A new client is put at a location that the heap does not
    use. *)
Definition dial_new (XDial : string → option loc → option client.World * error)
    (rpcAddr : string) (client : option loc) (xc : XClient) (h : heap)
  : option (option loc * error * XClient * heap) :=
  match client with
  | Some p => Some (Some p, None, xc, h)
  | None =>
      match XDial rpcAddr (opt xc) with
      | (_, Some e) => Some (None, Some e, xc, h)
      | (Some w, None) =>
          let p := fresh (dom h) in
          Some (Some p, None, set_clients <[rpcAddr := Some p]> xc,
                <[p := w]> h)
      | (None, None) =>
          Some (None, None, set_clients <[rpcAddr := None]> xc, h)
      end
  end.

(** [XClient.dial] *)
Definition dial (XDial : string → option loc → option client.World * error)
    (rpcAddr : string) (xc : XClient) (h : heap)
  : option (option loc * error * XClient * heap) :=
  '(client, xc, h) ← dial_cached rpcAddr xc h;
  dial_new XDial rpcAddr client xc h.

(** [XClient.Call] and [XClient.call] up to the call of [Client.Call]: the
    client that the call is made on, or the error that ends it before. *)
Definition Call_client (Intn : Z → Z)
    (XDial : string → option loc → option client.World * error)
    (xc : XClient) (h : heap)
  : option (option loc * error * XClient * heap) :=
  '(rpcAddr, err, d') ← Get Intn (mode xc) (d xc);
  let xc := set_d d' xc in
  match err with
  | Some e => Some (None, Some e, xc, h)
  | None => dial XDial rpcAddr xc h
  end.

End xclient.

(* ===================================================================== *)
(** ** Predicates of the statements *)
(* ===================================================================== *)

(** The calls [ps] can all be notified: they are distinct, each has a [Done]
    channel of its own, and that channel has a free slot. *)
Definition notifiable (w : client.World) (ps : list loc) : Prop :=
  NoDup ps ∧
  (∀ p, p ∈ ps → ∃ c ch q,
     client.w_calls w !! p = Some c ∧ client.Done c = Some ch ∧
     client.w_chans w !! ch = Some q ∧
     (length (client.ch_buf q) < client.ch_cap q)%nat) ∧
  (∀ p1 p2 c1 c2, p1 ∈ ps → p2 ∈ ps →
     client.w_calls w !! p1 = Some c1 → client.w_calls w !! p2 = Some c2 →
     client.Done c1 = client.Done c2 → p1 = p2).

(** The eligibility of a method as [registerMethods] tests it: two
    parameters after the receiver, one result of type [error], and argument
    and reply types that each have an exported name or an empty package
    path. *)
Definition eligible (meth : reflect.Method) : Prop :=
  ∃ rcvr arg reply,
    reflect.mIn meth = [rcvr; arg; reply] ∧
    reflect.mOut meth = [reflect.errorType] ∧
    (IsExported (reflect.Name arg) = true ∨ reflect.PkgPath arg = "") ∧
    (IsExported (reflect.Name reply) = true ∨ reflect.PkgPath reply = "").

(** The descriptor that [registerMethods] stores for an eligible method. *)
Definition descriptor (meth : reflect.Method) : option service.methodType :=
  match reflect.mIn meth, reflect.mOut meth with
  | [_; arg; reply], [out] =>
      if decide (out = reflect.errorType) then
        if service.isExportedOrBuiltinType arg
           && service.isExportedOrBuiltinType reply
        then Some (service.mkMethodType meth arg reply 0)
        else None
      else None
  | _, _ => None
  end.

(** The type a type points to in the end: pointers are followed. *)
Fixpoint pointee (t : reflect.Type_) : reflect.Type_ :=
  match t with
  | reflect.PtrTo e => pointee e
  | reflect.Named _ _ u =>
      match reflect.kind u with
      | reflect.Pointer => pointee u
      | _ => t
      end
  | _ => t
  end.

(** The eligibility of a method in the words of the specification (C3): two
    parameters after the receiver, a reply that is a pointer, one result of
    type [error], and element types of the argument and of the reply that
    are exported or built in. *)
Definition eligible_spec (meth : reflect.Method) : Prop :=
  ∃ rcvr arg reply,
    reflect.mIn meth = [rcvr; arg; reply] ∧
    reflect.kind reply = reflect.Pointer ∧
    reflect.mOut meth = [reflect.errorType] ∧
    (IsExported (reflect.Name (pointee arg)) = true
     ∨ reflect.PkgPath (pointee arg) = "") ∧
    (IsExported (reflect.Name (pointee reply)) = true
     ∨ reflect.PkgPath (pointee reply) = "").

(** Whether the byte [c] occurs in [s]. *)
Fixpoint has_byte (c : ascii) (s : string) : bool :=
  match s with
  | "" => false
  | String a s' => Ascii.eqb a c || has_byte c s'
  end.

(** [s] split at its last dot: [s] is [pre.suf] and [suf] has no dot. *)
Definition last_dot_split (s pre suf : string) : Prop :=
  s = pre ++ String "." suf ∧ has_byte "." suf = false.

(** The three kinds of error of [findService], told by their text. *)
Definition ill_formed (e : error) : Prop :=
  ∃ x, e = Some ("rpc server:service/method request ill-formed:" ++ x).
Definition no_such_service (e : error) : Prop :=
  ∃ x, e = Some ("rpc server:can't find service" ++ x).
Definition no_such_method (e : error) : Prop :=
  ∃ x, e = Some ("rpc server : can't find method" ++ x).

(** Whether the registry [r] keeps the entry [(addr, s)] at time [now]. *)
Definition is_alive (r : registry.MiniRegistry) (now : string → Z)
    (addr : string) (s : registry.ServerItem) : Prop :=
  registry.timeout r = 0 ∨ registry.start s + registry.timeout r > now addr.




(** The pending calls of a client are in the state in which [Go] leaves
    them: each entry of [pending] holds a call of its own, whose [Done]
    channel is its own too and has a free slot. *)
Definition pending_wf (w : client.World) : Prop :=
  (∀ k p, client.w_pending w !! k = Some p →
     ∃ c ch q,
       client.w_calls w !! p = Some c ∧ client.Done c = Some ch ∧
       client.w_chans w !! ch = Some q ∧
       (length (client.ch_buf q) < client.ch_cap q)%nat) ∧
  (∀ k1 k2 p, client.w_pending w !! k1 = Some p →
              client.w_pending w !! k2 = Some p → k1 = k2) ∧
  (∀ k1 k2 p1 p2 c1 c2,
     client.w_pending w !! k1 = Some p1 →
     client.w_pending w !! k2 = Some p2 →
     client.w_calls w !! p1 = Some c1 → client.w_calls w !! p2 = Some c2 →
     client.Done c1 = client.Done c2 → p1 = p2).




(** The number of occurrences of the byte [c] in [s]. *)
Fixpoint count_byte (c : ascii) (s : string) : nat :=
  match s with
  | "" => 0
  | String a s' => ((if Ascii.eqb a c then 1 else 0) + count_byte c s')%nat
  end.

(** The error of [findService] for the request of header [h]. *)
Definition lookup_error (serviceMap : gmap string service.service)
    (h : codec.Header) : error :=
  (server.findService serviceMap (codec.ServiceMethod h)).2.

(** The response that the loop of [serveCodec] writes itself for the
    request of header [h], if it writes one. *)
Definition refusal (serviceMap : gmap string service.service)
    (h : codec.Header) : option (codec.Header * server.body) :=
  e ← lookup_error serviceMap h;
  Some (codec.mkHeader (codec.ServiceMethod h) (codec.Seq h) e,
        server.invalidRequest).

(** The kinds of the types for which [Type.Elem] is defined. *)
Definition has_elem (k : reflect.Kind) : bool :=
  match k with
  | reflect.Array | reflect.Chan | reflect.Map | reflect.Pointer
  | reflect.Slice => true
  | _ => false
  end.

(** The index of a discovery is an [int] that is not negative and that the
    next increment does not overflow, and the length of its list is an
    [int]. *)
Definition index_ok (d : xclient.MultiServersDiscovery) : Prop :=
  0 ≤ xclient.index d < 2 ^ 63 - 1 ∧
  Z.of_nat (length (xclient.servers d)) < 2 ^ 63.

(** The results of [k] calls of [Get] in the round-robin mode, one after
    the other. *)
Fixpoint round_robin (Intn : Z → Z) (k : nat)
    (d : xclient.MultiServersDiscovery)
  : option (list (string * error) * xclient.MultiServersDiscovery) :=
  match k with
  | O => Some ([], d)
  | S k =>
      '(s, err, d) ← xclient.Get Intn xclient.RoundRobinSelect d;
      '(l, d) ← round_robin Intn k d;
      Some ((s, err) :: l, d)
  end.

(** The table of an [XClient] holds no nil pointer and no pointer that
    leaves the heap. *)
Definition table_ok (xc : xclient.XClient) (h : xclient.heap) : Prop :=
  ∀ k c, xclient.clients xc !! k = Some c →
         ∃ p, c = Some p ∧ is_Some (h !! p).

(** [XDial] returns a client when it returns no error. *)
Definition client_or_error
    (XDial : string → option loc → option client.World * error) : Prop :=
  ∀ a o, (XDial a o).2 = None → is_Some (XDial a o).1.

(** Symbolic execution of the client's monadic code. *)
Ltac run_step :=
  unfold client.Go, client.send, client.registerCall, client.removeCall,
    client.cc_Write, client.cc_Close, client.conn_Close, client.conn_write,
    client.done, client.chan_send,
    client.load_call, client.make_chan, client.new_call, client.cap,
    client.Close, client.IsAvailable,
    mbind, M_bind, mret, M_ret, get, modify, panic, block;
  simpl;
  rewrite ?lookup_insert_eq; simpl.
Ltac run := repeat progress run_step.

(* ===================================================================== *)
(** * Properties *)
(* ===================================================================== *)

(** ** The codec table *)

Lemma NewCodecFuncMap_lookup (t : string) :
  codec.NewCodecFuncMap !! t =
    if bool_decide (t = codec.JsonType ∨ t = codec.GobType)
    then Some codec.NewGobCodec else None.
Proof.
  unfold codec.NewCodecFuncMap, codec.init.
  case_bool_decide as H.
  - destruct H as [-> | ->]; [by rewrite lookup_insert_eq|].
    rewrite lookup_insert_ne; [by rewrite lookup_insert_eq | done].
  - rewrite !lookup_insert_ne, lookup_empty; [done | |]; intros <-; tauto.
Qed.

(** C9.  Asking for the JSON codec is not a set-up error: the constructor
    table holds the gob constructor under both the gob and the JSON
    identifier, so a client ([NewClient]) or a server ([ServeConn]) given
    ["application/json"] gets a gob codec, and only the other identifiers
    are refused at set-up. *)
Theorem json_codec_selects_gob
    (σ : opt.store) (conn : client.Conn) (p : loc) (o : opt.Option) :
  σ !! p = Some o →
  client.conn_fault conn = None →
  opt.oMagicNumber o = opt.MagicNumber →
  let conn' := client.mkConn (client.sent conn ++ [client.JsonOption o])
                 (client.conn_closed conn) (client.conn_fault conn) in
  codec.NewCodecFuncMap !! codec.GobType = Some codec.NewGobCodec ∧
  codec.NewCodecFuncMap !! codec.JsonType = Some codec.NewGobCodec ∧
  (∀ t, t ≠ codec.GobType → t ≠ codec.JsonType →
        codec.NewCodecFuncMap !! t = None) ∧
  (opt.oCodecType o = codec.JsonType ∨ opt.oCodecType o = codec.GobType →
     client.NewClient σ conn p =
       Some (Some (client.newClientCodec (client.GobCodec conn') p),
             None, conn') ∧
     server.ServeConn (inr o) = server.ServeCodec codec.NewGobCodec o) ∧
  (opt.oCodecType o ≠ codec.JsonType → opt.oCodecType o ≠ codec.GobType →
     client.NewClient σ conn p =
       Some (None, Some ("invalid codec type " ++ opt.oCodecType o), conn) ∧
     server.ServeConn (inr o) = server.Closed).
Proof.
  intros Hp Hf Hm conn'.
  split_and!.
  - rewrite NewCodecFuncMap_lookup. by rewrite bool_decide_eq_true_2; [|right].
  - rewrite NewCodecFuncMap_lookup. by rewrite bool_decide_eq_true_2; [|left].
  - intros t H1 H2. rewrite NewCodecFuncMap_lookup.
    rewrite bool_decide_eq_false_2; [done | tauto].
  - intros Ht. unfold client.NewClient, server.ServeConn.
    rewrite Hp. simpl. rewrite NewCodecFuncMap_lookup.
    rewrite bool_decide_eq_true_2 by done.
    unfold client.conn_write. rewrite Hf.
    subst conn'. rewrite Hf. split; [done|].
    rewrite bool_decide_eq_false_2; [done|]. intros H. by apply H.
  - intros H1 H2. unfold client.NewClient, server.ServeConn.
    rewrite Hp. simpl. rewrite NewCodecFuncMap_lookup.
    rewrite bool_decide_eq_false_2 by tauto.
    split; [done|]. by case_bool_decide.
Qed.

Lemma json_codec_selects_gob_witness :
  let o := opt.mkOption opt.MagicNumber codec.JsonType 0 0 in
  let conn := client.mkConn [] false None in
  let conn' := client.mkConn [client.JsonOption o] false None in
  client.NewClient {[ 2%positive := o ]} conn 2%positive =
    Some (Some (client.newClientCodec (client.GobCodec conn') 2%positive),
          None, conn').
Proof.
  intros o conn conn'.
  refine (proj1 (proj1 (proj2 (proj2 (proj2
    (json_codec_selects_gob {[ 2%positive := o ]} conn 2%positive o
       _ _ _)))) _)).
  - reflexivity.
  - reflexivity.
  - reflexivity.
  - left. reflexivity.
Defined.

(** ** parseOptions *)

(** The claim of C10 that more than one argument yields an error fails when
    the first argument is nil: the default is returned, without error. *)
Lemma parseOptions_nil_first_no_error :
  let σ := <[2%positive := opt.mkOption 7 "" 0 0]> opt.init_store in
  length [None; Some 2%positive] = 2%nat ∧
  opt.parseOptions [None; Some 2%positive] σ =
    Some (Some opt.DefaultOption, None, σ).
Proof. split; reflexivity. Qed.

Lemma parseOptions_one (σ : opt.store) (p : loc) (o : opt.Option) :
  σ !! opt.DefaultOption = Some opt.DefaultOption_init →
  σ !! p = Some o →
  opt.parseOptions [Some p] σ =
    Some (Some p, None,
          <[p := opt.mkOption 0x3bef5c
                   (if decide (opt.oCodecType o = "")
                    then codec.GobType else opt.oCodecType o)
                   (opt.oConnectTimeout o) (opt.oHandleTimeout o)]> σ).
Proof.
  intros Hd Ho. unfold opt.parseOptions. simpl. rewrite Hd, Ho. simpl.
  rewrite lookup_insert_eq. simpl.
  destruct (String.eqb_spec (opt.oCodecType o) "") as [He|He].
  - rewrite decide_True by done.
    destruct (decide (p = opt.DefaultOption)) as [->|Hne].
    + rewrite Hd in Ho. injection Ho as <-. done.
    + rewrite lookup_insert_ne by done. rewrite Hd. simpl.
      by rewrite insert_insert_eq.
  - rewrite decide_False by done. unfold opt.set_MagicNumber.
    by destruct o.
Qed.

Lemma parseOptions_magic (opts : list (option loc)) (σ σ' : opt.store)
    (r : loc) (e : error) :
  σ !! opt.DefaultOption = Some opt.DefaultOption_init →
  (∀ p, Some p ∈ opts → is_Some (σ !! p)) →
  opt.parseOptions opts σ = Some (Some r, e, σ') →
  e = None ∧ ∃ o, σ' !! r = Some o ∧ opt.oMagicNumber o = 0x3bef5c.
Proof.
  intros Hd Hopts Hr.
  destruct opts as [|[p|] [|x rest]].
  - injection Hr as <- <- <-. rewrite Hd. by eauto.
  - destruct (Hopts p) as [o Ho]; [by left|].
    rewrite (parseOptions_one σ p o Hd Ho) in Hr.
    injection Hr as <- <- <-. rewrite lookup_insert_eq. by eauto.
  - discriminate Hr.
  - injection Hr as <- <- <-. rewrite Hd. by eauto.
  - injection Hr as <- <- <-. rewrite Hd. by eauto.
Qed.

Lemma preambles_write (m : client.msg) (conn conn' : client.Conn)
    (e : error) :
  client.conn_write m conn = (e, conn') →
  client.preambles conn' =
    (client.preambles conn ++
       match e, m with
       | None, client.JsonOption o => [o]
       | _, _ => []
       end)%list.
Proof.
  unfold client.conn_write, client.preambles.
  destruct (client.conn_fault conn); intros [= <- <-]; simpl.
  - by rewrite app_nil_r.
  - rewrite omap_app. by destruct m.
Qed.

Lemma NewClient_preambles (σ : opt.store) (conn conn' : client.Conn)
    (p : loc) (o : opt.Option) (res : option client.World * error) :
  σ !! p = Some o →
  client.NewClient σ conn p = Some (res, conn') →
  ∀ x, x ∈ client.preambles conn' → x ∈ client.preambles conn ∨ x = o.
Proof.
  intros Hp. unfold client.NewClient. rewrite Hp. simpl.
  destruct (codec.NewCodecFuncMap !! opt.oCodecType o); [|by intros [= <- <-]; auto].
  destruct (client.conn_write (client.JsonOption o) conn) as [e c] eqn:Hw.
  apply preambles_write in Hw.
  destruct e; intros [= <- <-] x; unfold client.conn_close, client.preambles in *;
    simpl in *; rewrite Hw; rewrite elem_of_app, ?list_elem_of_singleton;
    intros [?|?]; auto. by apply elem_of_nil in H.
Qed.

Lemma NewHTTPClient_preambles (ReadResponse : client.Conn → string + string)
    (σ : opt.store) (conn conn' : client.Conn)
    (p : loc) (o : opt.Option) (res : option client.World * error) :
  σ !! p = Some o →
  client.NewHTTPClient ReadResponse σ conn p = Some (res, conn') →
  ∀ x, x ∈ client.preambles conn' → x ∈ client.preambles conn ∨ x = o.
Proof.
  intros Hp. unfold client.NewHTTPClient.
  destruct (client.conn_write _ conn) as [e c] eqn:Hw.
  apply preambles_write in Hw.
  assert (Hc : client.preambles c = client.preambles conn).
  { rewrite Hw. destruct e; by rewrite app_nil_r. }
  destruct (ReadResponse c) as [status|err].
  - destruct (String.eqb status http.connected).
    + intros H x Hx. rewrite <- Hc. by eapply NewClient_preambles.
    + intros [= <- <-] x Hx. left. by rewrite <- Hc.
  - intros [= <- <-] x Hx. left. by rewrite <- Hc.
Qed.

Lemma dialTimeout_preambles
    (f : opt.store → client.Conn → loc →
         option (option client.World * error * client.Conn))
    (text : Z → string) (timer_first : bool) (σ σ' : opt.store)
    (conn conn' : client.Conn) (opts : list (option loc))
    (cl : option client.World) (err : error) :
  (∀ σ conn conn' p o res,
     σ !! p = Some o → f σ conn p = Some (res, conn') →
     ∀ x, x ∈ client.preambles conn' → x ∈ client.preambles conn ∨ x = o) →
  σ !! opt.DefaultOption = Some opt.DefaultOption_init →
  (∀ p, Some p ∈ opts → is_Some (σ !! p)) →
  client.dialTimeout f text timer_first σ (inl conn) opts
    = Some (cl, err, σ', Some conn') →
  ∀ x, x ∈ client.preambles conn' →
       x ∈ client.preambles conn ∨ opt.oMagicNumber x = 0x3bef5c.
Proof.
  intros Hf Hd Hopts. unfold client.dialTimeout.
  destruct (opt.parseOptions opts σ) as [[[r e] σ1]|] eqn:Hparse; [|done].
  simpl. destruct e as [e|]; [done|]. destruct r as [r|]; [|done].
  destruct (parseOptions_magic opts σ σ1 r None Hd Hopts Hparse)
    as (_ & o & Ho & Hmagic).
  rewrite Ho. simpl.
  destruct (f σ1 conn r) as [[[cl1 err1] conn1]|] eqn:Hfr; [|done]. simpl.
  intros Hres x Hx.
  assert (x ∈ client.preambles conn1) as Hx1.
  { destruct (opt.oConnectTimeout o =? 0); [|destruct timer_first];
      injection Hres as <- <- <- <-; by destruct err1. }
  destruct (Hf σ1 conn conn1 r o (cl1, err1) Ho Hfr x Hx1) as [?| ->]; auto.
Qed.

(** C10 (amended).  With no argument, or with a nil first argument (whatever
    follows it), [parseOptions] returns the pointer [DefaultOption] (magic
    0x3bef5c, gob codec type, 10 s connect timeout) and no error; with
    exactly one non-nil argument it returns that pointer after overwriting
    its magic number with the default one and an empty codec type with the
    gob codec type; with more than one argument of which the first is not
    nil it returns an error.  Hence every option preamble that [Dial] or
    [DialHTTP] writes to the connection carries the magic number
    0x3bef5c. *)
Theorem parseOptions_spec (opts : list (option loc)) (σ : opt.store) :
  σ !! opt.DefaultOption = Some opt.DefaultOption_init →
  (∀ p, Some p ∈ opts → is_Some (σ !! p)) →
  opt.DefaultOption_init =
    opt.mkOption 0x3bef5c "application/gob" 10000000000 0 ∧
  match opts with
  | [] | None :: _ =>
      opt.parseOptions opts σ = Some (Some opt.DefaultOption, None, σ)
  | [Some p] =>
      ∃ o, σ !! p = Some o ∧
        opt.parseOptions opts σ =
          Some (Some p, None,
                <[p := opt.mkOption 0x3bef5c
                         (if decide (opt.oCodecType o = "")
                          then codec.GobType else opt.oCodecType o)
                         (opt.oConnectTimeout o) (opt.oHandleTimeout o)]> σ)
  | Some _ :: _ :: _ =>
      opt.parseOptions opts σ =
        Some (None, Some "number of options is more than 1", σ)
  end ∧
  (∀ ReadResponse text timer_first conn cl err σ' conn',
     client.Dial text timer_first σ (inl conn) opts
       = Some (cl, err, σ', Some conn') ∨
     client.DialHTTP ReadResponse text timer_first σ (inl conn) opts
       = Some (cl, err, σ', Some conn') →
     ∀ o, o ∈ client.preambles conn' →
          o ∈ client.preambles conn ∨ opt.oMagicNumber o = 0x3bef5c).
Proof.
  intros Hd Hopts. split; [reflexivity|]. split.
  - destruct opts as [|[p|] [|x rest]]; try reflexivity.
    destruct (Hopts p) as [o Ho]; [by left|].
    exists o. split; [done|]. by apply parseOptions_one.
  - intros RR text tf conn cl err σ' conn' [H|H].
    + eapply dialTimeout_preambles; [|done..|exact H].
      intros. by eapply NewClient_preambles.
    + eapply dialTimeout_preambles; [|done..|exact H].
      intros. by eapply NewHTTPClient_preambles.
Qed.

Lemma parseOptions_spec_witness :
  let o := opt.mkOption 7 "" 5 0 in
  opt.parseOptions [Some 2%positive] (<[2%positive := o]> opt.init_store) =
    Some (Some 2%positive, None,
          <[2%positive := opt.mkOption 0x3bef5c codec.GobType 5 0]>
            (<[2%positive := o]> opt.init_store)).
Proof.
  intros o.
  destruct (parseOptions_spec [Some 2%positive]
              (<[2%positive := o]> opt.init_store)) as (_ & H & _).
  - reflexivity.
  - intros p Hp. apply list_elem_of_singleton in Hp. injection Hp as ->.
    exists o. reflexivity.
  - destruct H as (o' & Ho' & ->).
    vm_compute in Ho'. injection Ho' as <-. reflexivity.
Defined.

(** A run of [Dial] with an option of wrong magic number and no codec type:
    the preamble written has the default magic number and the gob type. *)
Example Dial_run :
  let o := opt.mkOption 7 "" 5 0 in
  let conn := client.mkConn [] false None in
  ∃ w σ' conn',
    client.Dial (λ _, "5ns") false (<[2%positive := o]> opt.init_store)
      (inl conn) [Some 2%positive] = Some (Some w, None, σ', Some conn') ∧
    client.sent conn' =
      [client.JsonOption (opt.mkOption 0x3bef5c codec.GobType 5 0)].
Proof. intros o conn. eexists _, _, _. split; vm_compute; reflexivity. Qed.

(** ** Client.Go *)

Lemma fresh_chan_None (w : client.World) :
  client.w_chans w !! fresh (dom (client.w_chans w)) = None.
Proof. apply not_elem_of_dom, is_fresh. Qed.

Lemma fresh_call_None (w : client.World) :
  client.w_calls w !! fresh (dom (client.w_calls w)) = None.
Proof. apply not_elem_of_dom, is_fresh. Qed.

(** C1 (what the code does).  [Go] tests [done != nil] where it means
    [done == nil]: with a nil [done] it panics, and with any non-nil [done]
    (of capacity 0 or more) it returns a call whose [Done] is a channel of
    capacity 10 made by [Go] itself, different from the caller's, which is
    left as it was. *)
Theorem Go_done_channel (sm : string) (args reply : client.any)
    (w : client.World) (ch : loc) (q0 : client.Chan) :
  client.w_chans w !! ch = Some q0 →
  client.Go sm args reply None w =
    Panic "rpc client:done channel is unbuffered" ∧
  ∃ call w' c l q,
    client.Go sm args reply (Some ch) w = Ret call w' ∧
    client.w_calls w' !! call = Some c ∧
    client.Done c = Some l ∧ l ≠ ch ∧
    client.w_chans w' !! l = Some q ∧ client.ch_cap q = 10%nat ∧
    client.w_chans w' !! ch = Some q0.
Proof.
  intros Hch. split; [reflexivity|].
  assert (Hne : fresh (dom (client.w_chans w)) ≠ ch).
  { intros Heq. pose proof (fresh_chan_None w) as Hf.
    rewrite Heq, Hch in Hf. discriminate. }
  unfold client.Go. rewrite bool_decide_eq_true_2 by done. run.
  destruct (client.closing (client.w_client w)
            || client.shutdown (client.w_client w)); run;
    [|destruct (client.buf_err (client.w_cc w)); run;
      [|destruct (client.conn_fault (client.conn_of (client.w_cc w))); run]];
    do 3 eexists; exists (fresh (dom (client.w_chans w))); eexists;
    (split; [reflexivity|]); run;
    rewrite ?lookup_insert_ne by done; rewrite ?lookup_insert_eq;
    eauto 10.
Qed.

Lemma Go_done_channel_witness :
  let w := client.set_chans <[5%positive := client.mkChan 1 []]>
             (client.newClientCodec
                (client.GobCodec (client.mkConn [] false None)) 1%positive) in
  client.Go "Foo.Sum" "args" "reply" None w =
    Panic "rpc client:done channel is unbuffered" ∧
  ∃ call w' c l q,
    client.Go "Foo.Sum" "args" "reply" (Some 5%positive) w = Ret call w' ∧
    client.w_calls w' !! call = Some c ∧
    client.Done c = Some l ∧ l ≠ 5%positive ∧
    client.w_chans w' !! l = Some q ∧ client.ch_cap q = 10%nat ∧
    client.w_chans w' !! 5%positive = Some (client.mkChan 1 []).
Proof.
  intros w.
  apply (Go_done_channel "Foo.Sum" "args" "reply" w 5%positive).
  reflexivity.
Defined.

(** ** registerCall and the sequence counter *)

Lemma registerCall_ok (w : client.World) (call : loc) (c : client.Call) :
  client.closing (client.w_client w) = false →
  client.shutdown (client.w_client w) = false →
  client.w_calls w !! call = Some c →
  client.registerCall call w =
    Ret (client.seq (client.w_client w), None)
      (client.mkWorld
         (client.set_seq (client.u64 (client.seq (client.w_client w) + 1))
            (client.w_client w))
         (<[client.seq (client.w_client w) := call]> (client.w_pending w))
         (<[call := client.set_Seq (client.seq (client.w_client w)) c]>
            (client.w_calls w))
         (client.w_chans w) (client.w_cc w)).
Proof.
  intros Hc Hs Hcall. run. rewrite Hc, Hs. run. rewrite Hcall. run.
  reflexivity.
Qed.

Lemma registerCall_refused (w : client.World) (call : loc) :
  client.closing (client.w_client w) || client.shutdown (client.w_client w)
    = true →
  client.registerCall call w = Ret (0, client.ErrShutdown) w.
Proof. intros H. run. rewrite H. reflexivity. Qed.

Lemma u64_range (z : Z) : 0 ≤ client.u64 z < 2 ^ 64.
Proof. unfold client.u64. apply Z.mod_pos_bound. lia. Qed.

Lemma u64_small (z : Z) : 0 ≤ z < 2 ^ 64 → client.u64 z = z.
Proof. intros H. unfold client.u64. by apply Z.mod_small. Qed.

Lemma run_ops_seqs (ops : list client.op) : ∀ w : client.World,
  0 ≤ client.seq (client.w_client w) < 2 ^ 64 →
  (∀ call, client.OpRegister call ∈ ops →
           is_Some (client.w_calls w !! call)) →
  ∃ seqs w',
    client.run_ops ops w = Ret seqs w' ∧
    (client.seq (client.w_client w) + Z.of_nat (length seqs) ≤ 2 ^ 64 →
       seqs = seqZ (client.seq (client.w_client w)) (Z.of_nat (length seqs)) ∧
       client.seq (client.w_client w') =
         client.u64 (client.seq (client.w_client w)
                     + Z.of_nat (length seqs))).
Proof.
  induction ops as [|o ops IH]; intros w Hr Hall.
  - exists [], w. split; [reflexivity|]. intros _. simpl.
    rewrite Z.add_0_r, u64_small by done. done.
  - assert (Hall' : ∀ call, client.OpRegister call ∈ ops →
                            is_Some (client.w_calls w !! call)).
    { intros call Hin. apply Hall. by right. }
    destruct o as [call|s|]; simpl.
    + destruct (client.closing (client.w_client w)
                || client.shutdown (client.w_client w)) eqn:Hcs.
      * destruct (IH w Hr Hall') as (seqs & w' & Hrun & Hseq).
        exists seqs, w'. split; [|done].
        unfold mbind, M_bind. rewrite registerCall_refused by done.
        rewrite Hrun. reflexivity.
      * apply orb_false_elim in Hcs as [Hc Hs].
        destruct (Hall call) as [c Hcall]; [by left|].
        set (w1 := client.mkWorld
         (client.set_seq (client.u64 (client.seq (client.w_client w) + 1))
            (client.w_client w))
         (<[client.seq (client.w_client w) := call]> (client.w_pending w))
         (<[call := client.set_Seq (client.seq (client.w_client w)) c]>
            (client.w_calls w))
         (client.w_chans w) (client.w_cc w)).
        destruct (IH w1) as (seqs & w' & Hrun & Hseq).
        { apply u64_range. }
        { intros call' Hin. simpl.
          destruct (decide (call = call')) as [->|Hne].
          - rewrite lookup_insert_eq. by eexists.
          - rewrite lookup_insert_ne by done. by apply Hall'. }
        exists (client.seq (client.w_client w) :: seqs), w'. split.
        { unfold mbind, M_bind. rewrite (registerCall_ok w call c) by done.
          fold w1. rewrite Hrun. reflexivity. }
        simpl in Hseq. intros Hle. rewrite length_cons in *.
        destruct (decide (client.seq (client.w_client w) + 1 < 2 ^ 64))
          as [Hlt|Hge].
        -- rewrite u64_small in Hseq by lia.
           destruct Hseq as [Hs1 Hs2]; [lia|].
           split.
           ++ rewrite seqZ_cons by lia. f_equal.
              rewrite Hs1 at 1. f_equal; lia.
           ++ rewrite Hs2. f_equal. lia.
        -- assert (length seqs = 0%nat) as Hl by lia.
           destruct seqs; [|done]. simpl in *.
           destruct Hseq as [_ Hs2].
           { pose proof (u64_range (client.seq (client.w_client w) + 1)).
             lia. }
           split; [done|]. rewrite Hs2, Z.add_0_r.
           unfold client.u64. by rewrite Z.mod_mod.
    + destruct (IH (client.set_pending (delete s) w) Hr Hall')
        as (seqs & w' & Hrun & Hseq).
      exists seqs, w'. split; [|done]. exact Hrun.
    + run. destruct (client.closing (client.w_client w)) eqn:Hc.
      * destruct (IH w Hr Hall') as (seqs & w' & Hrun & Hseq).
        exists seqs, w'. by split.
      * match goal with
        | |- context [client.run_ops ops ?w0] =>
            destruct (IH w0 Hr Hall') as (seqs & w' & Hrun & Hseq)
        end.
        exists seqs, w'. split; [|done]. exact Hrun.
Qed.

(** C5.  A new client's counter is 1.  A [registerCall] that succeeds gives
    the call the current counter value, stores the call in [pending] under
    that value and adds one to the counter (a [uint64]).  Hence in any
    history of registrations, removals and [Close] on one client, the N
    registrations that succeed get the N distinct consecutive numbers
    seq0, seq0+1, ..., seq0+N-1, seq0 being the counter at the start, as
    long as these stay in the range of [uint64]. *)
Theorem registerCall_seq_consecutive
    (w : client.World) (ops : list client.op) (cc : client.Codec) (o : loc) :
  0 ≤ client.seq (client.w_client w) < 2 ^ 64 →
  (∀ call, client.OpRegister call ∈ ops →
           is_Some (client.w_calls w !! call)) →
  client.seq (client.w_client (client.newClientCodec cc o)) = 1 ∧
  (∀ call c,
     client.closing (client.w_client w) = false →
     client.shutdown (client.w_client w) = false →
     client.w_calls w !! call = Some c →
     ∃ w1,
       client.registerCall call w =
         Ret (client.seq (client.w_client w), None) w1 ∧
       client.w_calls w1 !! call =
         Some (client.set_Seq (client.seq (client.w_client w)) c) ∧
       client.w_pending w1 !! client.seq (client.w_client w) = Some call ∧
       client.seq (client.w_client w1) =
         client.u64 (client.seq (client.w_client w) + 1)) ∧
  ∃ seqs w',
    client.run_ops ops w = Ret seqs w' ∧
    (client.seq (client.w_client w) + Z.of_nat (length seqs) ≤ 2 ^ 64 →
       seqs = seqZ (client.seq (client.w_client w)) (Z.of_nat (length seqs)) ∧
       NoDup seqs).
Proof.
  intros Hr Hall. split; [reflexivity|]. split.
  - intros call c Hc Hs Hcall. eexists. split.
    + by apply registerCall_ok.
    + simpl. by rewrite !lookup_insert_eq.
  - destruct (run_ops_seqs ops w Hr Hall) as (seqs & w' & Hrun & Hseq).
    exists seqs, w'. split; [done|]. intros Hle.
    destruct (Hseq Hle) as [Heq _]. split; [done|].
    rewrite Heq. apply NoDup_seqZ.
Qed.

Lemma registerCall_seq_consecutive_witness :
  let cc := client.GobCodec (client.mkConn [] false None) in
  let c := client.mkCall 0 "Foo.Sum" "" "" None None in
  let w := client.set_calls (λ _, {[ 1%positive := c; 2%positive := c ]})
             (client.newClientCodec cc 1%positive) in
  ∃ w', client.run_ops
          [client.OpRegister 1%positive; client.OpRemove 1;
           client.OpRegister 2%positive] w = Ret [1; 2] w'.
Proof.
  intros cc c w.
  destruct (registerCall_seq_consecutive w
              [client.OpRegister 1%positive; client.OpRemove 1;
               client.OpRegister 2%positive] cc 1%positive)
    as (_ & _ & seqs & w' & Hrun & _).
  - simpl. lia.
  - intros call Hin.
    repeat (apply elem_of_cons in Hin as [Heq|Hin];
            [simplify_eq; eexists; reflexivity|]).
    by apply elem_of_nil in Hin.
  - vm_compute in Hrun. injection Hrun as <- <-. eexists. reflexivity.
Defined.

(** ** terminateCalls *)

Lemma notify_one (err : error) (k : Z) (p : loc) (w : client.World)
    (c : client.Call) (ch : loc) (q : client.Chan) :
  client.w_calls w !! p = Some c → client.Done c = Some ch →
  client.w_chans w !! ch = Some q →
  (length (client.ch_buf q) < client.ch_cap q)%nat →
  client.notify err (k, p) w =
    Ret tt (client.mkWorld (client.w_client w) (client.w_pending w)
              (<[p := client.set_Error err c]> (client.w_calls w))
              (<[ch := client.push p q]> (client.w_chans w))
              (client.w_cc w)).
Proof.
  intros Hc Hd Hq Hroom. unfold client.notify. run. rewrite Hc. run.
  rewrite Hd, Hq. apply Nat.ltb_lt in Hroom. rewrite Hroom. reflexivity.
Qed.

Lemma notify_all (err : error) (order : list (Z * loc)) :
  ∀ w, notifiable w order.*2 →
  ∃ w',
    client.for_each (client.notify err) order w = Ret tt w' ∧
    client.w_client w' = client.w_client w ∧
    client.w_pending w' = client.w_pending w ∧
    client.w_cc w' = client.w_cc w ∧
    (∀ p c ch q, p ∈ order.*2 →
       client.w_calls w !! p = Some c → client.Done c = Some ch →
       client.w_chans w !! ch = Some q →
       client.w_calls w' !! p = Some (client.set_Error err c) ∧
       client.w_chans w' !! ch = Some (client.push p q)) ∧
    (∀ p, p ∉ order.*2 → client.w_calls w' !! p = client.w_calls w !! p) ∧
    (∀ ch, (∀ p c, p ∈ order.*2 → client.w_calls w !! p = Some c →
                   client.Done c ≠ Some ch) →
           client.w_chans w' !! ch = client.w_chans w !! ch).
Proof.
  induction order as [|[k p0] order IH]; intros w (Hnd & Hroom & Hinj).
  - exists w. split_and!; try done. intros p c ch q Hin.
    by apply elem_of_nil in Hin.
  - simpl in *. apply NoDup_cons in Hnd as [Hp0 Hnd].
    destruct (Hroom p0) as (c0 & ch0 & q0 & Hc0 & Hd0 & Hq0 & Hr0);
      [by left|].
    set (w1 := client.mkWorld (client.w_client w) (client.w_pending w)
              (<[p0 := client.set_Error err c0]> (client.w_calls w))
              (<[ch0 := client.push p0 q0]> (client.w_chans w))
              (client.w_cc w)).
    assert (Hcalls1 : ∀ p, p ∈ order.*2 →
              client.w_calls w1 !! p = client.w_calls w !! p).
    { intros p Hin. simpl. rewrite lookup_insert_ne; [done|].
      intros <-. done. }
    assert (Hchans1 : ∀ p c ch, p ∈ order.*2 →
              client.w_calls w !! p = Some c → client.Done c = Some ch →
              ch ≠ ch0).
    { intros p c ch Hin Hc Hd ->. apply Hp0.
      rewrite (Hinj p0 p c0 c); [done|by left|by right|done..|congruence]. }
    destruct (IH w1) as (w' & Hrun & Hcl & Hpe & Hcc & Hin' & Hout & Hoch).
    { split_and!; [done| |].
      - intros p Hin. destruct (Hroom p) as (c & ch & q & Hc & Hd & Hq & Hr);
          [by right|].
        exists c, ch, q. rewrite Hcalls1 by done. split_and!; try done.
        simpl. rewrite lookup_insert_ne; [done|]. 
        intros <-. by eapply Hchans1.
      - intros p1 p2 c1 c2 H1 H2. rewrite !Hcalls1 by done.
        intros. eapply Hinj; eauto; by right. }
    exists w'. split_and!; try done.
    + cbn [client.for_each]. unfold mbind at 1. unfold M_bind at 1.
      pose proof (notify_one err k p0 w c0 ch0 q0 Hc0 Hd0 Hq0 Hr0) as Hn.
      unfold client.notify in Hn. rewrite Hn. exact Hrun.
    + intros p c ch q Hin Hc Hd Hq.
      apply elem_of_cons in Hin as [->|Hin].
      * simplify_eq. split.
        -- rewrite Hout by done. simpl. by rewrite lookup_insert_eq.
        -- rewrite Hoch; [simpl; by rewrite lookup_insert_eq|].
           intros p c Hin. rewrite Hcalls1 by done. intros Hc Hd.
           by eapply Hchans1.
      * apply (Hin' p c ch q); [done| |done|].
        -- by rewrite Hcalls1.
        -- simpl. rewrite lookup_insert_ne; [done|].
           intros <-. by eapply Hchans1.
    + intros p Hnin. apply not_elem_of_cons in Hnin as [Hne Hnin].
      rewrite Hout by done. simpl. by rewrite lookup_insert_ne.
    + intros ch Hch. rewrite Hoch.
      * simpl. rewrite lookup_insert_ne; [done|]. intros <-.
        by eapply (Hch p0 c0); [left|..].
      * intros p c Hin. rewrite Hcalls1 by done. intros Hc.
        eapply Hch; [by right|done].
Qed.

(** ** The pending calls made by Go *)

Lemma pending_wf_new (cc : client.Codec) (o : loc) :
  pending_wf (client.newClientCodec cc o).
Proof. split_and!; intros *; simpl; by rewrite lookup_empty. Qed.

Lemma pending_wf_extend (w w' : client.World) (k0 : Z) (p l : loc)
    (c : client.Call) (q : client.Chan) :
  pending_wf w →
  client.w_calls w !! p = None → client.w_chans w !! l = None →
  (∀ p', p' ≠ p → client.w_calls w' !! p' = client.w_calls w !! p') →
  (∀ l', l' ≠ l → client.w_chans w' !! l' = client.w_chans w !! l') →
  client.w_calls w' !! p = Some c → client.Done c = Some l →
  client.w_chans w' !! l = Some q →
  (length (client.ch_buf q) < client.ch_cap q)%nat →
  (∀ k p', client.w_pending w' !! k = Some p' →
           client.w_pending w !! k = Some p' ∨ (p' = p ∧ k = k0)) →
  pending_wf w'.
Proof.
  intros (Hroom & Hkeys & Hchans) Hp Hl Hcalls Hchs Hc Hd Hq Hr Hpend.
  assert (Hold : ∀ k p', client.w_pending w !! k = Some p' →
            p' ≠ p ∧ ∃ c' ch' q',
              client.w_calls w' !! p' = Some c' ∧
              client.w_calls w !! p' = Some c' ∧
              client.Done c' = Some ch' ∧ ch' ≠ l ∧
              client.w_chans w' !! ch' = Some q' ∧
              (length (client.ch_buf q') < client.ch_cap q')%nat).
  { intros k p' Hk.
    destruct (Hroom k p' Hk) as (c' & ch' & q' & Hc' & Hd' & Hq' & Hr').
    assert (p' ≠ p) by congruence. assert (ch' ≠ l) by congruence.
    split; [done|]. exists c', ch', q'.
    rewrite Hcalls, Hchs by done. done. }
  split_and!.
  - intros k p' [Hk|[-> ->]]%Hpend.
    + destruct (Hold k p' Hk) as (_ & c' & ch' & q' & ? & ? & ? & ? & ? & ?).
      by exists c', ch', q'.
    + by exists c, l, q.
  - intros k1 k2 p' [H1|[-> ->]]%Hpend [H2|[H2 ->]]%Hpend.
    + by eapply Hkeys.
    + by destruct (Hold k1 p' H1) as [? _].
    + by destruct (Hold k2 p H2) as [? _].
    + done.
  - intros k1 k2 p1 p2 c1 c2 [H1|[-> ->]]%Hpend [H2|[-> ->]]%Hpend
      Hc1 Hc2 Hdd.
    + destruct (Hold k1 p1 H1) as (? & c1' & ? & ? & ? & ? & ? & ? & ? & ?).
      destruct (Hold k2 p2 H2) as (? & c2' & ? & ? & ? & ? & ? & ? & ? & ?).
      simplify_eq. by eapply (Hchans k1 k2 p1 p2 c1 c2).
    + destruct (Hold k1 p1 H1) as (? & c1' & ? & ? & ? & ? & ? & ? & ? & ?).
      simplify_eq. congruence.
    + destruct (Hold k2 p2 H2) as (? & c2' & ? & ? & ? & ? & ? & ? & ? & ?).
      simplify_eq. congruence.
    + done.
Qed.

(** [Go] keeps the pending calls in that state. *)
Lemma Go_pending_wf (sm : string) (args reply : client.any)
    (w w' : client.World) (ch : loc) (call : loc) :
  pending_wf w →
  client.Go sm args reply (Some ch) w = Ret call w' →
  pending_wf w'.
Proof.
  intros Hwf.
  pose proof (fresh_call_None w) as Hp. pose proof (fresh_chan_None w) as Hl.
  unfold client.Go. rewrite bool_decide_eq_true_2 by done. run.
  destruct (client.closing (client.w_client w)
            || client.shutdown (client.w_client w)); run;
    [|destruct (client.buf_err (client.w_cc w)); run;
      [|destruct (client.conn_fault (client.conn_of (client.w_cc w))); run]];
    intros [= <- <-];
    eapply (pending_wf_extend w _ (client.seq (client.w_client w))
              (fresh (dom (client.w_calls w)))
              (fresh (dom (client.w_chans w)))); try done; simpl;
    rewrite ?lookup_insert_eq; try done;
    try (intros; by rewrite !lookup_insert_ne by done);
    try (simpl; lia).
  - intros k p' Hk. by left.
  - intros k p' Hk. apply lookup_delete_Some in Hk as [Hne Hk].
    rewrite lookup_insert_ne in Hk by done. by left.
  - intros k p' Hk. apply lookup_insert_Some in Hk as [[<- <-]|[_ Hk]];
      [by right|by left].
  - intros k p' Hk. apply lookup_insert_Some in Hk as [[<- <-]|[_ Hk]];
      [by right|by left].
Qed.

Lemma pending_wf_notifiable (w : client.World) (order : list (Z * loc)) :
  pending_wf w → order ≡ₚ map_to_list (client.w_pending w) →
  notifiable w order.*2.
Proof.
  intros (Hroom & Hkeys & Hchans) Hperm.
  assert (Hin : ∀ p, p ∈ order.*2 ↔ ∃ k, client.w_pending w !! k = Some p).
  { intros p. rewrite Hperm, list_elem_of_fmap. split.
    - intros ([k p'] & -> & Hk%elem_of_map_to_list). by exists k.
    - intros [k Hk]. exists (k, p). by rewrite elem_of_map_to_list. }
  split_and!.
  - rewrite Hperm. apply NoDup_fmap_2_strong; [|apply NoDup_map_to_list].
    intros [k1 p1] [k2 p2] H1%elem_of_map_to_list H2%elem_of_map_to_list.
    simpl. intros <-. f_equal. by eapply Hkeys.
  - intros p [k Hk]%Hin. by eapply Hroom.
  - intros p1 p2 c1 c2 [k1 H1]%Hin [k2 H2]%Hin. by eapply Hchans.
Qed.

(** In C2 the [shutdown] flag, the emptied map and the refusal of later
    sends fail: [terminateCalls] has a value receiver and never deletes from
    [pending].  Here one call is pending under number 1; after
    [terminateCalls] the client's flag is still false, the entry is still in
    the map, and a later [send] registers its call under number 2 and
    writes it out. *)
Lemma terminateCalls_keeps_pending :
  let cc := client.GobCodec (client.mkConn [] false None) in
  let c := client.mkCall 1 "Foo.Sum" "" "" None (Some 1%positive) in
  let c2 := client.mkCall 0 "Foo.Sum" "" "" None (Some 2%positive) in
  let w := client.mkWorld
             (client.mkClient 1%positive (codec.mkHeader "" 0 "") 2 false false)
             {[ 1 := 1%positive ]}
             {[ 1%positive := c; 2%positive := c2 ]}
             {[ 1%positive := client.mkChan 10 [];
                2%positive := client.mkChan 10 [] ]} cc in
  ∃ w' w'',
    client.call_terminateCalls (map_to_list (client.w_pending w))
      (Some "EOF") w = Ret tt w' ∧
    client.shutdown (client.w_client w') = false ∧
    client.w_pending w' = {[ 1 := 1%positive ]} ∧
    client.w_pending w' ≠ ∅ ∧
    client.send 2%positive w' = Ret tt w'' ∧
    client.w_pending w'' !! 2 = Some 2%positive ∧
    client.Error <$> client.w_calls w'' !! 2%positive = Some None ∧
    client.sent (client.conn_of (client.w_cc w'')) =
      [client.GobFrame (codec.mkHeader "Foo.Sum" 2 "") ""].
Proof.
  intros cc c c2 w. eexists _, _.
  split; [vm_compute; reflexivity|].
  split; [reflexivity|]. split; [reflexivity|].
  split; [intros H; apply (f_equal (λ m, m !! 1)) in H; discriminate H|].
  split; [vm_compute; reflexivity|].
  split; [reflexivity|]. split; reflexivity.
Qed.

(** C2 (amended).  When [terminateCalls(err)] runs on a client, every call
    that is pending at that moment gets its [Error] field set to [err] and
    is sent exactly once on its [Done] channel, and the pending map keeps
    its entries (it is not emptied).  The pending calls are supposed to be
    as [Go] makes them: each has a [Done] channel of its own with a free
    slot. *)
Theorem terminateCalls_notifies
    (w : client.World) (order : list (Z * loc)) (err : error) :
  order ≡ₚ map_to_list (client.w_pending w) →
  pending_wf w →
  ∃ w',
    client.call_terminateCalls order err w = Ret tt w' ∧
    client.w_pending w' = client.w_pending w ∧
    ∀ k p, client.w_pending w !! k = Some p →
      ∃ c ch q,
        client.w_calls w !! p = Some c ∧ client.Done c = Some ch ∧
        client.w_chans w !! ch = Some q ∧
        client.w_calls w' !! p = Some (client.set_Error err c) ∧
        client.w_chans w' !! ch = Some (client.push p q).
Proof.
  intros Hperm Hwf.
  pose proof (pending_wf_notifiable w order Hwf Hperm) as Hn.
  destruct (notify_all err order w Hn)
    as (w' & Hrun & Hcl & Hpe & Hcc & Hin & _ & _).
  exists w'. split_and!; [|done|].
  - unfold client.call_terminateCalls, client.terminateCalls.
    unfold mbind, M_bind, get, mret, M_ret. by rewrite Hrun.
  - intros k p Hkp.
    assert (Hp : p ∈ order.*2).
    { apply list_elem_of_fmap. exists (k, p). split; [done|].
      rewrite Hperm. by apply elem_of_map_to_list. }
    destruct Hn as (_ & Hroom & _).
    destruct (Hroom p Hp) as (c & ch & q & Hc & Hd & Hq & _).
    exists c, ch, q. split_and!; try done; by eapply Hin.
Qed.

Lemma terminateCalls_notifies_witness :
  let cc := client.GobCodec (client.mkConn [] false None) in
  let c := client.mkCall 1 "Foo.Sum" "" "" None (Some 1%positive) in
  let w := client.mkWorld
             (client.mkClient 1%positive (codec.mkHeader "" 0 "") 2 false false)
             {[ 1 := 1%positive ]} {[ 1%positive := c ]}
             {[ 1%positive := client.mkChan 10 [] ]} cc in
  ∃ w',
    client.call_terminateCalls [(1, 1%positive)] (Some "EOF") w = Ret tt w' ∧
    client.w_pending w' = client.w_pending w ∧
    ∀ k p, client.w_pending w !! k = Some p →
      ∃ c ch q,
        client.w_calls w !! p = Some c ∧ client.Done c = Some ch ∧
        client.w_chans w !! ch = Some q ∧
        client.w_calls w' !! p = Some (client.set_Error (Some "EOF") c) ∧
        client.w_chans w' !! ch = Some (client.push p q).
Proof.
  intros cc c w.
  apply (terminateCalls_notifies w [(1, 1%positive)] (Some "EOF")).
  - simpl. by rewrite map_to_list_singleton.
  - assert (Hone : ∀ k p, client.w_pending w !! k = Some p →
                          k = 1 ∧ p = 1%positive).
    { intros k p Hk. simpl in Hk.
      by apply lookup_singleton_Some in Hk as [<- <-]. }
    split_and!.
    + intros k p [-> ->]%Hone.
      exists c, 1%positive, (client.mkChan 10 []).
      split_and!; try reflexivity. simpl. lia.
    + intros k1 k2 p [-> _]%Hone [-> _]%Hone. reflexivity.
    + intros k1 k2 p1 p2 c1 c2 [_ ->]%Hone [_ ->]%Hone _ _ _. reflexivity.
Defined.

(** ** NewHTTPClient *)

(** The request line of C4 is not the one the code writes: the path is
    ["/_minirpc_"], without a final slash, and the line ends in two line
    feeds, without carriage returns. *)
Lemma NewHTTPClient_request_line :
  let conn := client.mkConn [] false None in
  ∃ w conn',
    client.NewHTTPClient (λ _, inl http.connected) opt.init_store conn
      opt.DefaultOption = Some (Some w, None, conn') ∧
    head (client.sent conn') =
      Some (client.RawBytes
              ("CONNECT /_minirpc_ HTTP/1.0" ++ http.LF ++ http.LF)) ∧
    head (client.sent conn') ≠
      Some (client.RawBytes
              ("CONNECT /_minirpc_/ HTTP/1.0"
                 ++ http.CR ++ http.LF ++ http.CR ++ http.LF)).
Proof.
  intros conn. eexists _, _. split; [vm_compute; reflexivity|].
  split; [reflexivity|]. simpl. discriminate.
Qed.

(** C4 (amended).  On a connection that accepts writes, [NewHTTPClient]
    writes exactly ["CONNECT /_minirpc_ HTTP/1.0\n\n"] (the path is the
    constant [defaultRPCPath]) and then reads the HTTP response: if that
    parses and its status is exactly ["200 Connected to Mini RPC"], the
    connection goes to [NewClient], whose result is returned (a client, for
    an option with a known codec, after the option preamble is written);
    otherwise no client is returned, the error is the parse error or
    ["unexpected HTTP response: "] followed by the status, and nothing more
    is written. *)
Theorem NewHTTPClient_spec (ReadResponse : client.Conn → string + string)
    (σ : opt.store) (conn : client.Conn) (p : loc) (o : opt.Option) :
  client.conn_fault conn = None →
  σ !! p = Some o →
  is_Some (codec.NewCodecFuncMap !! opt.oCodecType o) →
  let line := client.RawBytes
                ("CONNECT /_minirpc_ HTTP/1.0" ++ http.LF ++ http.LF) in
  let conn1 := client.mkConn (client.sent conn ++ [line])
                 (client.conn_closed conn) None in
  (ReadResponse conn1 = inl "200 Connected to Mini RPC" →
     client.NewHTTPClient ReadResponse σ conn p = client.NewClient σ conn1 p ∧
     ∃ w conn2,
       client.NewClient σ conn1 p = Some (Some w, None, conn2) ∧
       client.sent conn2 =
         (client.sent conn ++ [line; client.JsonOption o])%list) ∧
  (ReadResponse conn1 ≠ inl "200 Connected to Mini RPC" →
     client.NewHTTPClient ReadResponse σ conn p =
       Some (None,
             Some (match ReadResponse conn1 with
                   | inl status => "unexpected HTTP response: " ++ status
                   | inr err => err
                   end),
             conn1)).
Proof.
  intros Hf Hp [f Hcodec] line conn1.
  unfold client.NewHTTPClient, client.conn_write. rewrite Hf.
  assert (Heq : client.mkConn
            (client.sent conn ++
               [client.RawBytes ("CONNECT " ++ http.defaultRPCPath
                                   ++ " HTTP/1.0" ++ http.LF ++ http.LF)])
            (client.conn_closed conn) None = conn1) by reflexivity.
  rewrite Heq. clear Heq.
  split.
  - intros ->. rewrite String.eqb_refl. split; [done|].
    unfold client.NewClient. rewrite Hp. simpl. rewrite Hcodec.
    eexists _, _. split; [reflexivity|]. simpl.
    by rewrite <- app_assoc.
  - intros Hne. destruct (ReadResponse conn1) as [status|err]; [|done].
    destruct (String.eqb_spec status http.connected) as [->|Hs]; [done|].
    done.
Qed.

Lemma NewHTTPClient_spec_witness :
  let conn := client.mkConn [] false None in
  let line := client.RawBytes
                ("CONNECT /_minirpc_ HTTP/1.0" ++ http.LF ++ http.LF) in
  let conn1 := client.mkConn [line] false None in
  client.NewHTTPClient (λ _, inl "404 Not Found") opt.init_store conn
    opt.DefaultOption =
    Some (None, Some "unexpected HTTP response: 404 Not Found", conn1).
Proof.
  intros conn line conn1.
  refine (proj2 (NewHTTPClient_spec (λ _, inl "404 Not Found") opt.init_store
                   conn opt.DefaultOption opt.DefaultOption_init _ _ _) _).
  - reflexivity.
  - reflexivity.
  - eexists. reflexivity.
  - discriminate.
Defined.

(** ** registerMethods *)

Lemma register_one_descriptor (m : gmap string service.methodType)
    (meth : reflect.Method) :
  service.register_one m meth =
    match descriptor meth with
    | Some d => <[reflect.mName meth := d]> m
    | None => m
    end.
Proof.
  unfold service.register_one, descriptor.
  destruct meth as [n ins outs]. simpl.
  destruct ins as [|r [|a [|b [|x ins]]]];
    destruct outs as [|out [|y outs]]; simpl; try reflexivity.
  destruct (decide (out = reflect.errorType)) as [->|Hne].
  - rewrite bool_decide_eq_false_2 by (intros ?; done).
    by destruct (service.isExportedOrBuiltinType a),
                (service.isExportedOrBuiltinType b).
  - rewrite bool_decide_eq_true_2; [done|]. congruence.
Qed.

Lemma descriptor_eligible (meth : reflect.Method) :
  is_Some (descriptor meth) ↔ eligible meth.
Proof.
  unfold descriptor, eligible, service.isExportedOrBuiltinType.
  destruct meth as [n ins outs]. simpl. split.
  - intros [d Hd].
    destruct ins as [|r [|a [|b [|x ins]]]]; try done.
    destruct outs as [|out [|y outs]]; try done.
    destruct (decide (out = reflect.errorType)) as [->|]; [|done].
    destruct (IsExported (reflect.Name a) || _) eqn:Ha; [|done].
    destruct (IsExported (reflect.Name b) || _) eqn:Hb; [|done].
    apply orb_true_iff in Ha, Hb.
    rewrite bool_decide_eq_true in Ha, Hb.
    exists r, a, b. done.
  - intros (r & a & b & -> & -> & Ha & Hb).
    rewrite decide_True by done.
    rewrite <- (bool_decide_eq_true (reflect.PkgPath a = "")) in Ha.
    rewrite <- (bool_decide_eq_true (reflect.PkgPath b = "")) in Hb.
    apply orb_true_iff in Ha, Hb. rewrite Ha, Hb. by eexists.
Qed.

Lemma NoDup_fmap_elem_inj {A B} (f : A → B) (l : list A) (x y : A) :
  NoDup (f <$> l) → x ∈ l → y ∈ l → f x = f y → x = y.
Proof.
  induction l as [|a l IH]; intros Hnd Hx Hy Hf.
  - by apply elem_of_nil in Hx.
  - rewrite fmap_cons in Hnd. apply NoDup_cons in Hnd as [Ha Hnd].
    apply elem_of_cons in Hx as [->|Hx], Hy as [->|Hy]; [done| | |by apply IH].
    + exfalso. apply Ha. rewrite Hf. apply list_elem_of_fmap. by exists y.
    + exfalso. apply Ha. rewrite <- Hf. apply list_elem_of_fmap. by exists x.
Qed.

Lemma registerMethods_lookup (ms : list reflect.Method) (name : string)
    (mt : service.methodType) :
  ∀ m0, NoDup (reflect.mName <$> ms) →
  foldl service.register_one m0 ms !! name = Some mt ↔
    (∃ meth, meth ∈ ms ∧ reflect.mName meth = name ∧
             descriptor meth = Some mt) ∨
    (m0 !! name = Some mt ∧
     ∀ meth, meth ∈ ms → reflect.mName meth = name → descriptor meth = None).
Proof.
  induction ms as [|x ms IH]; intros m0 Hnd; cbn [foldl].
  - split; [intros H; right; split; [done|]|intros [H|[H _]]; [|done]].
    + intros meth Hin. by apply elem_of_nil in Hin.
    + destruct H as (meth & Hin & _). by apply elem_of_nil in Hin.
  - rewrite fmap_cons in Hnd. apply NoDup_cons in Hnd as [Hx Hnd].
    rewrite (IH _ Hnd). rewrite register_one_descriptor. split.
    + intros [(meth & Hin & Hn & Hd)|[Hm0 Hnone]].
      * left. exists meth. split_and!; [by right|done..].
      * destruct (descriptor x) as [d|] eqn:Hdx.
        -- destruct (decide (reflect.mName x = name)) as [Hn|Hn].
           ++ rewrite <- Hn, lookup_insert_eq in Hm0. simplify_eq.
              left. exists x. split_and!; [by left|done..].
           ++ rewrite lookup_insert_ne in Hm0 by done.
              right. split; [done|]. intros meth Hin Hname.
              apply elem_of_cons in Hin as [->|Hin]; [done|by apply Hnone].
        -- right. split; [done|]. intros meth Hin Hname.
           apply elem_of_cons in Hin as [->|Hin]; [done|by apply Hnone].
    + intros [(meth & Hin & Hn & Hd)|[Hm0 Hnone]].
      * apply elem_of_cons in Hin as [->|Hin].
        -- right. rewrite Hd, <- Hn, lookup_insert_eq. split; [done|].
           intros meth' Hin' Hn'. exfalso. apply Hx.
           rewrite <- Hn'. apply list_elem_of_fmap. by exists meth'.
        -- left. by exists meth.
      * right. split.
        -- destruct (descriptor x) as [d|] eqn:Hdx; [|done].
           rewrite lookup_insert_ne; [done|]. intros Hn.
           rewrite (Hnone x) in Hdx; [done|by left|done].
        -- intros meth Hin. apply Hnone. by right.
Qed.


(** Two methods that C3 excludes and the code registers: [Get], whose reply
    points to a type that is neither exported nor built in, and [Sum],
    whose reply is not a pointer. *)
Lemma registerMethods_beyond_claim :
  let Int := reflect.Named "" "int" (reflect.Lit reflect.Int "int") in
  let Args := reflect.Named "main" "Args"
                (reflect.Lit reflect.Struct "struct { Num1, Num2 int }") in
  let secret := reflect.Named "main" "secret"
                  (reflect.Lit reflect.Struct "struct {}") in
  let Foo := reflect.Named "main" "Foo" (reflect.Lit reflect.Int "int") in
  let Sum := reflect.mkMethod "Sum" [Foo; Args; Int] [reflect.errorType] in
  let Get := reflect.mkMethod "Get" [Foo; Args; reflect.PtrTo secret]
               [reflect.errorType] in
  ∃ s, service.newService Foo [Get; Sum] = Some s ∧
       service.methods s !! "Sum" = Some (service.mkMethodType Sum Args Int 0) ∧
       service.methods s !! "Get" =
         Some (service.mkMethodType Get Args (reflect.PtrTo secret) 0) ∧
       ¬ eligible_spec Sum ∧ ¬ eligible_spec Get.
Proof.
  intros Int Args secret Foo Sum Get. eexists. split; [reflexivity|].
  split; [reflexivity|]. split; [reflexivity|]. split.
  - intros (r & a & b & Hin & Hk & _). injection Hin as <- <- <-.
    discriminate Hk.
  - intros (r & a & b & Hin & _ & _ & _ & [He|Hp]);
      injection Hin as <- <- <-; discriminate.
Qed.

(** C3 (amended).  For a receiver whose type name is exported, [newService]
    returns a service, whatever the methods are.  A method of the receiver
    whose reply parameter is a pointer is in the service's method map if
    and only if its name is exported (the others are not enumerated) and it
    passes the tests of [registerMethods]: exactly two parameters after the
    receiver, a single result of type [error], and argument and reply types
    that themselves have an exported name or an empty package path
    (predeclared types and type literals, hence every pointer type literal,
    whatever it points to).  Every entry of the map holds a method of the
    receiver that passes these tests, with its two parameter types. *)
Theorem newService_registers (t : reflect.Type_)
    (method_set : list reflect.Method) :
  IsExported (reflect.Name (service.indirect t)) = true →
  NoDup (reflect.mName <$> method_set) →
  ∃ s, service.newService t method_set = Some s ∧
    (∀ meth, meth ∈ method_set →
       (∀ reply, reflect.mIn meth !! 2%nat = Some reply →
                 reflect.kind reply = reflect.Pointer) →
       is_Some (service.methods s !! reflect.mName meth) ↔
         IsExported (reflect.mName meth) = true ∧ eligible meth) ∧
    (∀ name mt, service.methods s !! name = Some mt →
       ∃ meth, meth ∈ method_set ∧ reflect.mName meth = name ∧
               eligible meth ∧ descriptor meth = Some mt).
Proof.
  intros Hname Hnd. unfold service.newService. rewrite Hname. simpl.
  eexists. split; [reflexivity|]. simpl.
  assert (Hnd' : NoDup (reflect.mName <$> service.exported_methods method_set)).
  { eapply sublist_NoDup; [exact Hnd|].
    apply fmap_sublist, sublist_filter. }
  assert (Hlookup : ∀ name mt,
    service.registerMethods (service.exported_methods method_set) !! name
      = Some mt ↔
    ∃ meth, meth ∈ method_set ∧ reflect.mName meth = name ∧
            IsExported name = true ∧ descriptor meth = Some mt).
  { intros name mt. unfold service.registerMethods.
    rewrite (registerMethods_lookup _ name mt ∅ Hnd'). split.
    - intros [(meth & Hin & Hn & Hd)|[Hm0 _]]; [|by rewrite lookup_empty in Hm0].
      apply list_elem_of_filter in Hin as [Hex Hin].
      exists meth. rewrite <- Hn. done.
    - intros (meth & Hin & Hn & Hex & Hd). left. exists meth.
      split_and!; [|done..]. apply list_elem_of_filter. by rewrite Hn. }
  split.
  - intros meth Hin _. split.
    + intros [mt Hmt]. apply Hlookup in Hmt as (meth' & Hin' & Hn & Hex & Hd).
      split; [done|]. apply descriptor_eligible.
      assert (meth' = meth) as <-; [|by eexists].
      symmetry. by eapply (NoDup_fmap_elem_inj reflect.mName method_set).
    + intros [Hex Hel]. apply descriptor_eligible in Hel as [mt Hmt].
      exists mt. apply Hlookup. by exists meth.
  - intros name mt (meth & Hin & Hn & _ & Hd)%Hlookup.
    exists meth. split_and!; try done. apply descriptor_eligible. by eexists.
Qed.

Lemma newService_registers_witness :
  let A := reflect.Named "main" "A" (reflect.Lit reflect.Struct "struct {}") in
  let B := reflect.Named "main" "B" (reflect.Lit reflect.Int "int") in
  let Foo := reflect.Named "main" "Foo" (reflect.Lit reflect.Int "int") in
  let M := reflect.mkMethod "M" [Foo; A; reflect.PtrTo B]
             [reflect.errorType] in
  let M2 := reflect.mkMethod "M2" [Foo; A] [reflect.errorType] in
  let m := reflect.mkMethod "m" [Foo; A; reflect.PtrTo B]
             [reflect.errorType] in
  ∃ s, service.newService Foo [M; M2; m] = Some s ∧
       service.methods s =
         {[ "M" := service.mkMethodType M A (reflect.PtrTo B) 0 ]}.
Proof.
  intros A B Foo M M2 m.
  destruct (newService_registers Foo [M; M2; m]) as (s & Hs & _ & _).
  - reflexivity.
  - compute_done.
  - exists s. split; [exact Hs|].
    vm_compute in Hs. injection Hs as <-. reflexivity.
Defined.

(** ** findService *)

Lemma LastIndex_range (s : string) (c : ascii) :
  server.LastIndex s c = -1 ∨ 0 ≤ server.LastIndex s c.
Proof.
  induction s as [|a s IH]; simpl; [by left|].
  destruct (Z.leb_spec 0 (server.LastIndex s c)); [right; lia|].
  destruct (Ascii.eqb a c); [right; lia | by left].
Qed.

Lemma LastIndex_none (s : string) (c : ascii) :
  server.LastIndex s c < 0 ↔ has_byte c s = false.
Proof.
  induction s as [|a s IH]; simpl; [done|].
  destruct (Z.leb_spec 0 (server.LastIndex s c)) as [Hle|Hlt].
  - split; [lia|]. intros [_ H]%orb_false_elim. apply IH in H. lia.
  - apply IH in Hlt as Hs. rewrite Hs, orb_false_r.
    destruct (Ascii.eqb a c); split; (done || lia).
Qed.

Lemma LastIndex_app (pre suf : string) (c : ascii) :
  has_byte c suf = false →
  server.LastIndex (pre ++ String c suf) c = server.len pre.
Proof.
  intros Hsuf. unfold server.len. induction pre as [|a pre IH].
  - change ("" ++ String c suf) with (String c suf). simpl.
    apply LastIndex_none in Hsuf.
    destruct (Z.leb_spec 0 (server.LastIndex suf c)); [lia|].
    by rewrite Ascii.eqb_refl.
  - change (String a pre ++ String c suf)
      with (String a (pre ++ String c suf)).
    cbn [server.LastIndex String.length]. rewrite IH.
    destruct (Z.leb_spec 0 (Z.of_nat (String.length pre))); lia.
Qed.

Lemma LastIndex_split (s : string) (c : ascii) :
  0 ≤ server.LastIndex s c →
  ∃ pre suf, s = pre ++ String c suf ∧ has_byte c suf = false.
Proof.
  induction s as [|a s IH]; simpl; [lia|].
  destruct (Z.leb_spec 0 (server.LastIndex s c)) as [Hle|Hlt].
  - intros _. destruct (IH Hle) as (pre & suf & -> & Hsuf).
    by exists (String a pre), suf.
  - destruct (Ascii.eqb_spec a c) as [->|]; [|lia]. intros _.
    exists "", s. split; [done|]. by apply LastIndex_none.
Qed.

Lemma substring_app_l (pre rest : string) :
  substring 0 (String.length pre) (pre ++ rest) = pre.
Proof.
  induction pre as [|a pre IH]; [by destruct rest|].
  change (String a pre ++ rest) with (String a (pre ++ rest)).
  simpl. by rewrite IH.
Qed.

Lemma substring_app_r (pre rest : string) (m : nat) :
  substring (String.length pre) m (pre ++ rest) = substring 0 m rest.
Proof.
  induction pre as [|a pre IH]; [done|].
  change (String a pre ++ rest) with (String a (pre ++ rest)).
  simpl. by rewrite IH.
Qed.

Lemma substring_all (s : string) : substring 0 (String.length s) s = s.
Proof. induction s as [|a s IH]; [done|]. simpl. by rewrite IH. Qed.

Lemma length_app_string (s1 s2 : string) :
  String.length (s1 ++ s2) = (String.length s1 + String.length s2)%nat.
Proof.
  induction s1 as [|a s1 IH]; [done|].
  change (String a s1 ++ s2) with (String a (s1 ++ s2)). simpl. by rewrite IH.
Qed.

Lemma slice_split (pre suf : string) (c : ascii) :
  let s := pre ++ String c suf in
  server.slice s 0 (server.len pre) = pre ∧
  server.slice s (server.len pre + 1) (server.len s) = suf.
Proof.
  intros s. unfold server.slice, server.len. split.
  - rewrite Z.sub_0_r, Nat2Z.id. apply substring_app_l.
  - subst s. rewrite length_app_string. simpl.
    replace (Z.to_nat (Z.of_nat (String.length pre) + 1))
      with (S (String.length pre)) by lia.
    replace (Z.to_nat _) with (String.length suf) by lia.
    change (pre ++ String c suf) with (pre ++ (String c "" ++ suf)).
    replace (S (String.length pre))
      with (String.length (pre ++ String c "")).
    2:{ rewrite length_app_string. simpl. lia. }
    assert (Hassoc : pre ++ (String c "" ++ suf) = (pre ++ String c "") ++ suf).
    { clear. induction pre as [|a pre IH]; [done|].
      change (String a pre ++ ?x) with (String a (pre ++ x)).
      by rewrite IH. }
    rewrite Hassoc, substring_app_r. apply substring_all.
Qed.

Lemma last_dot_split_has_dot (s pre suf : string) :
  last_dot_split s pre suf → has_byte "." s = true.
Proof.
  intros [-> Hsuf]. apply not_false_iff_true. intros Hno.
  apply LastIndex_none in Hno. rewrite LastIndex_app in Hno by done.
  unfold server.len in Hno. lia.
Qed.

Lemma last_dot_split_slices (s pre suf : string) :
  last_dot_split s pre suf →
  server.LastIndex s "." = server.len pre ∧
  server.slice s 0 (server.LastIndex s ".") = pre ∧
  server.slice s (server.LastIndex s "." + 1) (server.len s) = suf.
Proof.
  intros [-> Hsuf]. rewrite LastIndex_app by done.
  split; [done|]. apply slice_split.
Qed.

Lemma last_dot_split_unique (s pre suf pre' suf' : string) :
  last_dot_split s pre suf → last_dot_split s pre' suf' →
  pre = pre' ∧ suf = suf'.
Proof.
  intros (_ & H1 & H2)%last_dot_split_slices
         (_ & H1' & H2')%last_dot_split_slices.
  split; congruence.
Qed.

(** What [findService] returns, by cases on its argument. *)
Lemma findService_cases (serviceMap : gmap string service.service)
    (s : string) :
  (has_byte "." s = false ∧
   server.findService serviceMap s =
     (None, None,
      Some ("rpc server:service/method request ill-formed:" ++ s))) ∨
  (∃ pre suf, last_dot_split s pre suf ∧
     server.findService serviceMap s =
       match serviceMap !! pre with
       | None => (None, None, Some ("rpc server:can't find service" ++ pre))
       | Some svc =>
           (Some svc, service.methods svc !! suf,
            match service.methods svc !! suf with
            | None => Some ("rpc server : can't find method" ++ suf)
            | Some _ => None
            end)
       end).
Proof.
  unfold server.findService.
  destruct (Z.ltb_spec (server.LastIndex s ".") 0) as [Hlt|Hge].
  - left. split; [by apply LastIndex_none|done].
  - right. destruct (LastIndex_split s "." Hge) as (pre & suf & Hs & Hsuf).
    exists pre, suf. split; [done|].
    destruct (last_dot_split_slices s pre suf) as (_ & -> & ->); [done|].
    destruct (serviceMap !! pre) as [svc|]; [|done].
    by destruct (service.methods svc !! suf).
Qed.


(** C8.  [findService] splits its argument at the last dot.  It fails with
    the ill-formed error exactly when the argument has no dot, with the
    can't-find-service error exactly when the part before the last dot names
    no registered service, with the can't-find-method error exactly when
    that service has no method named by the part after the last dot, and
    otherwise returns that service and that method's descriptor. *)
Theorem findService_spec (serviceMap : gmap string service.service)
    (s : string) (svc : option service.service)
    (mtype : option service.methodType) (err : error) :
  server.findService serviceMap s = (svc, mtype, err) →
  (ill_formed err ↔ has_byte "." s = false) ∧
  (no_such_service err ↔
     ∃ pre suf, last_dot_split s pre suf ∧ serviceMap !! pre = None) ∧
  (no_such_method err ↔
     ∃ pre suf v, last_dot_split s pre suf ∧ serviceMap !! pre = Some v ∧
                  service.methods v !! suf = None) ∧
  (err = None ↔
     ∃ pre suf v m, last_dot_split s pre suf ∧ serviceMap !! pre = Some v ∧
                    service.methods v !! suf = Some m ∧
                    svc = Some v ∧ mtype = Some m).
Proof.
  intros Hres.
  destruct (findService_cases serviceMap s)
    as [[Hno Hf]|(pre & suf & Hsplit & Hf)]; rewrite Hf in Hres.
  - injection Hres as <- <- <-.
    assert (Hnosplit : ∀ pre suf, ¬ last_dot_split s pre suf).
    { intros pre suf H%last_dot_split_has_dot. congruence. }
    split_and!.
    + split; [done|]. intros _. by eexists.
    + split.
      * intros [x Hx]. cbv [String.append] in Hx. discriminate Hx.
      * intros (pre & suf & H & _). by apply Hnosplit in H.
    + split.
      * intros [x Hx]. cbv [String.append] in Hx. discriminate Hx.
      * intros (pre & suf & v & H & _). by apply Hnosplit in H.
    + split; [done|].
      intros (pre & suf & v & m & H & _). by apply Hnosplit in H.
  - pose proof (last_dot_split_has_dot _ _ _ Hsplit) as Hdot.
    assert (Huniq : ∀ pre' suf', last_dot_split s pre' suf' →
                                 pre' = pre ∧ suf' = suf).
    { intros pre' suf' H. by eapply last_dot_split_unique. }
    destruct (serviceMap !! pre) as [v|] eqn:Hv;
      [destruct (service.methods v !! suf) as [m|] eqn:Hm|];
      injection Hres as <- <- <-.
    + split_and!.
      * split; [intros [x Hx]; discriminate | congruence].
      * split; [intros [x Hx]; discriminate|].
        intros (pre' & suf' & [-> ->]%Huniq & H). congruence.
      * split; [intros [x Hx]; discriminate|].
        intros (pre' & suf' & v' & [-> ->]%Huniq & H1 & H2). congruence.
      * split; [|done]. intros _. by exists pre, suf, v, m.
    + split_and!.
      * split; [|congruence]. intros [x Hx]. cbv [String.append] in Hx. discriminate Hx.
      * split.
        -- intros [x Hx]. cbv [String.append] in Hx. discriminate Hx.
        -- intros (pre' & suf' & [-> ->]%Huniq & H). congruence.
      * split; [|intros _; by eexists].
        intros _. by exists pre, suf, v.
      * split; [done|].
        intros (pre' & suf' & v' & m' & [-> ->]%Huniq & H1 & H2 & _).
        congruence.
    + split_and!.
      * split; [|congruence]. intros [x Hx]. cbv [String.append] in Hx. discriminate Hx.
      * split; [|intros _; by eexists]. intros _. by exists pre, suf.
      * split.
        -- intros [x Hx]. cbv [String.append] in Hx. discriminate Hx.
        -- intros (pre' & suf' & v' & [-> ->]%Huniq & H1 & H2). congruence.
      * split; [done|].
        intros (pre' & suf' & v' & m' & [-> ->]%Huniq & H1 & H2 & _).
        congruence.
Qed.

Lemma findService_spec_witness :
  let Int := reflect.Named "" "int" (reflect.Lit reflect.Int "int") in
  let Foo := reflect.Named "main" "Foo" (reflect.Lit reflect.Int "int") in
  let Sum := reflect.mkMethod "Sum" [Foo; Int; reflect.PtrTo Int]
               [reflect.errorType] in
  let mt := service.mkMethodType Sum Int (reflect.PtrTo Int) 0 in
  let svc := service.mkService "Foo" Foo {[ "Sum" := mt ]} in
  let serviceMap : gmap string service.service := {[ "Foo" := svc ]} in
  server.findService serviceMap "a.b.Foo.Sum" =
    (None, None, Some "rpc server:can't find servicea.b.Foo") ∧
  server.findService serviceMap "Foo.Sum" = (Some svc, Some mt, None) ∧
  ∃ pre suf v m,
    last_dot_split "Foo.Sum" pre suf ∧ serviceMap !! pre = Some v ∧
    service.methods v !! suf = Some m ∧ Some svc = Some v ∧ Some mt = Some m.
Proof.
  intros Int Foo Sum mt svc serviceMap.
  split; [reflexivity|]. split; [reflexivity|].
  apply (findService_spec serviceMap "Foo.Sum" (Some svc) (Some mt) None);
    reflexivity.
Defined.

(** ** The registry *)

Lemma is_alive_test (r : registry.MiniRegistry) (now : string → Z)
    (addr : string) (s : registry.ServerItem) :
  (registry.timeout r =? 0)
  || (now addr <? registry.start s + registry.timeout r) = true
  ↔ is_alive r now addr s.
Proof.
  unfold is_alive. rewrite orb_true_iff, Z.eqb_eq, Z.ltb_lt. lia.
Qed.

Lemma alive_loop (r : registry.MiniRegistry) (now : string → Z)
    (order : list (string * registry.ServerItem)) :
  NoDup order.*1 →
  ∀ (al : list string) (m : gmap string registry.ServerItem),
  ∃ al' m',
    foldl (registry.alive_step (registry.timeout r) now) (al, m) order
      = ((al ++ al')%list, m') ∧
    (∀ a, a ∈ al' ↔ ∃ s, (a, s) ∈ order ∧ is_alive r now a s) ∧
    NoDup al' ∧
    (∀ a, (∃ s, (a, s) ∈ order ∧ ¬ is_alive r now a s) → m' !! a = None) ∧
    (∀ a, (∀ s, (a, s) ∈ order → is_alive r now a s) → m' !! a = m !! a).
Proof.
  induction order as [|[a0 s0] order IH]; intros Hnodup al m.
  - exists [], m. rewrite app_nil_r. split_and!.
    + done.
    + intros a. split; [by intros ?%elem_of_nil|].
      intros (s & ?%elem_of_nil & _). done.
    + constructor.
    + intros a (s & ?%elem_of_nil & _). done.
    + done.
  - rewrite fmap_cons in Hnodup. apply NoDup_cons in Hnodup as [Ha0 Hnodup].
    assert (Hfresh : ∀ s, (a0, s) ∉ order).
    { intros s Hin. apply Ha0. apply list_elem_of_fmap. by exists (a0, s). }
    specialize (IH Hnodup).
    cbn [foldl registry.alive_step].
    destruct ((registry.timeout r =? 0)
              || (now a0 <? registry.start s0 + registry.timeout r))
      eqn:Hk.
    + apply is_alive_test in Hk.
      destruct (IH (al ++ [a0])%list m) as (al' & m' & Hrun & Hal & Hnd & Hd & Hk').
      exists (a0 :: al'), m'. split_and!.
      * rewrite Hrun. by rewrite <- app_assoc.
      * intros a. rewrite elem_of_cons, Hal. split.
        -- intros [->|(s & Hin & Hs)]; [exists s0; split; [by left|done]|].
           exists s. split; [by right|done].
        -- intros (s & [Heq|Hin]%elem_of_cons & Hs).
           ++ left. congruence.
           ++ right. by exists s.
      * apply NoDup_cons. split; [|done].
        intros (s & Hin & _)%Hal. by apply (Hfresh s).
      * intros a (s & [Heq|Hin]%elem_of_cons & Hs).
        -- exfalso. simplify_eq. done.
        -- apply Hd. by exists s.
      * intros a Ha. apply Hk'. intros s Hin. apply Ha. by right.
    + assert (Hk0 : ¬ is_alive r now a0 s0).
      { intros H%is_alive_test. congruence. }
      destruct (IH al (delete a0 m)) as (al' & m' & Hrun & Hal & Hnd & Hd & Hk').
      exists al', m'. split_and!.
      * done.
      * intros a. rewrite Hal. split.
        -- intros (s & Hin & Hs). exists s. split; [by right|done].
        -- intros (s & [Heq|Hin]%elem_of_cons & Hs).
           ++ simplify_eq. done.
           ++ by exists s.
      * done.
      * intros a (s & [Heq|Hin]%elem_of_cons & Hs).
        -- simplify_eq. rewrite Hk'; [by rewrite lookup_delete_eq|].
           intros s Hin. by apply Hfresh in Hin.
        -- apply Hd. by exists s.
      * intros a Ha.
        assert (a ≠ a0) as Hne.
        { intros ->. apply Hk0, Ha. by left. }
        rewrite Hk'; [by rewrite lookup_delete_ne|].
        intros s Hin. apply Ha. by right.
Qed.

Lemma Join_concat (elems : list string) (sep : string) :
  registry.Join elems sep = String.concat sep elems.
Proof.
  induction elems as [|x elems IH]; [done|].
  destruct elems as [|y elems]; [done|].
  change (registry.Join (x :: y :: elems) sep)
    with (x ++ sep ++ registry.Join (y :: elems) sep).
  by rewrite IH.
Qed.

(** C7.  On a GET request the registry sets the response header
    [X-Minirpc-Servers] to the comma-joined, ascending list of exactly the
    addresses whose entry has [ttl == 0] or [last_heartbeat + ttl > now]
    when the query visits it; every entry that fails the test is deleted
    from the registry's map in that same query, the others stay, and the
    handler writes nothing to the body. *)
Theorem registry_GET (r : registry.MiniRegistry) (w : registry.Response)
    (req : registry.Request) (now : string → Z)
    (order : list (string * registry.ServerItem)) :
  registry.Method req = "GET" →
  order ≡ₚ map_to_list (registry.servers r) →
  ∃ alive r',
    registry.ServeHTTP r w req now order =
      (registry.mkResponse
         (<["X-Minirpc-Servers" := String.concat "," alive]>
            (registry.w_header w))
         (registry.w_status w) (registry.w_body w), r') ∧
    (∀ a, a ∈ alive ↔
          ∃ s, registry.servers r !! a = Some s ∧ is_alive r now a s) ∧
    StronglySorted String.le alive ∧ NoDup alive ∧
    registry.timeout r' = registry.timeout r ∧
    (∀ a s, registry.servers r' !! a = Some s ↔
            registry.servers r !! a = Some s ∧ is_alive r now a s).
Proof.
  intros Hget Hperm.
  assert (Hin : ∀ a s, (a, s) ∈ order ↔ registry.servers r !! a = Some s).
  { intros a s. rewrite Hperm. apply elem_of_map_to_list. }
  assert (Hnd : NoDup order.*1).
  { rewrite Hperm. apply NoDup_fst_map_to_list. }
  destruct (alive_loop r now order Hnd [] (registry.servers r))
    as (al & m' & Hrun & Hal & Hndal & Hdel & Hkeep).
  exists (registry.sort_Strings al), (registry.mkRegistry (registry.timeout r) m').
  unfold registry.ServeHTTP, registry.aliveServers.
  rewrite Hget, Hrun. simpl. rewrite Join_concat. split_and!.
  - done.
  - intros a. unfold registry.sort_Strings.
    rewrite merge_sort_Permutation, Hal.
    split; intros (s & H1 & H2); exists s; split; (done || by apply Hin).
  - apply StronglySorted_merge_sort; apply _.
  - unfold registry.sort_Strings. by rewrite merge_sort_Permutation.
  - done.
  - intros a s.
    destruct (registry.servers r !! a) as [s0|] eqn:Hs0.
    + destruct ((registry.timeout r =? 0)
                || (now a <? registry.start s0 + registry.timeout r))
        eqn:Hk.
      * apply is_alive_test in Hk. rewrite Hkeep, Hs0.
        -- split; [by intros [= <-]|by intros [? _]].
        -- intros s1 Hs1%Hin. congruence.
      * assert (¬ is_alive r now a s0) as Hk0.
        { intros H%is_alive_test. congruence. }
        rewrite Hdel; [|exists s0; split; [by apply Hin|done]].
        split; [done|]. intros [[= <-] H]. done.
    + rewrite Hkeep, Hs0; [split; [done|by intros [? _]]|].
      intros s1 Hs1%Hin. congruence.
Qed.

Lemma registry_GET_witness :
  let r := registry.mkRegistry (2 * 1000000000)
             {[ "b:2" := registry.mkServerItem "b:2" 2000000000;
                "c:3" := registry.mkServerItem "c:3" 0;
                "a:1" := registry.mkServerItem "a:1" 1500000000 ]} in
  let w := registry.mkResponse ∅ None "" in
  let now := λ _ : string, 3000000000 in
  ∃ alive r',
    registry.ServeHTTP r w (registry.mkRequest "GET" ∅) now
      (map_to_list (registry.servers r)) =
      (registry.mkResponse
         {[ "X-Minirpc-Servers" := String.concat "," alive ]} None "", r') ∧
    String.concat "," alive = "a:1,b:2" ∧
    (∀ a, a ∈ alive ↔
          ∃ s, registry.servers r !! a = Some s ∧ is_alive r now a s) ∧
    StronglySorted String.le alive ∧ NoDup alive ∧
    registry.timeout r' = registry.timeout r ∧
    (∀ a s, registry.servers r' !! a = Some s ↔
            registry.servers r !! a = Some s ∧ is_alive r now a s).
Proof.
  intros r w now.
  destruct (registry_GET r w (registry.mkRequest "GET" ∅) now
              (map_to_list (registry.servers r)))
    as (alive & r' & Hrun & H); [reflexivity..|].
  exists alive, r'. split; [exact Hrun|]. split; [|exact H].
  assert (Hl : registry.w_header
                 (registry.ServeHTTP r w (registry.mkRequest "GET" ∅) now
                    (map_to_list (registry.servers r))).1
               !! "X-Minirpc-Servers" = Some "a:1,b:2")
    by (vm_compute; reflexivity).
  rewrite Hrun in Hl. simpl in Hl. rewrite lookup_insert_eq in Hl.
  by injection Hl.
Defined.

(** The run of the witness: the entry of ["c:3"] has expired and is deleted,
    the two others are listed in ascending order. *)
Example registry_GET_run :
  let r := registry.mkRegistry (2 * 1000000000)
             {[ "b:2" := registry.mkServerItem "b:2" 2000000000;
                "c:3" := registry.mkServerItem "c:3" 0;
                "a:1" := registry.mkServerItem "a:1" 1500000000 ]} in
  registry.ServeHTTP r (registry.mkResponse ∅ None "")
    (registry.mkRequest "GET" ∅) (λ _, 3000000000)
    (map_to_list (registry.servers r)) =
    (registry.mkResponse {[ "X-Minirpc-Servers" := "a:1,b:2" ]} None "",
     registry.mkRegistry (2 * 1000000000)
       {[ "b:2" := registry.mkServerItem "b:2" 2000000000;
          "a:1" := registry.mkServerItem "a:1" 1500000000 ]}).
Proof. vm_compute. reflexivity. Qed.

(** ** handleRequest *)






(** The three ways in which the handler returns, run. *)
Example handleRequest_runs :
  let text := λ _ : Z, "100ms" in
  let h := codec.mkHeader "Foo.Sum" 7 "" in
  server.run text (server.mkRequest 0 None "3")
    [server.AGo; server.ACall; server.ATest; server.ACalled;
     server.ARespond; server.ASent] (server.enter h) =
    Some (server.mkHandling server.HReturn server.WReturn h
            [(h, server.replyv "3")]) ∧
  server.run text (server.mkRequest 100000000 (Some "boom") "")
    [server.AGo; server.ATest; server.ACall; server.ACalled;
     server.ARespond; server.ASent] (server.enter h) =
    Some (server.mkHandling server.HReturn server.WReturn
            (codec.mkHeader "Foo.Sum" 7 "boom")
            [(codec.mkHeader "Foo.Sum" 7 "boom", server.invalidRequest)]) ∧
  server.run text (server.mkRequest 0 None "3")
    [server.AGo; server.ATest; server.ATimer] (server.enter h) = None.
Proof. split_and!; reflexivity. Qed.

(* ===================================================================== *)
(** * Further properties of the code *)
(* ===================================================================== *)

(** ** The client: Close, send, removeCall *)

Lemma buf_err_no_fault (cc : client.Codec) :
  client.conn_fault (client.conn_of cc) = None → client.buf_err cc = None.
Proof. by destruct cc. Qed.

(** X1.  The first [Close] marks the client as closing, closes the
    connection and returns what closing the connection returns: nil when
    the connection was open, an error when it had been closed before (as
    the codec does after a write that failed).  The counter, the pending
    calls and what was written stay as they are; from then on the client
    is not available and every further [Close] returns [ErrShutdown] and
    changes nothing. *)
Theorem Close_once (w : client.World) :
  client.closing (client.w_client w) = false →
  ∃ err w1,
    client.Close w = Ret err w1 ∧
    (err = None ↔
       client.conn_closed (client.conn_of (client.w_cc w)) = false) ∧
    client.closing (client.w_client w1) = true ∧
    client.conn_closed (client.conn_of (client.w_cc w1)) = true ∧
    client.sent (client.conn_of (client.w_cc w1)) =
      client.sent (client.conn_of (client.w_cc w)) ∧
    client.seq (client.w_client w1) = client.seq (client.w_client w) ∧
    client.w_pending w1 = client.w_pending w ∧
    client.w_calls w1 = client.w_calls w ∧
    client.IsAvailable w1 = Ret false w1 ∧
    client.Close w1 = Ret client.ErrShutdown w1.
Proof.
  intros Hc. eexists _, _. split; [run; rewrite Hc; reflexivity|].
  split_and!; try reflexivity.
  - by destruct (client.conn_closed (client.conn_of (client.w_cc w))).
  - simpl. by destruct (client.w_cc w).
  - simpl. by destruct (client.w_cc w).
  - run. by rewrite andb_false_r.
Qed.

Lemma Close_once_witness :
  let w := client.newClientCodec
             (client.GobCodec (client.mkConn [] false None)) 1%positive in
  let v := client.newClientCodec
             (client.GobCodecErr (client.mkConn [] true (Some "broken pipe")))
             1%positive in
  (∃ w1, client.Close w = Ret None w1 ∧
         client.conn_closed (client.conn_of (client.w_cc w1)) = true ∧
         client.IsAvailable w1 = Ret false w1 ∧
         client.Close w1 = Ret client.ErrShutdown w1) ∧
  (∃ e v1, client.Close v = Ret (Some e) v1 ∧
           client.closing (client.w_client v1) = true ∧
           client.Close v1 = Ret client.ErrShutdown v1).
Proof.
  intros w v. split.
  - destruct (Close_once w) as (err & w1 & Hrun & Herr & _ & Hcl & _ & _ & _
                                & _ & Hav & Hagain); [reflexivity|].
    exists w1. assert (err = None) as -> by (by apply Herr).
    by split_and!.
  - destruct (Close_once v) as (err & v1 & Hrun & Herr & Hcl & _ & _ & _ & _
                                & _ & _ & Hagain); [reflexivity|].
    destruct err as [e|].
    2:{ destruct Herr as [H _]. specialize (H eq_refl). discriminate H. }
    exists e, v1. by split_and!.
Defined.

(** X2.  On a client that is closing or shut down, [send] registers
    nothing and writes nothing: the call gets the error [ErrShutdown] and
    is sent once on its [Done] channel, and the counter, the pending map
    and the connection stay as they are. *)
Theorem send_refused (w : client.World) (call : loc) (c : client.Call)
    (ch : loc) (q : client.Chan) :
  client.closing (client.w_client w) || client.shutdown (client.w_client w)
    = true →
  client.w_calls w !! call = Some c →
  client.Done c = Some ch →
  client.w_chans w !! ch = Some q →
  (length (client.ch_buf q) < client.ch_cap q)%nat →
  client.send call w =
    Ret tt (client.mkWorld (client.w_client w) (client.w_pending w)
              (<[call := client.set_Error client.ErrShutdown c]>
                 (client.w_calls w))
              (<[ch := client.push call q]> (client.w_chans w))
              (client.w_cc w)).
Proof.
  intros Hcs Hc Hd Hq Hroom. apply Nat.ltb_lt in Hroom.
  run. rewrite Hcs. run. rewrite Hc. run. rewrite Hd, Hq, Hroom.
  reflexivity.
Qed.

Lemma send_refused_witness :
  let cc := client.GobCodec (client.mkConn [] false None) in
  let c := client.mkCall 0 "Foo.Sum" "" "" None (Some 1%positive) in
  let w := client.mkWorld
             (client.mkClient 1%positive (codec.mkHeader "" 0 "") 1 true false)
             ∅ {[ 1%positive := c ]}
             {[ 1%positive := client.mkChan 10 [] ]} cc in
  client.send 1%positive w =
    Ret tt (client.mkWorld (client.w_client w) ∅
              (<[1%positive := client.set_Error client.ErrShutdown c]>
                 (client.w_calls w))
              (<[1%positive := client.push 1%positive (client.mkChan 10 [])]>
                 (client.w_chans w)) cc).
Proof.
  intros cc c w.
  apply (send_refused w 1%positive c 1%positive (client.mkChan 10 []));
    try reflexivity.
  simpl. lia.
Defined.

(** X3.  On an open client with a working connection, [send] gives the call
    the current sequence number, keeps it pending under that number and
    writes one frame, whose header has the call's service method, that
    number and an empty error and whose body is the call's arguments; the
    call is not completed: its error is untouched and nothing is sent on
    any channel. *)
Theorem send_writes_frame (w : client.World) (call : loc) (c : client.Call) :
  client.closing (client.w_client w) = false →
  client.shutdown (client.w_client w) = false →
  client.conn_fault (client.conn_of (client.w_cc w)) = None →
  client.w_calls w !! call = Some c →
  ∃ w',
    client.send call w = Ret tt w' ∧
    client.w_pending w' =
      <[client.seq (client.w_client w) := call]> (client.w_pending w) ∧
    client.w_calls w' =
      <[call := client.set_Seq (client.seq (client.w_client w)) c]>
        (client.w_calls w) ∧
    client.w_chans w' = client.w_chans w ∧
    client.sent (client.conn_of (client.w_cc w')) =
      (client.sent (client.conn_of (client.w_cc w)) ++
       [client.GobFrame
          (codec.mkHeader (client.ServiceMethod c)
             (client.seq (client.w_client w)) "")
          (client.Args c)])%list ∧
    client.seq (client.w_client w') =
      client.u64 (client.seq (client.w_client w) + 1).
Proof.
  intros Hc Hs Hf Hcall. pose proof (buf_err_no_fault _ Hf) as Hb.
  eexists. split.
  - run. rewrite Hc, Hs. run. rewrite Hcall. run. rewrite Hb. run.
    rewrite Hf. reflexivity.
  - split_and!; reflexivity.
Qed.

Lemma send_writes_frame_witness :
  let cc := client.GobCodec (client.mkConn [] false None) in
  let c := client.mkCall 0 "Foo.Sum" "1,2" "" None (Some 1%positive) in
  let w := client.set_calls (λ _, {[ 1%positive := c ]})
             (client.newClientCodec cc 1%positive) in
  ∃ w',
    client.send 1%positive w = Ret tt w' ∧
    client.sent (client.conn_of (client.w_cc w')) =
      [client.GobFrame (codec.mkHeader "Foo.Sum" 1 "") "1,2"].
Proof.
  intros cc c w.
  destruct (send_writes_frame w 1%positive c) as (w' & Hs & _ & _ & _ & H & _);
    try reflexivity.
  exists w'. split; [exact Hs|exact H].
Defined.

(** X4.  A connection that fails under [send].  The codec writes through
    a buffered writer and drops the error of the flush, so the [send] that
    meets the failure does not see it: the call stays pending under its
    number, with no error and not completed, nothing is written, the
    connection stays open, and the writer keeps the error.  A [send] on a
    codec whose writer holds an error is the one that fails: it takes the
    call back out of the pending map, gives it that error and sends it once
    on its [Done] channel; the codec has closed the connection, nothing
    was written, and the sequence number is used up all the same. *)
Theorem send_write_failure (w : client.World) (call : loc) (c : client.Call)
    (ch : loc) (q : client.Chan) (e : string) :
  client.closing (client.w_client w) = false →
  client.shutdown (client.w_client w) = false →
  client.w_calls w !! call = Some c →
  client.Done c = Some ch →
  client.w_chans w !! ch = Some q →
  (length (client.ch_buf q) < client.ch_cap q)%nat →
  (client.buf_err (client.w_cc w) = None →
   client.conn_fault (client.conn_of (client.w_cc w)) = Some e →
   ∃ w',
     client.send call w = Ret tt w' ∧
     client.w_pending w' =
       <[client.seq (client.w_client w) := call]> (client.w_pending w) ∧
     client.w_calls w' =
       <[call := client.set_Seq (client.seq (client.w_client w)) c]>
         (client.w_calls w) ∧
     client.w_chans w' = client.w_chans w ∧
     client.conn_of (client.w_cc w') = client.conn_of (client.w_cc w) ∧
     client.buf_err (client.w_cc w') = Some e ∧
     client.seq (client.w_client w') =
       client.u64 (client.seq (client.w_client w) + 1)) ∧
  (client.buf_err (client.w_cc w) = Some e →
   ∃ w',
     client.send call w = Ret tt w' ∧
     client.w_pending w' =
       delete (client.seq (client.w_client w)) (client.w_pending w) ∧
     client.w_calls w' !! call =
       Some (client.set_Error (Some e)
               (client.set_Seq (client.seq (client.w_client w)) c)) ∧
     client.w_chans w' = <[ch := client.push call q]> (client.w_chans w) ∧
     client.conn_closed (client.conn_of (client.w_cc w')) = true ∧
     client.sent (client.conn_of (client.w_cc w')) =
       client.sent (client.conn_of (client.w_cc w)) ∧
     client.buf_err (client.w_cc w') = Some e ∧
     client.seq (client.w_client w') =
       client.u64 (client.seq (client.w_client w) + 1)).
Proof.
  intros Hc Hs Hcall Hd Hq Hroom. apply Nat.ltb_lt in Hroom. split.
  - intros Hb Hf. eexists. split.
    + run. rewrite Hc, Hs. run. rewrite Hcall. run. rewrite Hb. run.
      rewrite Hf. reflexivity.
    + simpl. split_and!; try reflexivity. exact Hf.
  - intros Hb. eexists. split.
    + run. rewrite Hc, Hs. run. rewrite Hcall. run. rewrite Hb. run.
      rewrite Hd, Hq, Hroom. reflexivity.
    + simpl. rewrite lookup_insert_eq, delete_insert_eq.
      split_and!; try reflexivity; by destruct (client.w_cc w).
Qed.

Lemma send_write_failure_witness :
  let cc := client.GobCodec (client.mkConn [] false (Some "broken pipe")) in
  let c1 := client.mkCall 0 "Foo.Sum" "1,2" "" None (Some 1%positive) in
  let c2 := client.mkCall 0 "Foo.Sum" "3,4" "" None (Some 2%positive) in
  let w := client.set_chans
             (λ _, {[ 1%positive := client.mkChan 10 [];
                      2%positive := client.mkChan 10 [] ]})
             (client.set_calls
                (λ _, {[ 1%positive := c1; 2%positive := c2 ]})
                (client.newClientCodec cc 1%positive)) in
  ∃ w1 w2,
    client.send 1%positive w = Ret tt w1 ∧
    client.w_pending w1 = {[ 1 := 1%positive ]} ∧
    client.w_calls w1 !! 1%positive =
      Some (client.mkCall 1 "Foo.Sum" "1,2" "" None (Some 1%positive)) ∧
    client.conn_of (client.w_cc w1)
      = client.mkConn [] false (Some "broken pipe") ∧
    client.send 2%positive w1 = Ret tt w2 ∧
    client.w_pending w2 = {[ 1 := 1%positive ]} ∧
    client.w_calls w2 !! 2%positive =
      Some (client.mkCall 2 "Foo.Sum" "3,4" "" (Some "broken pipe")
              (Some 2%positive)) ∧
    client.conn_of (client.w_cc w2)
      = client.mkConn [] true (Some "broken pipe").
Proof.
  intros cc c1 c2 w.
  destruct (send_write_failure w 1%positive c1 1%positive
              (client.mkChan 10 []) "broken pipe")
    as [H1 _]; try reflexivity.
  { simpl. lia. }
  destruct H1 as (w1 & Hs1 & _); [reflexivity..|].
  vm_compute in Hs1. injection Hs1 as <-.
  destruct (send_write_failure
              (client.mkWorld
                 (client.mkClient 1%positive
                    (codec.mkHeader "Foo.Sum" 1 "") 2 false false)
                 {[ 1 := 1%positive ]}
                 {[ 1%positive :=
                      client.mkCall 1 "Foo.Sum" "1,2" "" None
                        (Some 1%positive);
                    2%positive := c2 ]}
                 {[ 1%positive := client.mkChan 10 [];
                    2%positive := client.mkChan 10 [] ]}
                 (client.GobCodecErr
                    (client.mkConn [] false (Some "broken pipe"))))
              2%positive c2 2%positive (client.mkChan 10 []) "broken pipe")
    as [_ H2]; try reflexivity.
  { simpl. lia. }
  destruct H2 as (w2 & Hs2 & _); [reflexivity|].
  eexists _, _. split; [vm_compute; reflexivity|].
  split; [vm_compute; reflexivity|].
  split; [vm_compute; reflexivity|].
  split; [vm_compute; reflexivity|].
  vm_compute in Hs2. injection Hs2 as <-.
  split; [vm_compute; reflexivity|].
  split_and!; vm_compute; reflexivity.
Defined.

(** X5.  [registerCall] and [removeCall] undo each other on the pending map:
    removing the number that [registerCall] returned gives back the call
    and, when that number was free before, the map as it was; removing it
    once more gives nil and changes nothing. *)
Theorem registerCall_removeCall (w : client.World) (call : loc)
    (c : client.Call) :
  client.closing (client.w_client w) = false →
  client.shutdown (client.w_client w) = false →
  client.w_calls w !! call = Some c →
  client.w_pending w !! client.seq (client.w_client w) = None →
  ∃ s w1 w2,
    client.registerCall call w = Ret (s, None) w1 ∧
    client.w_pending w1 !! s = Some call ∧
    client.removeCall s w1 = Ret (Some call) w2 ∧
    client.w_pending w2 = client.w_pending w ∧
    client.removeCall s w2 = Ret None w2.
Proof.
  intros Hc Hs Hcall Hfree.
  eexists _, _, _. split; [by apply registerCall_ok|].
  split; [simpl; by rewrite lookup_insert_eq|].
  split; [run; reflexivity|].
  split; [simpl; by rewrite delete_insert_id|].
  run. rewrite delete_insert_eq, lookup_delete_eq.
  unfold client.set_pending. simpl. by rewrite delete_delete_eq.
Qed.

Lemma registerCall_removeCall_witness :
  let cc := client.GobCodec (client.mkConn [] false None) in
  let c := client.mkCall 0 "Foo.Sum" "" "" None None in
  let w := client.set_calls (λ _, {[ 1%positive := c ]})
             (client.newClientCodec cc 1%positive) in
  ∃ s w1 w2,
    client.registerCall 1%positive w = Ret (s, None) w1 ∧
    client.w_pending w1 !! s = Some 1%positive ∧
    client.removeCall s w1 = Ret (Some 1%positive) w2 ∧
    client.w_pending w2 = client.w_pending w ∧
    client.removeCall s w2 = Ret None w2.
Proof.
  intros cc c w. apply (registerCall_removeCall w 1%positive c); reflexivity.
Defined.

(** ** The client: receive *)







(** X7.  One turn of [receive] on a header whose sequence number is
    pending takes the call out of the pending map and sends it once on its
    [Done] channel.  If the header carries an error text, the call gets that
    error and its reply is left untouched; otherwise the reply is what the
    body read stored and the error is the body's read error, if any.  A
    header whose number is not pending touches no call and no channel. *)
Theorem receive_turn_answers (Errorf : string → string) (h : codec.Header)
    (err : error) (v : client.any) (w : client.World) (p : loc)
    (c : client.Call) (ch : loc) (q : client.Chan) :
  client.w_calls w !! p = Some c → client.Done c = Some ch →
  client.w_chans w !! ch = Some q →
  (length (client.ch_buf q) < client.ch_cap q)%nat →
  (client.w_pending w !! codec.Seq h = Some p →
     client.receive_turn Errorf (client.mkTurn (inl h) err v) w =
       Ret err
         (client.mkWorld (client.w_client w)
            (delete (codec.Seq h) (client.w_pending w))
            (<[p := if decide (codec.Error h = "") then
                      client.mkCall (client.Seq c) (client.ServiceMethod c)
                        (client.Args c) v
                        (match err with
                         | Some e => Some ("reading body" ++ e)
                         | None => client.Error c
                         end) (client.Done c)
                    else
                      client.mkCall (client.Seq c) (client.ServiceMethod c)
                        (client.Args c) (client.Reply c)
                        (Some (Errorf (codec.Error h))) (client.Done c)]>
               (client.w_calls w))
            (<[ch := client.push p q]> (client.w_chans w))
            (client.w_cc w))) ∧
  (client.w_pending w !! codec.Seq h = None →
     client.receive_turn Errorf (client.mkTurn (inl h) err v) w = Ret err w).
Proof.
  intros Hc Hd Hq Hr. apply Nat.ltb_lt in Hr.
  destruct c as [cs csm ca cr ce cd]. simpl in Hd. subst cd.
  split; intros Hp.
  - unfold client.receive_turn. run. rewrite Hp. simpl.
    destruct (String.eqb_spec (codec.Error h) "") as [He|He]; simpl.
    + rewrite decide_True by done.
      destruct err as [e|]; run; rewrite Hc; run; rewrite Hq; simpl;
        rewrite Hr; unfold client.set_chans, client.set_calls,
          client.set_pending; simpl; rewrite ?insert_insert_eq; reflexivity.
    + rewrite decide_False by done. run. rewrite Hc. run. rewrite Hq.
      simpl. rewrite Hr. reflexivity.
  - unfold client.receive_turn. run. rewrite Hp. simpl.
    unfold client.set_pending. rewrite delete_id by done. by destruct w.
Qed.

Lemma receive_turn_answers_witness :
  let cc := client.GobCodec (client.mkConn [] false None) in
  let c := client.mkCall 1 "Foo.Sum" "1,2" "old" None (Some 1%positive) in
  let w := client.mkWorld
             (client.mkClient 1%positive (codec.mkHeader "" 0 "") 2 false false)
             {[ 1 := 1%positive ]} {[ 1%positive := c ]}
             {[ 1%positive := client.mkChan 10 [] ]} cc in
  client.receive_turn (λ s, s)
    (client.mkTurn (inl (codec.mkHeader "Foo.Sum" 1 "boom")) None "") w =
    Ret None
      (client.mkWorld (client.w_client w) (delete 1 (client.w_pending w))
         (<[1%positive :=
              client.mkCall 1 "Foo.Sum" "1,2" "old" (Some "boom")
                (Some 1%positive)]> (client.w_calls w))
         (<[1%positive := client.mkChan 10 [1%positive]]> (client.w_chans w))
         cc).
Proof.
  intros cc c w.
  refine (proj1 (receive_turn_answers (λ s, s)
                   (codec.mkHeader "Foo.Sum" 1 "boom") None "" w 1%positive c
                   1%positive (client.mkChan 10 []) _ _ _ _) _);
    try reflexivity.
  simpl. lia.
Defined.

(** ** The client: XDial *)

Lemma Split_length (s : string) (sep : ascii) :
  length (client.Split s sep) = S (count_byte sep s).
Proof.
  induction s as [|a s IH]; [done|]. simpl.
  destruct (Ascii.eqb a sep); simpl; [by rewrite IH|].
  destruct (client.Split s sep); simpl in *; lia.
Qed.

Lemma Split_none (s : string) (sep : ascii) :
  has_byte sep s = false → client.Split s sep = [s].
Proof.
  induction s as [|a s IH]; [done|]. simpl.
  destruct (Ascii.eqb a sep); simpl; [done|].
  intros H. by rewrite IH.
Qed.

Lemma Split_one (pre suf : string) (sep : ascii) :
  has_byte sep pre = false → has_byte sep suf = false →
  client.Split (pre ++ String sep suf) sep = [pre; suf].
Proof.
  intros Hpre Hsuf. induction pre as [|a pre IH].
  - change ("" ++ String sep suf) with (String sep suf). simpl.
    rewrite Ascii.eqb_refl. by rewrite Split_none.
  - change (String a pre ++ String sep suf)
      with (String a (pre ++ String sep suf)).
    simpl in *. apply orb_false_elim in Hpre as [Ha Hpre].
    rewrite Ha. by rewrite IH.
Qed.

(** X8.  [XDial] takes its address apart at ["@"].  An address with
    exactly one ["@"], [protocol@addr], is dialled over the HTTP CONNECT
    path on network [tcp] when the protocol is [http], and directly on the
    network named by the protocol otherwise.  Any address that has no
    ["@"] or more than one is refused with the wrong-format error, before
    any connection is made or option touched. *)
Theorem XDial_routes (net : string → string → client.Conn + string)
    (ReadResponse : client.Conn → string + string)
    (text : Z → string) (timer_first : bool) (σ : opt.store)
    (opts : list (option loc)) (protocol addr : string) :
  has_byte "@" protocol = false →
  has_byte "@" addr = false →
  client.XDial net ReadResponse text timer_first σ
      (protocol ++ String "@" addr) opts =
    (if String.eqb protocol "http"
     then client.DialHTTP ReadResponse text timer_first σ
            (net "tcp" addr) opts
     else client.Dial text timer_first σ (net protocol addr) opts) ∧
  (∀ rpcAddr, count_byte "@" rpcAddr ≠ 1%nat →
     client.XDial net ReadResponse text timer_first σ rpcAddr opts =
       Some (None,
             Some ("rpc client err: wrong format '" ++ rpcAddr
                     ++ "', expect protocol@addr"),
             σ, None)).
Proof.
  intros Hp Ha. split.
  - unfold client.XDial. rewrite Split_one by done. simpl. reflexivity.
  - intros rpcAddr Hn. unfold client.XDial.
    rewrite bool_decide_eq_true_2; [done|]. rewrite Split_length. lia.
Qed.

Lemma XDial_routes_witness :
  let net := λ (network address : string),
    if String.eqb network "tcp"
    then inl (client.mkConn [] false None) else inr "unknown network" in
  client.XDial net (λ _, inl http.connected) (λ _, "10s") false
      opt.init_store "http@10.0.0.1:80" [] =
    client.DialHTTP (λ _, inl http.connected) (λ _, "10s") false
      opt.init_store (net "tcp" "10.0.0.1:80") [].
Proof.
  intros net.
  refine (proj1 (XDial_routes net (λ _, inl http.connected) (λ _, "10s") false
                   opt.init_store [] "http" "10.0.0.1:80" _ _));
    reflexivity.
Defined.

(** Runs of [XDial]: an address without ["@"], one with two, and a dial
    over HTTP that writes the CONNECT line and then the option preamble. *)
Example XDial_runs :
  let net := λ (network address : string),
    if String.eqb network "tcp"
    then inl (client.mkConn [] false None) else inr "unknown network" in
  let run := client.XDial net (λ _, inl http.connected) (λ _, "10s") false
               opt.init_store in
  run "10.0.0.1:80" [] =
    Some (None,
          Some "rpc client err: wrong format '10.0.0.1:80', expect protocol@addr",
          opt.init_store, None) ∧
  run "tcp@a@b" [] =
    Some (None,
          Some "rpc client err: wrong format 'tcp@a@b', expect protocol@addr",
          opt.init_store, None) ∧
  ∃ w conn,
    run "http@10.0.0.1:80" [] = Some (Some w, None, opt.init_store, Some conn) ∧
    client.sent conn =
      [client.RawBytes ("CONNECT /_minirpc_ HTTP/1.0" ++ http.LF ++ http.LF);
       client.JsonOption opt.DefaultOption_init].
Proof.
  intros net run. split; [reflexivity|]. split; [reflexivity|].
  eexists _, _. split; vm_compute; reflexivity.
Qed.

(** ** The server: values for the call, Register, readRequest, serveCodec *)

(** X9.  For a method whose reply parameter is a pointer type [*E],
    [newReplyv] returns a non-nil pointer of exactly that type, to a new
    value of type [E]: an empty map when [E] is a map, an empty slice when
    [E] is a slice, the zero value otherwise.  [newArgv] returns a value of
    the argument type as well: a pointer to a zero value when that type is
    a pointer type [*A], the zero value when it is not a pointer. *)
Theorem new_values_typed (m : service.methodType) (e : reflect.Type_) :
  service.ReplyType m = reflect.PtrTo e →
  (∃ v, service.newReplyv m = Some (reflect.Ptr e v) ∧
        reflect.TypeOf (reflect.Ptr e v) = service.ReplyType m ∧
        reflect.TypeOf v = e ∧
        v = match reflect.kind e with
            | reflect.Map => reflect.MakeMap e
            | reflect.Slice => reflect.MakeSlice e 0 0
            | _ => reflect.Zero e
            end) ∧
  (∀ a, service.ArgType m = reflect.PtrTo a →
        service.newArgv m = Some (reflect.Ptr a (reflect.Zero a)) ∧
        reflect.TypeOf (reflect.Ptr a (reflect.Zero a)) = service.ArgType m) ∧
  (reflect.kind (service.ArgType m) ≠ reflect.Pointer →
     service.newArgv m = Some (reflect.Zero (service.ArgType m))).
Proof.
  intros Hr. split_and!.
  - unfold service.newReplyv. rewrite Hr. simpl.
    destruct (reflect.kind e); eexists; split_and!; reflexivity.
  - intros a Ha. unfold service.newArgv. rewrite Ha. simpl. done.
  - intros Hk. unfold service.newArgv. by rewrite decide_False.
Qed.

Lemma new_values_typed_witness :
  let Int := reflect.Named "" "int" (reflect.Lit reflect.Int "int") in
  let Str := reflect.Named "" "string" (reflect.Lit reflect.String "string") in
  let M := reflect.MapOf Str Int in
  let meth := reflect.mkMethod "Count" [Int; Int; reflect.PtrTo M]
                [reflect.errorType] in
  let m := service.mkMethodType meth Int (reflect.PtrTo M) 0 in
  service.newReplyv m = Some (reflect.Ptr M (reflect.MakeMap M)) ∧
  service.newArgv m = Some (reflect.Zero Int).
Proof.
  intros Int Str M meth m.
  destruct (new_values_typed m M eq_refl) as ((v & Hv & _ & _ & ->) & _ & Ha).
  split; [exact Hv|]. apply Ha. discriminate.
Defined.

Lemma newService_lookup (t : reflect.Type_)
    (method_set : list reflect.Method) (s : service.service)
    (name : string) (mt : service.methodType) :
  NoDup (reflect.mName <$> method_set) →
  service.newService t method_set = Some s →
  service.name s = reflect.Name (service.indirect t) ∧
  (service.methods s !! name = Some mt ↔
     ∃ meth, meth ∈ method_set ∧ reflect.mName meth = name ∧
             IsExported name = true ∧ descriptor meth = Some mt).
Proof.
  intros Hnd. unfold service.newService.
  destruct (negb _); [done|]. intros [= <-]. simpl. split; [done|].
  assert (Hnd' : NoDup (reflect.mName <$> service.exported_methods method_set)).
  { eapply sublist_NoDup; [exact Hnd|].
    apply fmap_sublist, sublist_filter. }
  unfold service.registerMethods.
  rewrite (registerMethods_lookup _ name mt ∅ Hnd'). split.
  - intros [(meth & Hin & Hn & Hd)|[Hm0 _]]; [|by rewrite lookup_empty in Hm0].
    apply list_elem_of_filter in Hin as [Hex Hin].
    exists meth. rewrite <- Hn. done.
  - intros (meth & Hin & Hn & Hex & Hd). left. exists meth.
    split_and!; [|done..]. apply list_elem_of_filter. by rewrite Hn.
Qed.

Lemma findService_split (serviceMap : gmap string service.service)
    (pre suf : string) :
  has_byte "." suf = false →
  server.findService serviceMap (pre ++ String "." suf) =
    match serviceMap !! pre with
    | None => (None, None, Some ("rpc server:can't find service" ++ pre))
    | Some svc =>
        (Some svc, service.methods svc !! suf,
         match service.methods svc !! suf with
         | None => Some ("rpc server : can't find method" ++ suf)
         | Some _ => None
         end)
    end.
Proof.
  intros Hsuf.
  assert (Hsplit : last_dot_split (pre ++ String "." suf) pre suf) by done.
  destruct (findService_cases serviceMap (pre ++ String "." suf))
    as [[Hno _]|(pre' & suf' & Hsplit' & ->)].
  - apply last_dot_split_has_dot in Hsplit. congruence.
  - by destruct (last_dot_split_unique _ _ _ _ _ Hsplit Hsplit') as [<- <-].
Qed.

(** X10.  After a receiver is registered under a name that was free, every
    exported method of it that passes the tests of [registerMethods] is
    found by [findService] under ["Name.Method"], with the descriptor that
    holds its two parameter types; the services registered before are
    untouched; and registering a receiver of that name again is refused
    with the already-defined error and changes nothing. *)
Theorem Register_then_findService
    (serviceMap : gmap string service.service) (t : reflect.Type_)
    (method_set : list reflect.Method) :
  IsExported (reflect.Name (service.indirect t)) = true →
  NoDup (reflect.mName <$> method_set) →
  serviceMap !! reflect.Name (service.indirect t) = None →
  ∃ s serviceMap',
    server.Register serviceMap t method_set = Some (None, serviceMap') ∧
    serviceMap' !! reflect.Name (service.indirect t) = Some s ∧
    (∀ n, n ≠ reflect.Name (service.indirect t) →
          serviceMap' !! n = serviceMap !! n) ∧
    (∀ meth mt,
       meth ∈ method_set → IsExported (reflect.mName meth) = true →
       has_byte "." (reflect.mName meth) = false →
       descriptor meth = Some mt →
       server.findService serviceMap'
         (reflect.Name (service.indirect t)
            ++ String "." (reflect.mName meth)) = (Some s, Some mt, None)) ∧
    server.Register serviceMap' t method_set =
      Some (Some ("rpc: service already defined:"
                    ++ reflect.Name (service.indirect t)), serviceMap').
Proof.
  intros Hname Hnd Hfree.
  destruct (service.newService t method_set) as [s|] eqn:Hs.
  2:{ unfold service.newService in Hs. by rewrite Hname in Hs. }
  pose proof (λ name mt, newService_lookup t method_set s name mt Hnd Hs)
    as Hlook.
  destruct (Hlook "" (service.mkMethodType (reflect.mkMethod "" [] [])
                        reflect.errorType reflect.errorType 0)) as [Hn _].
  exists s, (<[service.name s := s]> serviceMap).
  unfold server.Register. rewrite Hs. simpl. rewrite Hn, Hfree.
  split_and!.
  - done.
  - by rewrite lookup_insert_eq.
  - intros n Hne. by rewrite lookup_insert_ne.
  - intros meth mt Hin Hex Hdot Hd.
    rewrite findService_split by done. rewrite lookup_insert_eq.
    assert (service.methods s !! reflect.mName meth = Some mt) as ->; [|done].
    apply Hlook. by exists meth.
  - by rewrite lookup_insert_eq.
Qed.

Lemma Register_then_findService_witness :
  let Int := reflect.Named "" "int" (reflect.Lit reflect.Int "int") in
  let Foo := reflect.Named "main" "Foo" (reflect.Lit reflect.Int "int") in
  let Sum := reflect.mkMethod "Sum" [Foo; Int; reflect.PtrTo Int]
               [reflect.errorType] in
  let mt := service.mkMethodType Sum Int (reflect.PtrTo Int) 0 in
  ∃ s serviceMap',
    server.Register ∅ (reflect.PtrTo Foo) [Sum] = Some (None, serviceMap') ∧
    server.findService serviceMap' "Foo.Sum" = (Some s, Some mt, None) ∧
    server.Register serviceMap' (reflect.PtrTo Foo) [Sum] =
      Some (Some "rpc: service already defined:Foo", serviceMap').
Proof.
  intros Int Foo Sum mt.
  destruct (Register_then_findService ∅ (reflect.PtrTo Foo) [Sum])
    as (s & sm' & HR & _ & _ & Hf & HR2).
  - reflexivity.
  - compute_done.
  - reflexivity.
  - exists s, sm'. split_and!; [exact HR| |exact HR2].
    apply (Hf Sum mt); [by left|reflexivity..].
Defined.

Lemma findService_found (serviceMap : gmap string service.service)
    (serviceMethod : string) (svc : option service.service)
    (mt : option service.methodType) :
  server.findService serviceMap serviceMethod = (svc, mt, None) →
  ∃ s m, svc = Some s ∧ mt = Some m.
Proof.
  intros Hfs.
  destruct (findService_cases serviceMap serviceMethod)
    as [[_ Hx]|(pre & suf & _ & Hx)]; rewrite Hfs in Hx; [done|].
  destruct (serviceMap !! pre) as [s|]; [|done].
  destruct (service.methods s !! suf) as [m|]; [|done].
  injection Hx as -> ->. by exists s, m.
Qed.

Lemma readRequest_cases (serviceMap : gmap string service.service)
    (h : codec.Header) (b : error) :
  match lookup_error serviceMap h with
  | Some e =>
      ∃ svc mt,
        server.readRequest serviceMap (inl h) b =
          Some (Some (server.mkRequest_ h None None mt svc), Some e)
  | None =>
      ∃ s m,
        server.findService serviceMap (codec.ServiceMethod h)
          = (Some s, Some m, None) ∧
        server.readRequest serviceMap (inl h) b =
          (a ← service.newArgv m; r ← service.newReplyv m;
           Some (Some (server.mkRequest_ h (Some a) (Some r) (Some m) (Some s)),
                 None))
  end.
Proof.
  unfold lookup_error, server.readRequest. simpl.
  destruct (server.findService serviceMap (codec.ServiceMethod h))
    as [[svc mt] [e|]] eqn:Hfs; simpl.
  - by exists svc, mt.
  - destruct (findService_found _ _ _ _ Hfs) as (s & m & -> & ->).
    exists s, m. split; [done|]. simpl.
    destruct (service.newArgv m); [|done]. simpl.
    destruct (service.newReplyv m); [|done]. simpl. by destruct b.
Qed.

Lemma serveCodec_loop (serviceMap : gmap string service.service)
    (turns : list (codec.Header * error))
    (rest : list ((codec.Header + string) * error)) (acc : server.served) :
  (∀ h b svc mt,
     (h, b) ∈ turns →
     server.findService serviceMap (codec.ServiceMethod h)
       = (Some svc, Some mt, None) →
     is_Some (service.newArgv mt) ∧ is_Some (service.newReplyv mt)) →
  ∃ reqs,
    server.serveCodec serviceMap
      ((prod_map inl id <$> turns) ++ rest) acc =
    server.serveCodec serviceMap rest
      (server.mkServed
         (server.responses acc ++ omap (refusal serviceMap) turns.*1)
         (server.handled acc ++ reqs) (server.ended acc)) ∧
    server.rq_h <$> reqs =
      filter (λ h, lookup_error serviceMap h = None) turns.*1 ∧
    Forall (λ r, is_Some (server.rq_argv r) ∧ is_Some (server.rq_replyv r) ∧
                 is_Some (server.rq_mtype r) ∧ is_Some (server.rq_svc r))
           reqs.
Proof.
  revert acc. induction turns as [|[h b] turns IH]; intros acc Hok.
  - exists []. simpl. rewrite !app_nil_r. by destruct acc.
  - assert (Hok' : ∀ h b svc mt,
       (h, b) ∈ turns →
       server.findService serviceMap (codec.ServiceMethod h)
         = (Some svc, Some mt, None) →
       is_Some (service.newArgv mt) ∧ is_Some (service.newReplyv mt)).
    { intros h' b' svc mt Hin. apply (Hok h' b'). by right. }
    pose proof (readRequest_cases serviceMap h b) as Hc.
    rewrite fmap_cons. cbn [fst fmap list_fmap omap list_omap].
    change (server.serveCodec serviceMap
              ((prod_map inl id (h, b) :: (prod_map inl id <$> turns)) ++ rest)
              acc)
      with ('(req, err) ← server.readRequest serviceMap (inl h) b;
            match err, req with
            | Some e, None =>
                Some (server.mkServed (server.responses acc)
                        (server.handled acc) true)
            | Some e, Some req =>
                server.serveCodec serviceMap
                  ((prod_map inl id <$> turns) ++ rest)
                  (server.mkServed
                     (server.responses acc ++
                        [(server.set_Error e (server.rq_h req),
                          server.invalidRequest)])
                     (server.handled acc) (server.ended acc))
            | None, Some req =>
                server.serveCodec serviceMap
                  ((prod_map inl id <$> turns) ++ rest)
                  (server.mkServed (server.responses acc)
                     (server.handled acc ++ [req]) (server.ended acc))
            | None, None => None
            end).
    unfold refusal at 1.
    destruct (lookup_error serviceMap h) as [e|] eqn:He.
    + destruct Hc as (svc & mt & ->). simpl.
      destruct (IH (server.mkServed
                      (server.responses acc ++
                         [(server.set_Error e h, server.invalidRequest)])
                      (server.handled acc) (server.ended acc)) Hok')
        as (reqs & Hrun & Hh & Hf).
      exists reqs. rewrite filter_cons_False by (by rewrite He).
      rewrite Hrun. simpl. rewrite <- !app_assoc. simpl.
      split_and!; try done.
    + destruct Hc as (s & m & Hfs & ->).
      destruct (Hok h b s m) as [[a Ha] [r Hr]]; [by left|done|].
      rewrite Ha, Hr. simpl.
      destruct (IH (server.mkServed (server.responses acc)
                      (server.handled acc ++
                         [server.mkRequest_ h (Some a) (Some r) (Some m)
                            (Some s)])
                      (server.ended acc)) Hok')
        as (reqs & Hrun & Hh & Hf).
      exists (server.mkRequest_ h (Some a) (Some r) (Some m) (Some s) :: reqs).
      rewrite filter_cons_True by done.
      rewrite Hrun. simpl. rewrite <- !app_assoc. simpl.
      split_and!; [done|by f_equal|].
      constructor; [|done]. simpl. eauto.
Qed.

Lemma refusal_or_handled (serviceMap : gmap string service.service)
    (l : list codec.Header) :
  (length (omap (refusal serviceMap) l)
   + length (filter (λ h, lookup_error serviceMap h = None) l) = length l)%nat.
Proof.
  induction l as [|h l IH]; [done|].
  cbn [omap list_omap]. unfold refusal at 1.
  destruct (lookup_error serviceMap h) eqn:He; simpl.
  - rewrite filter_cons_False by (by rewrite He). lia.
  - rewrite filter_cons_True by done. simpl. lia.
Qed.

(** X11.  The loop of [serveCodec] on a connection that delivers the
    requests of headers [turns] and then fails to deliver a header: it leaves
    the loop at the failed read and looks at nothing after it; it writes
    itself one response for each request whose service or method is not
    found, and only for those, in the order of the requests, with the
    sequence number and the service method of the request, the text of the
    error of [findService] and the placeholder body; every other request
    is handed to [handleRequest], in order, with both values built and its
    service and method set, also when its body could not be read. *)
Theorem serveCodec_spec (serviceMap : gmap string service.service)
    (turns : list (codec.Header * error)) (e : string) (b : error)
    (rest : list ((codec.Header + string) * error)) :
  (∀ h b svc mt,
     (h, b) ∈ turns →
     server.findService serviceMap (codec.ServiceMethod h)
       = (Some svc, Some mt, None) →
     is_Some (service.newArgv mt) ∧ is_Some (service.newReplyv mt)) →
  ∃ out,
    server.serveCodec serviceMap
      ((prod_map inl id <$> turns) ++ (inr e, b) :: rest)
      (server.mkServed [] [] false) = Some out ∧
    server.ended out = true ∧
    server.responses out = omap (refusal serviceMap) turns.*1 ∧
    server.rq_h <$> server.handled out =
      filter (λ h, lookup_error serviceMap h = None) turns.*1 ∧
    Forall (λ r, is_Some (server.rq_argv r) ∧ is_Some (server.rq_replyv r) ∧
                 is_Some (server.rq_mtype r) ∧ is_Some (server.rq_svc r))
           (server.handled out) ∧
    (length (server.responses out) + length (server.handled out)
       = length turns)%nat.
Proof.
  intros Hok.
  destruct (serveCodec_loop serviceMap turns ((inr e, b) :: rest)
              (server.mkServed [] [] false) Hok) as (reqs & Hrun & Hh & Hf).
  eexists. split; [rewrite Hrun; reflexivity|]. simpl.
  split_and!; try done.
  rewrite <- (length_fmap server.rq_h reqs), Hh.
  rewrite <- (length_fmap fst turns). apply refusal_or_handled.
Qed.

Lemma serveCodec_spec_witness :
  let Int := reflect.Named "" "int" (reflect.Lit reflect.Int "int") in
  let Foo := reflect.Named "main" "Foo" (reflect.Lit reflect.Int "int") in
  let Sum := reflect.mkMethod "Sum" [Foo; Int; reflect.PtrTo Int]
               [reflect.errorType] in
  let mt := service.mkMethodType Sum Int (reflect.PtrTo Int) 0 in
  let svc := service.mkService "Foo" Foo {[ "Sum" := mt ]} in
  let serviceMap : gmap string service.service := {[ "Foo" := svc ]} in
  let h1 := codec.mkHeader "Foo.Sum" 1 "" in
  let h2 := codec.mkHeader "Bar.Sum" 2 "" in
  let h3 := codec.mkHeader "Foo.Mul" 3 "" in
  ∃ out,
    server.serveCodec serviceMap
      [(inl h1, Some "unexpected EOF"); (inl h2, None); (inl h3, None);
       (inr "EOF", None); (inl h1, None)]
      (server.mkServed [] [] false) = Some out ∧
    server.ended out = true ∧
    server.responses out =
      [(codec.mkHeader "Bar.Sum" 2 "rpc server:can't find serviceBar",
        server.invalidRequest);
       (codec.mkHeader "Foo.Mul" 3 "rpc server : can't find methodMul",
        server.invalidRequest)] ∧
    server.rq_h <$> server.handled out = [h1].
Proof.
  intros Int Foo Sum mt svc serviceMap h1 h2 h3.
  destruct (serveCodec_spec serviceMap
              [(h1, Some "unexpected EOF"); (h2, None); (h3, None)]
              "EOF" None [(inl h1, None)])
    as (out & Hrun & He & Hw & Hh & _).
  - intros h b s m Hin Hfs.
    apply elem_of_cons in Hin as [[= -> ->]|Hin];
      [|apply elem_of_cons in Hin as [[= -> ->]|Hin];
        [|apply elem_of_cons in Hin as [[= -> ->]|Hin];
          [|by apply elem_of_nil in Hin]]];
      vm_compute in Hfs; try discriminate Hfs.
    injection Hfs as <- <-. split; by eexists.
  - exists out. split_and!; [exact Hrun|exact He| |exact Hh].
    rewrite Hw. reflexivity.
Defined.

Lemma Elem_none (t : reflect.Type_) :
  has_elem (reflect.kind t) = false → reflect.Elem t = None.
Proof. induction t; simpl; (done || auto). Qed.

(** X12.  A method whose reply parameter is not a pointer, nor of another
    kind with an element type, is registered all the same when it passes
    the tests of [registerMethods]; the first request that names it then
    panics in [readRequest], under [newReplyv], whatever its body, and
    the loop of [serveCodec] with it: no response is written. *)
Theorem non_pointer_reply_panics
    (serviceMap : gmap string service.service) (t : reflect.Type_)
    (method_set : list reflect.Method) (meth : reflect.Method)
    (mt : service.methodType) (h : codec.Header) (b : error)
    (script : list ((codec.Header + string) * error)) (acc : server.served) :
  IsExported (reflect.Name (service.indirect t)) = true →
  NoDup (reflect.mName <$> method_set) →
  serviceMap !! reflect.Name (service.indirect t) = None →
  meth ∈ method_set → IsExported (reflect.mName meth) = true →
  has_byte "." (reflect.mName meth) = false →
  descriptor meth = Some mt →
  has_elem (reflect.kind (service.ReplyType mt)) = false →
  codec.ServiceMethod h =
    reflect.Name (service.indirect t) ++ String "." (reflect.mName meth) →
  ∃ serviceMap',
    server.Register serviceMap t method_set = Some (None, serviceMap') ∧
    lookup_error serviceMap' h = None ∧
    server.readRequest serviceMap' (inl h) b = None ∧
    server.serveCodec serviceMap' ((inl h, b) :: script) acc = None.
Proof.
  intros Hname Hnd Hfree Hin Hex Hdot Hd Hk Hsm.
  destruct (service.newService t method_set) as [s|] eqn:Hs.
  2:{ unfold service.newService in Hs. by rewrite Hname in Hs. }
  destruct (newService_lookup t method_set s (reflect.mName meth) mt Hnd Hs)
    as [Hn Hlook].
  assert (Hm : service.methods s !! reflect.mName meth = Some mt).
  { apply Hlook. by exists meth. }
  exists (<[service.name s := s]> serviceMap).
  unfold server.Register. rewrite Hs. simpl. rewrite Hn, Hfree.
  assert (Hfs : server.findService
                  (<[reflect.Name (service.indirect t) := s]> serviceMap)
                  (codec.ServiceMethod h) = (Some s, Some mt, None)).
  { rewrite Hsm, findService_split by done.
    by rewrite lookup_insert_eq, Hm. }
  assert (Hrd : server.readRequest
                  (<[reflect.Name (service.indirect t) := s]> serviceMap)
                  (inl h) b = None).
  { unfold server.readRequest. simpl. rewrite Hfs. simpl.
    unfold service.newReplyv. rewrite (Elem_none _ Hk).
    by destruct (service.newArgv mt). }
  split_and!; [done|unfold lookup_error; by rewrite Hfs|exact Hrd|].
  simpl. by rewrite Hrd.
Qed.

Lemma non_pointer_reply_panics_witness :
  let Int := reflect.Named "" "int" (reflect.Lit reflect.Int "int") in
  let Foo := reflect.Named "main" "Foo" (reflect.Lit reflect.Int "int") in
  let Sum := reflect.mkMethod "Sum" [Foo; Int; Int] [reflect.errorType] in
  let h := codec.mkHeader "Foo.Sum" 1 "" in
  ∃ serviceMap',
    server.Register ∅ Foo [Sum] = Some (None, serviceMap') ∧
    lookup_error serviceMap' h = None ∧
    server.readRequest serviceMap' (inl h) None = None ∧
    server.serveCodec serviceMap' [(inl h, None)]
      (server.mkServed [] [] false) = None.
Proof.
  intros Int Foo Sum h.
  apply (non_pointer_reply_panics ∅ Foo [Sum] Sum
           (service.mkMethodType Sum Int Int 0));
    try reflexivity; [compute_done|by left].
Defined.

(** ** The registry: heartbeats and queries *)

Lemma aliveServers_spec (r : registry.MiniRegistry) (now : string → Z)
    (order : list (string * registry.ServerItem)) :
  order ≡ₚ map_to_list (registry.servers r) →
  ∃ alive r',
    registry.aliveServers r now order = (alive, r') ∧
    (∀ a, a ∈ alive ↔
          ∃ s, registry.servers r !! a = Some s ∧ is_alive r now a s) ∧
    StronglySorted String.le alive ∧ NoDup alive ∧
    registry.timeout r' = registry.timeout r ∧
    (∀ a s, registry.servers r' !! a = Some s ↔
            registry.servers r !! a = Some s ∧ is_alive r now a s).
Proof.
  intros Hperm.
  assert (Hin : ∀ a s, (a, s) ∈ order ↔ registry.servers r !! a = Some s).
  { intros a s. rewrite Hperm. apply elem_of_map_to_list. }
  assert (Hnd : NoDup order.*1).
  { rewrite Hperm. apply NoDup_fst_map_to_list. }
  destruct (alive_loop r now order Hnd [] (registry.servers r))
    as (al & m' & Hrun & Hal & Hndal & Hdel & Hkeep).
  exists (registry.sort_Strings al),
         (registry.mkRegistry (registry.timeout r) m').
  unfold registry.aliveServers. rewrite Hrun. simpl. split_and!.
  - done.
  - intros a. unfold registry.sort_Strings.
    rewrite merge_sort_Permutation, Hal.
    split; intros (s & H1 & H2); exists s; split; (done || by apply Hin).
  - apply StronglySorted_merge_sort; apply _.
  - unfold registry.sort_Strings. by rewrite merge_sort_Permutation.
  - done.
  - intros a s.
    destruct (registry.servers r !! a) as [s0|] eqn:Hs0.
    + destruct (decide (is_alive r now a s0)) as [Hk|Hk0].
      * rewrite Hkeep, Hs0.
        -- split; [by intros [= <-]|by intros [? _]].
        -- intros s1 Hs1%Hin. congruence.
      * rewrite Hdel; [|exists s0; split; [by apply Hin|done]].
        split; [done|]. intros [[= <-] H]. done.
    + rewrite Hkeep, Hs0; [split; [done|by intros [? _]]|].
      intros s1 Hs1%Hin. congruence.
Qed.

Lemma ServeHTTP_GET (r : registry.MiniRegistry) (w : registry.Response)
    (req : registry.Request) (now : string → Z)
    (order : list (string * registry.ServerItem)) :
  registry.Method req = "GET" →
  registry.ServeHTTP r w req now order =
    (registry.mkResponse
       (<["X-Minirpc-Servers" :=
            registry.Join (registry.aliveServers r now order).1 ","]>
          (registry.w_header w))
       (registry.w_status w) (registry.w_body w),
     (registry.aliveServers r now order).2).
Proof.
  intros Hget. unfold registry.ServeHTTP. rewrite Hget. simpl.
  by destruct (registry.aliveServers r now order).
Qed.

Lemma ServeHTTP_POST (r : registry.MiniRegistry) (w : registry.Response)
    (req : registry.Request) (now : string → Z)
    (order : list (string * registry.ServerItem)) (addr : string) :
  registry.Method req = "POST" →
  registry.Header req !! "X-Minirpc-Server" = Some addr → addr ≠ "" →
  registry.ServeHTTP r w req now order =
    (w, registry.putServer addr (now addr) r).
Proof.
  intros Hpost Hh Ha. unfold registry.ServeHTTP, registry.Header_Get.
  rewrite Hpost, Hh. simpl.
  destruct (String.eqb_spec addr ""); done.
Qed.

Lemma putServer_lookup (addr : string) (t : Z) (r : registry.MiniRegistry) :
  registry.timeout (registry.putServer addr t r) = registry.timeout r ∧
  (∃ s, registry.servers (registry.putServer addr t r) !! addr = Some s ∧
        registry.start s = t) ∧
  (∀ a, a ≠ addr →
        registry.servers (registry.putServer addr t r) !! a
        = registry.servers r !! a).
Proof.
  unfold registry.putServer.
  destruct (registry.servers r !! addr) as [s|]; simpl; split_and!;
    try done; try (eexists; by rewrite lookup_insert_eq);
    intros a Ha; by rewrite lookup_insert_ne.
Qed.

(** X13.  A heartbeat and the next query: after a POST that names the
    address [addr] at time [t], received without error status and with
    nothing written, a GET lists [addr] exactly when the registry's timeout
    is zero or [t] plus the timeout is after the time of the query, and
    keeps its entry exactly then; for every other address the query answers
    as if the POST had not happened. *)
Theorem registry_POST_then_GET
    (r r1 r2 : registry.MiniRegistry) (w1 w1' w2 w2' : registry.Response)
    (post get : registry.Request) (addr : string)
    (now1 now2 : string → Z)
    (order1 order2 : list (string * registry.ServerItem)) :
  registry.Method post = "POST" →
  registry.Header post !! "X-Minirpc-Server" = Some addr → addr ≠ "" →
  registry.Method get = "GET" →
  registry.ServeHTTP r w1 post now1 order1 = (w1', r1) →
  order2 ≡ₚ map_to_list (registry.servers r1) →
  registry.ServeHTTP r1 w2 get now2 order2 = (w2', r2) →
  w1' = w1 ∧
  ∃ alive,
    w2' = registry.mkResponse
            (<["X-Minirpc-Servers" := registry.Join alive ","]>
               (registry.w_header w2))
            (registry.w_status w2) (registry.w_body w2) ∧
    (addr ∈ alive ↔
       registry.timeout r = 0 ∨ now1 addr + registry.timeout r > now2 addr) ∧
    (is_Some (registry.servers r2 !! addr) ↔
       registry.timeout r = 0 ∨ now1 addr + registry.timeout r > now2 addr) ∧
    (∀ a, a ≠ addr →
       (a ∈ alive ↔
          ∃ s, registry.servers r !! a = Some s ∧ is_alive r now2 a s) ∧
       (∀ s, registry.servers r2 !! a = Some s ↔
             registry.servers r !! a = Some s ∧ is_alive r now2 a s)).
Proof.
  intros Hpost Hh Ha Hget H1 Hperm H2.
  rewrite (ServeHTTP_POST _ _ _ _ _ addr Hpost Hh Ha) in H1.
  injection H1 as <- <-. split; [done|].
  destruct (putServer_lookup addr (now1 addr) r) as (Ht & (s & Hs & Hst) & Ho).
  destruct (aliveServers_spec _ now2 order2 Hperm)
    as (alive & r' & Hrun & Hal & _ & _ & Ht' & Hm).
  rewrite (ServeHTTP_GET _ _ _ _ _ Hget), Hrun in H2.
  injection H2 as <- <-. exists alive. simpl.
  unfold is_alive in *. rewrite Ht in *.
  split_and!.
  - done.
  - rewrite Hal. split.
    + intros (s' & Hs' & Hk). rewrite Hs in Hs'. injection Hs' as <-.
      by rewrite <- Hst.
    + intros Hk. exists s. by rewrite Hst.
  - split.
    + intros [s' [Hs' Hk]%Hm]. rewrite Hs in Hs'. injection Hs' as <-.
      by rewrite <- Hst.
    + intros Hk. exists s. apply Hm. by rewrite Hst.
  - intros a Hne. split.
    + rewrite Hal. by rewrite (Ho a Hne).
    + intros s'. rewrite Hm. by rewrite (Ho a Hne).
Qed.

Lemma registry_POST_then_GET_witness :
  let r := registry.mkRegistry (2 * 1000000000)
             {[ "b:2" := registry.mkServerItem "b:2" 0 ]} in
  let w := registry.mkResponse ∅ None "" in
  let post := registry.mkRequest "POST" {[ "X-Minirpc-Server" := "a:1" ]} in
  let get := registry.mkRequest "GET" ∅ in
  let r1 := registry.mkRegistry (2 * 1000000000)
              {[ "b:2" := registry.mkServerItem "b:2" 0;
                 "a:1" := registry.mkServerItem "a:1" 1500000000 ]} in
  let r2 := registry.mkRegistry (2 * 1000000000)
              {[ "a:1" := registry.mkServerItem "a:1" 1500000000 ]} in
  let w2' := registry.mkResponse {[ "X-Minirpc-Servers" := "a:1" ]} None "" in
  w = w ∧
  ∃ alive,
    w2' = registry.mkResponse
            (<["X-Minirpc-Servers" := registry.Join alive ","]> ∅) None "" ∧
    ("a:1" ∈ alive ↔
       registry.timeout r = 0 ∨ 1500000000 + registry.timeout r > 3000000000) ∧
    (is_Some (registry.servers r2 !! "a:1") ↔
       registry.timeout r = 0 ∨ 1500000000 + registry.timeout r > 3000000000) ∧
    (∀ a, a ≠ "a:1" →
       (a ∈ alive ↔
          ∃ s, registry.servers r !! a = Some s
               ∧ is_alive r (λ _, 3000000000) a s) ∧
       (∀ s, registry.servers r2 !! a = Some s ↔
             registry.servers r !! a = Some s
             ∧ is_alive r (λ _, 3000000000) a s)).
Proof.
  intros r w post get r1 r2 w2'.
  apply (registry_POST_then_GET r r1 r2 w w w w2' post get "a:1"
           (λ _, 1500000000) (λ _, 3000000000) []
           (map_to_list (registry.servers r1)));
    try reflexivity; try done.
Defined.

(** X14.  The period that [Heartbeat] takes when it is called with the
    duration zero is shorter than the default timeout of the registry, by
    one minute; and a server whose heartbeats have a period that is at most
    the timeout of the registry is listed by every query made before its
    next heartbeat is due. *)
Theorem Heartbeat_keeps_alive
    (r r1 r2 : registry.MiniRegistry) (w1 w1' w2 w2' : registry.Response)
    (post get : registry.Request) (addr : string) (duration : Z)
    (now1 now2 : string → Z)
    (order1 order2 : list (string * registry.ServerItem)) :
  registry.Method post = "POST" →
  registry.Header post !! "X-Minirpc-Server" = Some addr → addr ≠ "" →
  registry.Method get = "GET" →
  registry.ServeHTTP r w1 post now1 order1 = (w1', r1) →
  order2 ≡ₚ map_to_list (registry.servers r1) →
  registry.ServeHTTP r1 w2 get now2 order2 = (w2', r2) →
  registry.timeout r = 0 ∨
    registry.Heartbeat_period duration ≤ registry.timeout r →
  now2 addr < now1 addr + registry.Heartbeat_period duration →
  registry.Heartbeat_period 0 + registry.Minute = registry.defaultTimeout ∧
  ∃ alive,
    registry.w_header w2' !! "X-Minirpc-Servers"
      = Some (registry.Join alive ",") ∧
    addr ∈ alive ∧ is_Some (registry.servers r2 !! addr).
Proof.
  intros Hpost Hh Ha Hget H1 Hperm H2 Hd Hnow. split; [reflexivity|].
  rewrite (ServeHTTP_POST _ _ _ _ _ addr Hpost Hh Ha) in H1.
  injection H1 as <- <-.
  destruct (putServer_lookup addr (now1 addr) r) as (Ht & (s & Hs & Hst) & Ho).
  destruct (aliveServers_spec _ now2 order2 Hperm)
    as (alive & r' & Hrun & Hal & _ & _ & Ht' & Hm).
  rewrite (ServeHTTP_GET _ _ _ _ _ Hget), Hrun in H2.
  injection H2 as <- <-. exists alive. simpl.
  assert (Hk : is_alive (registry.putServer addr (now1 addr) r) now2 addr s).
  { unfold is_alive. rewrite Ht, Hst. lia. }
  split_and!.
  - by rewrite lookup_insert_eq.
  - apply Hal. by exists s.
  - exists s. by apply Hm.
Qed.

Lemma Heartbeat_keeps_alive_witness :
  let r := registry.New registry.defaultTimeout in
  let w := registry.mkResponse ∅ None "" in
  let post := registry.mkRequest "POST" {[ "X-Minirpc-Server" := "a:1" ]} in
  let get := registry.mkRequest "GET" ∅ in
  let r1 := registry.mkRegistry registry.defaultTimeout
              {[ "a:1" := registry.mkServerItem "a:1" 0 ]} in
  let w2' := registry.mkResponse {[ "X-Minirpc-Servers" := "a:1" ]} None "" in
  registry.Heartbeat_period 0 + registry.Minute = registry.defaultTimeout ∧
  ∃ alive,
    registry.w_header w2' !! "X-Minirpc-Servers"
      = Some (registry.Join alive ",") ∧
    "a:1" ∈ alive ∧ is_Some (registry.servers r1 !! "a:1").
Proof.
  intros r w post get r1 w2'.
  apply (Heartbeat_keeps_alive r r1 r1 w w w w2' post get "a:1" 0
           (λ _, 0) (λ _, 239 * 1000000000) []
           (map_to_list (registry.servers r1)));
    try reflexivity; try done.
  right. vm_compute. discriminate.
Defined.

(** X15.  A second GET changes nothing that the first one has not: with no
    POST in between and clocks that have not gone back, every address that
    the second query lists was listed by the first; and when the clocks read
    the same, the second query lists the same addresses in the same order
    and leaves the registry as the first one left it. *)
Theorem registry_GET_again
    (r r1 r2 : registry.MiniRegistry) (now1 now2 : string → Z)
    (order1 order2 : list (string * registry.ServerItem))
    (alive1 alive2 : list string) :
  order1 ≡ₚ map_to_list (registry.servers r) →
  registry.aliveServers r now1 order1 = (alive1, r1) →
  order2 ≡ₚ map_to_list (registry.servers r1) →
  registry.aliveServers r1 now2 order2 = (alive2, r2) →
  (∀ a, now1 a ≤ now2 a) →
  alive2 ⊆ alive1 ∧
  ((∀ a, now1 a = now2 a) → alive2 = alive1 ∧ r2 = r1).
Proof.
  intros Hp1 H1 Hp2 H2 Hnow.
  destruct (aliveServers_spec r now1 order1 Hp1)
    as (al1 & r1' & Hrun1 & Hal1 & Hs1 & Hnd1 & Ht1 & Hm1).
  rewrite H1 in Hrun1. injection Hrun1 as <- <-.
  destruct (aliveServers_spec r1 now2 order2 Hp2)
    as (al2 & r2' & Hrun2 & Hal2 & Hs2 & Hnd2 & Ht2 & Hm2).
  rewrite H2 in Hrun2. injection Hrun2 as <- <-.
  assert (Hsub : alive2 ⊆ alive1).
  { intros a (s & [Hs Hk]%Hm1 & _)%Hal2. apply Hal1. by exists s. }
  split; [done|]. intros Heq.
  assert (Hstay : ∀ a s, registry.servers r1 !! a = Some s →
                         is_alive r1 now2 a s).
  { intros a s [_ Hk]%Hm1. unfold is_alive in *.
    rewrite Ht1, <- Heq. done. }
  split.
  - apply (StronglySorted_unique String.le); [done..|].
    apply NoDup_Permutation; [done..|]. intros a. split; [apply Hsub|].
    intros (s & Hs & Hk)%Hal1. apply Hal2. exists s.
    split; [by apply Hm1|]. apply Hstay. by apply Hm1.
  - destruct r1 as [t1 m1], r2 as [t2 m2]. simpl in *. f_equal; [done|].
    apply map_eq. intros a. apply option_eq. intros s. rewrite Hm2.
    split; [by intros [? _]|]. intros Hs. split; [done|]. by apply Hstay.
Qed.

Lemma registry_GET_again_witness :
  let r := registry.mkRegistry (2 * 1000000000)
             {[ "b:2" := registry.mkServerItem "b:2" 2000000000;
                "c:3" := registry.mkServerItem "c:3" 0;
                "a:1" := registry.mkServerItem "a:1" 1500000000 ]} in
  let r1 := registry.mkRegistry (2 * 1000000000)
              {[ "b:2" := registry.mkServerItem "b:2" 2000000000;
                 "a:1" := registry.mkServerItem "a:1" 1500000000 ]} in
  let now := λ _ : string, 3000000000 in
  ["a:1"; "b:2"] ⊆ ["a:1"; "b:2"] ∧
  ((∀ a, now a = now a) → ["a:1"; "b:2"] = ["a:1"; "b:2"] ∧ r1 = r1).
Proof.
  intros r r1 now.
  apply (registry_GET_again r r1 r1 now now
           (map_to_list (registry.servers r))
           (map_to_list (registry.servers r1))); try reflexivity.
Defined.

(** X16.  The requests that the registry refuses leave it as it is: a POST
    without the header [X-Minirpc-Server], or with an empty one, is answered
    with the status 500, a request of a method other than GET and POST with
    the status 405, and in both cases neither the registry nor the headers
    or the body of the response change. *)
Theorem registry_refuses (r : registry.MiniRegistry)
    (w : registry.Response) (req : registry.Request) (now : string → Z)
    (order : list (string * registry.ServerItem)) :
  registry.Method req ≠ "GET" →
  (registry.Method req = "POST" →
   default "" (registry.Header req !! "X-Minirpc-Server") = "") →
  registry.ServeHTTP r w req now order =
    (registry.mkResponse (registry.w_header w)
       (Some (if decide (registry.Method req = "POST") then 500 else 405))
       (registry.w_body w), r).
Proof.
  intros Hget Hpost. unfold registry.ServeHTTP, registry.Header_Get.
  destruct (String.eqb_spec (registry.Method req) "GET"); [done|].
  destruct (String.eqb_spec (registry.Method req) "POST") as [Hp|Hp].
  - rewrite (Hpost Hp). simpl. by rewrite decide_True.
  - by rewrite decide_False.
Qed.

Lemma registry_refuses_witness :
  let r := registry.mkRegistry 0
             {[ "a:1" := registry.mkServerItem "a:1" 0 ]} in
  let w := registry.mkResponse ∅ None "" in
  registry.ServeHTTP r w (registry.mkRequest "POST" ∅) (λ _, 0) [] =
    (registry.mkResponse ∅ (Some 500) "", r) ∧
  registry.ServeHTTP r w
    (registry.mkRequest "PUT" {[ "X-Minirpc-Server" := "a:1" ]}) (λ _, 0) [] =
    (registry.mkResponse ∅ (Some 405) "", r).
Proof.
  intros r w. split.
  - apply (registry_refuses r w (registry.mkRequest "POST" ∅) (λ _, 0) []);
      [discriminate|reflexivity].
  - apply (registry_refuses r w
             (registry.mkRequest "PUT" {[ "X-Minirpc-Server" := "a:1" ]})
             (λ _, 0) []); discriminate.
Defined.

(** ** Discovery *)

Lemma int_small (x : Z) : - 2 ^ 63 ≤ x < 2 ^ 63 → xclient.int x = x.
Proof. intros Hx. unfold xclient.int. rewrite Z.mod_small; lia. Qed.

Lemma at_lookup {A} (l : list A) (i : Z) :
  0 ≤ i < Z.of_nat (length l) → ∃ x, xclient.at_ l i = Some x ∧ x ∈ l ∧
                                     l !! Z.to_nat i = Some x.
Proof.
  intros Hi. unfold xclient.at_.
  destruct (Z.ltb_spec i 0); [lia|].
  destruct (lookup_lt_is_Some_2 l (Z.to_nat i)) as [x Hx]; [lia|].
  exists x. split_and!; [done| |done]. by eapply list_elem_of_lookup_2.
Qed.

Lemma Get_round_robin_step (Intn : Z → Z)
    (d : xclient.MultiServersDiscovery) :
  xclient.servers d ≠ [] → index_ok d →
  let n := Z.of_nat (length (xclient.servers d)) in
  ∃ s,
    xclient.servers d !! Z.to_nat (xclient.index d `mod` n) = Some s ∧
    xclient.Get Intn xclient.RoundRobinSelect d =
      Some (s, None,
            xclient.mkDiscovery (xclient.servers d)
              ((xclient.index d + 1) `mod` n)).
Proof.
  intros Hne [[Hi0 Hi1] Hlen] n.
  assert (Hn : 0 < n).
  { unfold n. destruct (xclient.servers d); [done|]. simpl. lia. }
  destruct (at_lookup (xclient.servers d) (xclient.index d `mod` n))
    as (s & Hat & _ & Hs).
  { apply Z.mod_pos_bound. done. }
  exists s. split; [done|]. unfold xclient.Get. fold n.
  destruct (Z.eqb_spec n 0); [lia|]. simpl.
  rewrite int_small by lia.
  rewrite (Z.rem_mod_nonneg (xclient.index d) n) by lia.
  rewrite (Z.rem_mod_nonneg (xclient.index d + 1) n) by lia.
  rewrite Hat. done.
Qed.

Lemma round_robin_run (Intn : Z → Z) (k : nat)
    (d : xclient.MultiServersDiscovery) :
  xclient.servers d ≠ [] → index_ok d →
  let n := Z.of_nat (length (xclient.servers d)) in
  ∃ l,
    round_robin Intn k d =
      Some (l, xclient.mkDiscovery (xclient.servers d)
                 (if k is O then xclient.index d
                  else (xclient.index d + Z.of_nat k) `mod` n)) ∧
    length l = k ∧
    ∀ j, (j < k)%nat →
      ∃ s, l !! j = Some (s, None) ∧
           xclient.servers d
             !! Z.to_nat ((xclient.index d + Z.of_nat j) `mod` n) = Some s.
Proof.
  intros Hne Hok n. revert d Hne Hok n.
  induction k as [|k IH]; intros d Hne Hok n.
  - exists []. simpl. split_and!; [by destruct d|done|lia].
  - destruct (Get_round_robin_step Intn d Hne Hok) as (s & Hs & Hget).
    fold n in Hs, Hget.
    assert (Hn : 0 < n).
    { unfold n. destruct (xclient.servers d); [done|]. simpl. lia. }
    pose proof (Z.mod_pos_bound (xclient.index d + 1) n Hn) as Hb.
    destruct (IH (xclient.mkDiscovery (xclient.servers d)
                    ((xclient.index d + 1) `mod` n)))
      as (l & Hrun & Hlen & Hl).
    { done. }
    { destruct Hok as [_ Hlen]. unfold index_ok. simpl. unfold n in *. lia. }
    simpl in Hrun, Hl. fold n in Hrun, Hl.
    exists ((s, None) :: l). cbn [round_robin]. rewrite Hget. simpl.
    rewrite Hrun. simpl. split_and!.
    + assert (Hidx :
        (if k is O then (xclient.index d + 1) `mod` n
         else ((xclient.index d + 1) `mod` n + Z.of_nat k) `mod` n)
        = (xclient.index d + Z.of_nat (S k)) `mod` n).
      { destruct k as [|k']; [f_equal; lia|].
        rewrite Zplus_mod_idemp_l. f_equal. lia. }
      by rewrite Hidx.
    + by rewrite Hlen.
    + intros [|j] Hj.
      * exists s. split; [done|]. by rewrite Z.add_0_r.
      * destruct (Hl j) as (s' & Hs' & Hs''); [lia|].
        exists s'. split; [done|].
        rewrite Zplus_mod_idemp_l in Hs''. rewrite <- Hs''.
        do 3 f_equal. lia.
Qed.

Lemma rotate_Permutation {A} (i : nat) (l : list A) : rotate i l ≡ₚ l.
Proof.
  unfold rotate. rewrite Permutation_app_comm. by rewrite take_drop.
Qed.

(** X17.  The round-robin mode serves the addresses in turn: on a list of
    [n > 0] servers that is not updated meanwhile, the [j]-th of [k]
    successive calls of [Get] returns without error the address at the
    position [(index + j) mod n]; so [n] successive calls return every
    address of the list exactly once, in the order of the list rotated,
    and leave the index where it was modulo [n]. *)
Theorem Get_round_robin (Intn : Z → Z) (k : nat)
    (d : xclient.MultiServersDiscovery) :
  xclient.servers d ≠ [] → index_ok d →
  let n := length (xclient.servers d) in
  ∃ l d',
    round_robin Intn k d = Some (l, d') ∧ length l = k ∧
    xclient.servers d' = xclient.servers d ∧
    (∀ j, (j < k)%nat →
       ∃ s, l !! j = Some (s, None) ∧
            xclient.servers d
              !! Z.to_nat ((xclient.index d + Z.of_nat j) `mod` Z.of_nat n)
            = Some s) ∧
    (k = n →
       l = (λ s, (s, None))
             <$> rotate (Z.to_nat (xclient.index d)) (xclient.servers d) ∧
       l.*1 ≡ₚ xclient.servers d ∧
       xclient.index d' = xclient.index d `mod` Z.of_nat n).
Proof.
  intros Hne Hok n.
  destruct (round_robin_run Intn k d Hne Hok) as (l & Hrun & Hlen & Hl).
  fold n in Hrun, Hl.
  eexists _, _. split; [exact Hrun|]. split_and!; [done..|].
  intros ->.
  assert (Hn : (0 < n)%nat).
  { unfold n. destruct (xclient.servers d); [done|]. simpl. lia. }
  assert (Heq : l = (λ s, (s, None))
             <$> rotate (Z.to_nat (xclient.index d)) (xclient.servers d)).
  { apply list_eq. intros j. rewrite list_lookup_fmap.
    destruct (decide (j < n)%nat) as [Hj|Hj].
    - destruct (Hl j Hj) as (s & -> & Hs).
      rewrite lookup_rotate_r by done. unfold rotate_nat_add. fold n.
      rewrite Z2Nat.id by (destruct Hok as [[? ?] ?]; lia). by rewrite Hs.
    - rewrite !lookup_ge_None_2; [done| |lia].
      rewrite length_rotate. fold n. lia. }
  split_and!.
  - done.
  - rewrite Heq, <- list_fmap_compose.
    assert (Hid : ∀ l0 : list string,
              (fst ∘ (λ s : string, (s, @None string))) <$> l0 = l0).
    { intros l0. induction l0 as [|x l0 IH0]; [done|].
      rewrite fmap_cons. by f_equal. }
    rewrite Hid. apply rotate_Permutation.
  - simpl. destruct n as [|n']; [lia|].
    rewrite <- Zplus_mod_idemp_r, Z_mod_same_full, Z.add_0_r. done.
Qed.

Lemma Get_round_robin_witness :
  let d := xclient.NewMultiServerDiscovery (λ _, 7)
             ["tcp@a:1"; "tcp@b:2"; "tcp@c:3"] in
  ∃ l d',
    round_robin (λ _, 0) 3 d = Some (l, d') ∧
    l = [("tcp@b:2", None); ("tcp@c:3", None); ("tcp@a:1", None)] ∧
    xclient.index d' = 1.
Proof.
  intros d.
  destruct (Get_round_robin (λ _, 0) 3 d) as (l & d' & Hrun & _ & _ & _ & H).
  - discriminate.
  - unfold index_ok. simpl. lia.
  - destruct (H eq_refl) as (Hl & _ & Hi).
    exists l, d'. split_and!; [exact Hrun|exact Hl|exact Hi].
Defined.

(** X18.  [Get] is safe on every discovery that [NewMultiServerDiscovery]
    has made, whatever the updates and the calls since: the index stays a
    valid [int] that is not negative, [Get] does not panic, it fails
    exactly when the list is empty or the mode is neither of the two, then
    with the empty address and without a change, and the address of a
    successful call is one of the list as it is at the call, also when the
    list has become shorter than the index. *)
Theorem Get_safe (Intn : Z → Z) (mode : Z)
    (d : xclient.MultiServersDiscovery) (l : list string) :
  (∀ n, 0 < n → 0 ≤ Intn n < n) →
  Z.of_nat (length l) < 2 ^ 63 →
  index_ok d →
  index_ok (xclient.NewMultiServerDiscovery Intn l) ∧
  index_ok (xclient.Update l d).2 ∧
  ∃ s err d',
    xclient.Get Intn mode d = Some (s, err, d') ∧
    index_ok d' ∧ xclient.servers d' = xclient.servers d ∧
    (err = None ↔
       xclient.servers d ≠ [] ∧
       (mode = xclient.RandomSelect ∨ mode = xclient.RoundRobinSelect)) ∧
    (err = None → s ∈ xclient.servers d) ∧
    (err ≠ None → s = "" ∧ d' = d) ∧
    (mode = xclient.RandomSelect → d' = d).
Proof.
  intros HIntn Hl Hok. split_and!.
  - unfold index_ok, xclient.NewMultiServerDiscovery. simpl.
    pose proof (HIntn (xclient.MaxInt32 - 1)) as H.
    unfold xclient.MaxInt32 in *. lia.
  - destruct Hok as [Hi _]. by split.
  - unfold xclient.Get.
    set (n := Z.of_nat (length (xclient.servers d))).
    destruct (Z.eqb_spec n 0) as [Hn|Hn].
    { eexists _, _, _. split; [reflexivity|].
      assert (xclient.servers d = []) as Hnil.
      { destruct (xclient.servers d); [done|]. unfold n in Hn. simpl in Hn. lia. }
      split_and!; try done. split; [done|by intros [? _]]. }
    assert (Hne : xclient.servers d ≠ []).
    { intros Hnil. apply Hn. unfold n. by rewrite Hnil. }
    assert (Hpos : 0 < n) by lia.
    destruct (Z.eqb_spec mode xclient.RandomSelect) as [->|Hm0].
    { destruct (at_lookup (xclient.servers d) (Intn n)) as (s & -> & Hin & _).
      { by apply HIntn. }
      eexists _, _, _. split; [reflexivity|]. split_and!; try done.
      split; [|done]. intros _. split; [done|by left]. }
    destruct (Z.eqb_spec mode xclient.RoundRobinSelect) as [->|Hm1].
    { destruct Hok as [[Hi0 Hi1] Hlen].
      rewrite int_small by lia.
      rewrite (Z.rem_mod_nonneg (xclient.index d) n) by lia.
      rewrite (Z.rem_mod_nonneg (xclient.index d + 1) n) by lia.
      destruct (at_lookup (xclient.servers d) (xclient.index d `mod` n))
        as (s & -> & Hin & _).
      { by apply Z.mod_pos_bound. }
      eexists _, _, _. split; [reflexivity|]. simpl. split_and!; try done.
      - pose proof (Z.mod_pos_bound (xclient.index d + 1) n Hpos).
        unfold index_ok. simpl. unfold n in *. lia.
      - split; [|done]. intros _. split; [done|by right]. }
    eexists _, _, _. split; [reflexivity|]. split_and!; try done.
    split; [done|]. intros [_ [?|?]]; done.
Qed.

Lemma Get_safe_witness :
  let d := xclient.mkDiscovery ["tcp@a:1"] 5 in
  ∃ s err d',
    xclient.Get (λ _, 0) xclient.RoundRobinSelect d = Some (s, err, d') ∧
    s = "tcp@a:1" ∧ err = None ∧ xclient.index d' = 0.
Proof.
  intros d.
  destruct (Get_safe (λ _, 0) xclient.RoundRobinSelect d [])
    as (_ & _ & s & err & d' & Hget & _).
  - intros n Hn. lia.
  - simpl. lia.
  - unfold index_ok. simpl. lia.
  - exists s, err, d'. split; [exact Hget|].
    vm_compute in Hget. injection Hget as <- <- <-. done.
Defined.

(** ** The client over several servers *)

Lemma client_Close_run (w : client.World) :
  ∃ e w',
    client.Close w = Ret e w' ∧
    client.closing (client.w_client w') = true ∧
    client.shutdown (client.w_client w')
      = client.shutdown (client.w_client w) ∧
    (client.closing (client.w_client w) = true → w' = w) ∧
    (client.closing (client.w_client w) = false →
     client.conn_closed (client.conn_of (client.w_cc w')) = true).
Proof.
  unfold client.Close. destruct w as [[o hd sq cl sh] pe ca ch cc].
  destruct cl; eexists _, _; (split; [reflexivity|]); simpl;
    split_and!; try done.
  intros _. by destruct cc.
Qed.

Lemma client_IsAvailable_run (w : client.World) :
  client.IsAvailable w =
    Ret (negb (client.shutdown (client.w_client w))
         && negb (client.closing (client.w_client w))) w.
Proof. reflexivity. Qed.

(** X19.  [XClient.dial] reuses the client it has for an address as long
    as that client is available: it returns the same client without an
    error, whatever a new dial would give, and neither the table of
    clients nor any client changes. *)
Theorem dial_reuses
    (XDial : string → option loc → option client.World * error)
    (rpcAddr : string) (xc : xclient.XClient) (h : xclient.heap)
    (p : loc) (w : client.World) :
  xclient.clients xc !! rpcAddr = Some (Some p) →
  h !! p = Some w →
  client.shutdown (client.w_client w) = false →
  client.closing (client.w_client w) = false →
  xclient.dial XDial rpcAddr xc h = Some (Some p, None, xc, h).
Proof.
  intros Hc Hp Hs Hcl.
  unfold xclient.dial, xclient.dial_cached, xclient.on_client.
  rewrite Hc. simpl. rewrite Hp. simpl. rewrite Hs, Hcl. simpl.
  by rewrite insert_id.
Qed.

Lemma dial_reuses_witness :
  let w := client.newClientCodec
             (client.GobCodec (client.mkConn [] false None))
             opt.DefaultOption in
  let xc := xclient.mkXClient (xclient.mkDiscovery ["tcp@a:1"] 0)
              xclient.RoundRobinSelect None {[ "tcp@a:1" := Some 1%positive ]} in
  xclient.dial (λ _ _, (None, Some "connection refused")) "tcp@a:1" xc
    {[ 1%positive := w ]}
  = Some (Some 1%positive, None, xc, {[ 1%positive := w ]}).
Proof.
  intros w xc.
  apply (dial_reuses _ "tcp@a:1" xc {[ 1%positive := w ]} 1%positive w);
    reflexivity.
Defined.

(** X20.  [XClient.dial] on an address for which it has no client, or one
    that is no longer available: a client that is not available is closed
    and leaves the table; then [XDial] decides.  On an error the call
    returns that error and no client, and the table has no entry for the
    address; on a client, the call returns it without error, at a location
    that no other client has, and the table maps the address to it.  The
    entries of the other addresses and the other clients are as before. *)
Theorem dial_redials
    (XDial : string → option loc → option client.World * error)
    (rpcAddr : string) (xc : xclient.XClient) (h : xclient.heap) :
  (∀ c, xclient.clients xc !! rpcAddr = Some c →
        ∃ p w, c = Some p ∧ h !! p = Some w ∧
               (client.shutdown (client.w_client w) = true ∨
                client.closing (client.w_client w) = true)) →
  ((XDial rpcAddr (xclient.opt xc)).2 = None →
   is_Some (XDial rpcAddr (xclient.opt xc)).1) →
  ∃ client err xc' h',
    xclient.dial XDial rpcAddr xc h = Some (client, err, xc', h') ∧
    err = (XDial rpcAddr (xclient.opt xc)).2 ∧
    (∀ a, a ≠ rpcAddr →
          xclient.clients xc' !! a = xclient.clients xc !! a) ∧
    (∀ p w, xclient.clients xc !! rpcAddr = Some (Some p) →
            h !! p = Some w →
            ∃ w', h' !! p = Some w' ∧
                  client.closing (client.w_client w') = true ∧
                  (client.closing (client.w_client w) = false →
                   client.conn_closed (client.conn_of (client.w_cc w'))
                     = true)) ∧
    (∀ q, xclient.clients xc !! rpcAddr ≠ Some (Some q) →
          is_Some (h !! q) → h' !! q = h !! q) ∧
    match err with
    | Some _ =>
        client = None ∧ xclient.clients xc' !! rpcAddr = None
    | None =>
        ∃ p, client = Some p ∧ h !! p = None ∧
             h' !! p = (XDial rpcAddr (xclient.opt xc)).1 ∧
             xclient.clients xc' !! rpcAddr = Some (Some p)
    end.
Proof.
  intros Hold Hex.
  assert (Hfirst : ∃ xc1 h1,
    xclient.dial_cached rpcAddr xc h = Some (None, xc1, h1) ∧
    xclient.opt xc1 = xclient.opt xc ∧
    xclient.clients xc1 = delete rpcAddr (xclient.clients xc) ∧
    (∀ p w, xclient.clients xc !! rpcAddr = Some (Some p) →
            h !! p = Some w →
            ∃ w', h1 !! p = Some w' ∧
                  client.closing (client.w_client w') = true ∧
                  (client.closing (client.w_client w) = false →
                   client.conn_closed (client.conn_of (client.w_cc w'))
                     = true)) ∧
    (∀ q, xclient.clients xc !! rpcAddr ≠ Some (Some q) → h1 !! q = h !! q) ∧
    dom h1 = dom h).
  { unfold xclient.dial_cached.
    destruct (xclient.clients xc !! rpcAddr) as [c|] eqn:Hc.
    - destruct (Hold c eq_refl) as (p & w & -> & Hp & Hun).
      destruct (client_Close_run w) as (e & w' & HC & Hcl & _ & _ & Hconn).
      exists (xclient.set_clients (delete rpcAddr) xc),
             (<[p := w']> (<[p := w]> h)).
      unfold xclient.on_client. simpl. rewrite Hp. simpl.
      assert (negb (negb (client.shutdown (client.w_client w))
                    && negb (client.closing (client.w_client w))) = true)
        as ->.
      { destruct Hun as [-> | ->]; [done|].
        by destruct (client.shutdown (client.w_client w)). }
      rewrite lookup_insert_eq. simpl. rewrite HC. simpl.
      split_and!; try done.
      + intros p0 w0 [= <-] Hw0. rewrite Hp in Hw0. injection Hw0 as <-.
        exists w'. rewrite lookup_insert_eq. split_and!; [done|done|].
        intros H. by apply Hconn.
      + intros q Hq. rewrite !lookup_insert_ne; [done|congruence..].
      + rewrite !dom_insert_L. apply elem_of_dom_2 in Hp.
        apply set_eq. intros x. rewrite !elem_of_union, elem_of_singleton.
        split; [intros [->|[->|?]]; done|]. intros ?. by do 2 right.
    - exists xc, h. split_and!; try done.
      by rewrite delete_id. }
  destruct Hfirst as (xc1 & h1 & Hrun & Hopt & Hcl1 & Hclosed & Hother & Hdom).
  unfold xclient.dial. rewrite Hrun. simpl.
  unfold xclient.dial_new. rewrite Hopt.
  destruct (XDial rpcAddr (xclient.opt xc)) as [c [e|]] eqn:HX; simpl in *.
  - eexists _, _, _, _. split; [by destruct c|]. split_and!; try done.
    + intros a Ha. by rewrite Hcl1, lookup_delete_ne.
    + intros q Hq _. by apply Hother.
    + by rewrite Hcl1, lookup_delete_eq.
  - destruct (Hex eq_refl) as [w ->].
    assert (Hfresh : h1 !! fresh (dom h1) = None).
    { apply not_elem_of_dom. apply is_fresh. }
    assert (Hfresh0 : h !! fresh (dom h1) = None).
    { apply not_elem_of_dom. rewrite <- Hdom. apply is_fresh. }
    eexists _, _, _, _. split; [reflexivity|]. simpl. split_and!; try done.
    + intros a Ha. by rewrite lookup_insert_ne, Hcl1, lookup_delete_ne.
    + intros p w0 Hp Hw0. destruct (Hclosed p w0 Hp Hw0) as (w' & Hw' & H).
      exists w'. split; [|done]. rewrite lookup_insert_ne; [done|].
      intros <-. by rewrite Hfresh in Hw'.
    + intros q Hq [wq Hwq]. rewrite lookup_insert_ne; [by apply Hother|].
      intros <-. by rewrite Hfresh0 in Hwq.
    + exists (fresh (dom h1)). split_and!; try done.
      * by rewrite lookup_insert_eq.
      * by rewrite lookup_insert_eq.
Qed.

Lemma dial_redials_witness :
  let w := client.mkWorld
             (client.mkClient opt.DefaultOption (codec.mkHeader "" 0 "") 1
                false true)
             ∅ ∅ ∅ (client.GobCodec (client.mkConn [] false None)) in
  let w1 := client.newClientCodec
              (client.GobCodec (client.mkConn [] false None))
              opt.DefaultOption in
  let xc := xclient.mkXClient (xclient.mkDiscovery ["tcp@a:1"] 0)
              xclient.RoundRobinSelect None {[ "tcp@a:1" := Some 1%positive ]} in
  ∃ client xc' h',
    xclient.dial (λ _ _, (Some w1, None)) "tcp@a:1" xc {[ 1%positive := w ]}
      = Some (client, None, xc', h') ∧
    (∃ w', h' !! 1%positive = Some w' ∧
           client.closing (client.w_client w') = true ∧
           client.conn_closed (client.conn_of (client.w_cc w')) = true) ∧
    ∃ p, client = Some p ∧ h' !! p = Some w1 ∧
         xclient.clients xc' !! "tcp@a:1" = Some (Some p).
Proof.
  intros w w1 xc.
  destruct (dial_redials (λ _ _, (Some w1, None)) "tcp@a:1" xc
              {[ 1%positive := w ]})
    as (client & err & xc' & h' & Hrun & -> & _ & Hcl & _ & Hnew).
  - intros c Hc. exists 1%positive, w.
    vm_compute in Hc. injection Hc as <-. split_and!; [done|done|by left].
  - intros _. by eexists.
  - exists client, xc', h'. split; [exact Hrun|]. split.
    + destruct (Hcl 1%positive w) as (w' & Hw' & Hc' & Hconn);
        [reflexivity|reflexivity|].
      exists w'. split_and!; [done|done|by apply Hconn].
    + destruct Hnew as (p & -> & _ & Hp & Hx). by exists p.
Defined.

Lemma lookup_foldl_delete {A} (m : gmap string A) (ks : list string)
    (k : string) :
  foldl (λ m k, delete k m) m ks !! k
  = if decide (k ∈ ks) then None else m !! k.
Proof.
  revert m. induction ks as [|k0 ks IH]; intros m.
  - destruct (decide (k ∈ [])) as [Hin|_]; [|done].
    by apply elem_of_nil in Hin.
  - cbn [foldl]. rewrite IH.
    destruct (decide (k ∈ ks)) as [Hin|Hin];
      destruct (decide (k ∈ k0 :: ks)) as [Hin'|Hin']; try done.
    + exfalso. apply Hin'. by right.
    + apply elem_of_cons in Hin' as [->|?]; [|done].
      by rewrite lookup_delete_eq.
    + rewrite lookup_delete_ne; [done|]. intros <-. apply Hin'. by left.
Qed.

Lemma XClient_Close_loop (order : list (string * option loc))
    (xc : xclient.XClient) (h : xclient.heap) :
  (∀ k c, (k, c) ∈ order → ∃ p, c = Some p ∧ is_Some (h !! p)) →
  ∃ h',
    foldl xclient.Close_step (Some (xc, h)) order =
      Some (xclient.set_clients
              (λ m, foldl (λ m k, delete k m) m order.*1) xc, h') ∧
    dom h' = dom h ∧
    (∀ k p, (k, Some p) ∈ order →
            ∃ w', h' !! p = Some w' ∧
                  client.closing (client.w_client w') = true) ∧
    (∀ p, (∀ k, (k, Some p) ∉ order) → h' !! p = h !! p) ∧
    (∀ p w, h !! p = Some w → client.closing (client.w_client w) = true →
            h' !! p = Some w).
Proof.
  revert xc h. induction order as [|[k c] order IH]; intros xc h Hwf.
  - exists h. simpl. split_and!; try done.
    + by destruct xc.
    + intros k p Hin. by apply elem_of_nil in Hin.
  - destruct (Hwf k c) as (p & -> & [w Hp]); [by left|].
    destruct (client_Close_run w) as (e & w' & HC & Hcl & _ & Hsame & _).
    destruct (IH (xclient.set_clients (delete k) xc) (<[p := w']> h))
      as (h' & Hrun & Hdom & Hclosed & Hother & Hkeep).
    { intros k0 c0 Hin. destruct (Hwf k0 c0) as (p0 & -> & Hp0); [by right|].
      exists p0. split; [done|].
      destruct (decide (p0 = p)) as [->|Hne];
        [by rewrite lookup_insert_eq|by rewrite lookup_insert_ne]. }
    exists h'. split_and!.
    + cbn [foldl]. unfold xclient.Close_step at 2, xclient.on_client.
      simpl. rewrite Hp. simpl. rewrite HC. simpl. exact Hrun.
    + rewrite Hdom, dom_insert_L. apply elem_of_dom_2 in Hp.
      apply set_eq. intros x. rewrite elem_of_union, elem_of_singleton.
      split; [intros [->|?]; done|]. intros ?. by right.
    + intros k0 p0 [[= -> ->]|Hin]%elem_of_cons.
      * exists w'. split; [|done]. apply Hkeep; [|done].
        by rewrite lookup_insert_eq.
      * by apply (Hclosed k0).
    + intros p0 Hp0. rewrite Hother.
      * rewrite lookup_insert_ne; [done|]. intros <-. apply (Hp0 k). by left.
      * intros k0 Hin. apply (Hp0 k0). by right.
    + intros p0 w0 Hp0 Hcl0. apply Hkeep; [|done].
      destruct (decide (p0 = p)) as [->|Hne].
      * rewrite lookup_insert_eq. rewrite Hp in Hp0. injection Hp0 as <-.
        by rewrite (Hsame Hcl0).
      * by rewrite lookup_insert_ne.
Qed.

(** X21.  [XClient.Close] closes every client of the table and empties
    the table, in whatever order [range] visits it: it returns no error,
    every client that was in the table is closing afterwards, the clients
    that were not in the table are as before, and the discovery, the mode
    and the options are kept. *)
Theorem XClient_Close_all (xc : xclient.XClient) (h : xclient.heap)
    (order : list (string * option loc)) :
  (∀ k c, xclient.clients xc !! k = Some c →
          ∃ p, c = Some p ∧ is_Some (h !! p)) →
  order ≡ₚ map_to_list (xclient.clients xc) →
  ∃ h',
    xclient.Close xc h order =
      Some (None,
            xclient.mkXClient (xclient.d xc) (xclient.mode xc)
              (xclient.opt xc) ∅, h') ∧
    dom h' = dom h ∧
    (∀ k p, xclient.clients xc !! k = Some (Some p) →
            ∃ w', h' !! p = Some w' ∧
                  client.closing (client.w_client w') = true) ∧
    (∀ p, (∀ k, xclient.clients xc !! k ≠ Some (Some p)) →
          h' !! p = h !! p).
Proof.
  intros Hwf Hperm.
  assert (Hin : ∀ k c, (k, c) ∈ order ↔ xclient.clients xc !! k = Some c).
  { intros k c. rewrite Hperm. apply elem_of_map_to_list. }
  destruct (XClient_Close_loop order xc h)
    as (h' & Hrun & Hdom & Hclosed & Hother & _).
  { intros k c Hk. apply (Hwf k). by apply Hin. }
  exists h'. unfold xclient.Close. rewrite Hrun. simpl. split_and!.
  - unfold xclient.set_clients.
    assert (foldl (λ m k, delete k m) (xclient.clients xc) order.*1 = ∅)
      as ->; [|done].
    apply map_eq. intros k. rewrite lookup_foldl_delete, lookup_empty.
    destruct (decide (k ∈ order.*1)) as [|Hk]; [done|].
    destruct (xclient.clients xc !! k) as [c|] eqn:Hc; [|done].
    exfalso. apply Hk. apply list_elem_of_fmap. exists (k, c).
    split; [done|]. by apply Hin.
  - done.
  - intros k p Hk. apply (Hclosed k). by apply Hin.
  - intros p Hp. apply Hother. intros k Hk. apply (Hp k). by apply Hin.
Qed.

Lemma XClient_Close_all_witness :
  let w1 := client.newClientCodec
              (client.GobCodec (client.mkConn [] false None))
              opt.DefaultOption in
  let w2 := client.mkWorld
              (client.mkClient opt.DefaultOption (codec.mkHeader "" 0 "") 1
                 true false)
              ∅ ∅ ∅ (client.GobCodec (client.mkConn [] true None)) in
  let xc := xclient.mkXClient (xclient.mkDiscovery ["tcp@a:1"; "tcp@b:2"] 0)
              xclient.RoundRobinSelect None
              {[ "tcp@a:1" := Some 1%positive;
                 "tcp@b:2" := Some 2%positive ]} in
  let h : xclient.heap := {[ 1%positive := w1; 2%positive := w2 ]} in
  ∃ h',
    xclient.Close xc h (map_to_list (xclient.clients xc)) =
      Some (None,
            xclient.mkXClient (xclient.d xc) (xclient.mode xc)
              (xclient.opt xc) ∅, h') ∧
    (∃ w', h' !! 1%positive = Some w' ∧
           client.closing (client.w_client w') = true) ∧
    (∃ w', h' !! 2%positive = Some w' ∧
           client.closing (client.w_client w') = true).
Proof.
  intros w1 w2 xc h.
  destruct (XClient_Close_all xc h (map_to_list (xclient.clients xc)))
    as (h' & Hrun & _ & Hcl & _).
  - intros k c Hk. apply elem_of_map_to_list in Hk. vm_compute in Hk.
    apply elem_of_cons in Hk as [[= -> ->]|Hk];
      [|apply elem_of_cons in Hk as [[= -> ->]|Hk];
        [|by apply elem_of_nil in Hk]];
      eexists; (split; [reflexivity|by eexists]).
  - reflexivity.
  - exists h'. split_and!; [exact Hrun| |].
    + by apply (Hcl "tcp@a:1").
    + by apply (Hcl "tcp@b:2").
Defined.

(** ** The results of the dialing functions *)

Lemma NewClient_result (σ : opt.store) (conn : client.Conn) (o : loc)
    (c : option client.World) (err : error) (conn' : client.Conn) :
  client.NewClient σ conn o = Some (c, err, conn') →
  (is_Some c ↔ err = None) ∧
  (∀ w, c = Some w →
        w = client.newClientCodec (client.GobCodec conn') o).
Proof.
  unfold client.NewClient. intros H.
  destruct (σ !! o) as [ov|]; [|done]. simpl in H.
  destruct (codec.NewCodecFuncMap !! opt.oCodecType ov) as [f|].
  - destruct (client.conn_write (client.JsonOption ov) conn) as [[e|] cn];
      injection H as <- <- <-.
    + split; [|done]. split; [by intros [? ?]|done].
    + split; [by split|]. intros w [= <-]. by destruct f.
  - injection H as <- <- <-. split; [|done]. split; [by intros [? ?]|done].
Qed.

Lemma NewHTTPClient_result (ReadResponse : client.Conn → string + string)
    (σ : opt.store) (conn : client.Conn) (o : loc)
    (c : option client.World) (err : error) (conn' : client.Conn) :
  client.NewHTTPClient ReadResponse σ conn o = Some (c, err, conn') →
  (is_Some c ↔ err = None) ∧
  (∀ w, c = Some w →
        w = client.newClientCodec (client.GobCodec conn') o).
Proof.
  unfold client.NewHTTPClient.
  destruct (client.conn_write _ conn) as [e0 cn].
  destruct (ReadResponse cn) as [status|e].
  - destruct (String.eqb status http.connected).
    + apply NewClient_result.
    + intros [= <- <- <-]. split; [|done]. split; [by intros [? ?]|done].
  - intros [= <- <- <-]. split; [|done]. split; [by intros [? ?]|done].
Qed.

Lemma dialTimeout_result
    (f : opt.store → client.Conn → loc
         → option (option client.World * error * client.Conn))
    (text : Z → string) (timer_first : bool) (σ σ' : opt.store)
    (dial : client.Conn + string) (opts : list (option loc))
    (c : option client.World) (err : error) (conn : option client.Conn) :
  (∀ σ cn o c err cn',
     f σ cn o = Some (c, err, cn') →
     (is_Some c ↔ err = None) ∧
     (∀ w, c = Some w →
           w = client.newClientCodec (client.GobCodec cn') o)) →
  client.dialTimeout f text timer_first σ dial opts
    = Some (c, err, σ', conn) →
  (is_Some c ↔ err = None) ∧
  (∀ cn, conn = Some cn → err ≠ None → client.conn_closed cn = true) ∧
  (∀ w, c = Some w →
        ∃ cn o, conn = Some cn ∧
                w = client.newClientCodec (client.GobCodec cn) o).
Proof.
  intros Hf. unfold client.dialTimeout.
  destruct (opt.parseOptions opts σ) as [[[o e] σ1]|]; [|done]. simpl.
  destruct e as [e|].
  { intros [= <- <- <- <-]. split_and!; try done;
      try (split; [by intros [? ?]|done]). }
  destruct o as [o|]; [|done].
  destruct dial as [cn|e].
  2:{ intros [= <- <- <- <-]. split_and!; try done;
      try (split; [by intros [? ?]|done]). }
  destruct (σ1 !! o) as [ov|]; [|done]. simpl.
  destruct (f σ1 cn o) as [[[c1 e1] cn1]|] eqn:Hfr; [|done]. simpl.
  destruct (Hf _ _ _ _ _ _ Hfr) as [Hx Hw].
  assert (Hres : ∀ c1 e1,
    (is_Some c1 ↔ e1 = None) →
    (∀ w, c1 = Some w →
          w = client.newClientCodec (client.GobCodec cn1) o) →
    Some (c1, e1, σ1,
          Some match e1 with
               | Some _ => client.conn_close cn1
               | None => cn1
               end) = Some (c, err, σ', conn) →
    (is_Some c ↔ err = None) ∧
    (∀ cn, conn = Some cn → err ≠ None → client.conn_closed cn = true) ∧
    (∀ w, c = Some w →
          ∃ cn o, conn = Some cn ∧
                  w = client.newClientCodec (client.GobCodec cn) o)).
  { intros c2 e2 Hx2 Hw2 [= <- <- <- <-]. split_and!.
    - done.
    - intros cn0 [= <-] He. by destruct e2.
    - intros w ->. destruct e2 as [e2|].
      + destruct Hx2 as [Hx2 _]. by specialize (Hx2 (mk_is_Some _ _ eq_refl)).
      + exists cn1, o. split; [done|]. by apply Hw2. }
  destruct (opt.oConnectTimeout ov =? 0); [by apply Hres|].
  destruct timer_first; [|by apply Hres].
  apply Hres; [|done]. split; [by intros [? ?]|done].
Qed.

(** X22.  What [XDial] returns, for every address and over every network:
    either a client and no error, or an error and no client.  When it
    returns an error after a connection was made (a failed upgrade, a
    failed or refused preamble, a timeout), the connection is closed.  The
    client it returns is on the connection that was made, is available,
    has no pending call and will number its first call 1. *)
Theorem XDial_result (net : string → string → client.Conn + string)
    (ReadResponse : client.Conn → string + string)
    (text : Z → string) (timer_first : bool)
    (σ σ' : opt.store) (rpcAddr : string) (opts : list (option loc))
    (c : option client.World) (err : error) (conn : option client.Conn) :
  client.XDial net ReadResponse text timer_first σ rpcAddr opts
    = Some (c, err, σ', conn) →
  (is_Some c ↔ err = None) ∧
  (∀ cn, conn = Some cn → err ≠ None → client.conn_closed cn = true) ∧
  (∀ w, c = Some w →
        conn = Some (client.conn_of (client.w_cc w)) ∧
        client.IsAvailable w = Ret true w ∧
        client.w_pending w = ∅ ∧
        client.seq (client.w_client w) = 1).
Proof.
  intros H.
  assert (Hgoal :
    (is_Some c ↔ err = None) ∧
    (∀ cn, conn = Some cn → err ≠ None → client.conn_closed cn = true) ∧
    (∀ w, c = Some w →
          ∃ cn o, conn = Some cn ∧
                  w = client.newClientCodec (client.GobCodec cn) o)).
  { unfold client.XDial in H. case_bool_decide.
    { injection H as <- <- <- <-. split_and!; try done;
      try (split; [by intros [? ?]|done]). }
    destruct (client.Split rpcAddr "@") as [|protocol [|addr [|? ?]]];
      try done.
    destruct (String.eqb protocol "http").
    - eapply dialTimeout_result; [|exact H].
      intros. by eapply NewHTTPClient_result.
    - eapply dialTimeout_result; [|exact H].
      intros. by eapply NewClient_result. }
  destruct Hgoal as (Hx & Hc & Hw). split_and!; [done..|].
  intros w Hcw. destruct (Hw w Hcw) as (cn & o & -> & ->). done.
Qed.

Lemma XDial_result_witness :
  let net := λ _ _ : string, inl (client.mkConn [] false None) in
  ∃ w cn,
    client.XDial net (λ _, inl "500 Internal Server Error") (λ _, "10s")
      false opt.init_store "http@a:1" [] =
      Some (None, Some "unexpected HTTP response: 500 Internal Server Error",
            opt.init_store, Some cn) ∧
    client.conn_closed cn = true ∧
    client.XDial net (λ _, inl "500 Internal Server Error") (λ _, "10s")
      false opt.init_store "tcp@a:1" [] =
      Some (Some w, None, opt.init_store,
            Some (client.conn_of (client.w_cc w))) ∧
    client.IsAvailable w = Ret true w.
Proof.
  intros net.
  destruct (client.XDial net (λ _, inl "500 Internal Server Error")
              (λ _, "10s") false opt.init_store "http@a:1" [])
    as [[[[c1 e1] s1] [cn1|]]|] eqn:H1; try (vm_compute in H1; discriminate H1).
  destruct (client.XDial net (λ _, inl "500 Internal Server Error")
              (λ _, "10s") false opt.init_store "tcp@a:1" [])
    as [[[[[w|] e2] s2] cn2]|] eqn:H2; try (vm_compute in H2; discriminate H2).
  destruct (XDial_result _ _ _ _ _ _ _ _ _ _ _ H1) as (_ & Hcl & _).
  destruct (XDial_result _ _ _ _ _ _ _ _ _ _ _ H2) as (_ & _ & Hw).
  destruct (Hw w eq_refl) as (-> & Hav & _).
  exists w, cn1. split_and!.
  - vm_compute in H1. injection H1 as <- <- <- <-. reflexivity.
  - apply Hcl; [done|]. vm_compute in H1. injection H1 as _ <- _ _. done.
  - vm_compute in H2. injection H2 as <- <- <-. reflexivity.
  - exact Hav.
Defined.

Lemma dial_new_ok (XDial : string → option loc → option client.World * error)
    (rpcAddr : string) (client : option loc) (xc : xclient.XClient)
    (h : xclient.heap) :
  table_ok xc h → client_or_error XDial →
  (∀ p, client = Some p →
        xclient.clients xc !! rpcAddr = Some (Some p)) →
  ∃ client' err xc' h',
    xclient.dial_new XDial rpcAddr client xc h
      = Some (client', err, xc', h') ∧
    table_ok xc' h' ∧ xclient.d xc' = xclient.d xc ∧
    xclient.mode xc' = xclient.mode xc ∧ xclient.opt xc' = xclient.opt xc ∧
    (is_Some client' ↔ err = None) ∧
    (∀ p, client' = Some p →
          xclient.clients xc' !! rpcAddr = Some (Some p)) ∧
    (∀ a, a ≠ rpcAddr →
          xclient.clients xc' !! a = xclient.clients xc !! a).
Proof.
  intros Hwf HX Hc. unfold xclient.dial_new.
  destruct client as [p|].
  { eexists _, _, _, _. split; [reflexivity|]. split_and!; try done;
      intros p' [= <-]; by apply Hc. }
  pose proof (HX rpcAddr (xclient.opt xc)) as Hx.
  destruct (XDial rpcAddr (xclient.opt xc)) as [c [e|]]; simpl in Hx.
  { eexists _, _, _, _. split; [by destruct c|]. split_and!; try done;
      try (split; [by intros [? ?]|done]). }
  destruct (Hx eq_refl) as [w ->].
  eexists _, _, _, _. split; [reflexivity|]. simpl. split_and!; try done.
  - unfold table_ok. simpl. intros k c.
    destruct (decide (k = rpcAddr)) as [->|Hne].
    + rewrite lookup_insert_eq. intros [= <-]. eexists. split; [done|].
      by rewrite lookup_insert_eq.
    + rewrite lookup_insert_ne by done. intros Hk.
      destruct (Hwf k c Hk) as (p & -> & [wp Hp]). exists p. split; [done|].
      destruct (decide (p = fresh (dom h))) as [->|Hp'];
        [by rewrite lookup_insert_eq|by rewrite lookup_insert_ne].
  - intros p [= <-]. by rewrite lookup_insert_eq.
  - intros a Ha. by rewrite lookup_insert_ne.
Qed.

Lemma dial_cached_ok (rpcAddr : string) (xc : xclient.XClient)
    (h : xclient.heap) :
  table_ok xc h →
  ∃ client xc' h',
    xclient.dial_cached rpcAddr xc h = Some (client, xc', h') ∧
    table_ok xc' h' ∧ xclient.d xc' = xclient.d xc ∧
    xclient.mode xc' = xclient.mode xc ∧ xclient.opt xc' = xclient.opt xc ∧
    (∀ p, client = Some p →
          xclient.clients xc' !! rpcAddr = Some (Some p)) ∧
    (∀ a, a ≠ rpcAddr →
          xclient.clients xc' !! a = xclient.clients xc !! a).
Proof.
  intros Hwf. unfold xclient.dial_cached.
  destruct (xclient.clients xc !! rpcAddr) as [c|] eqn:Hc.
  2:{ eexists _, _, _. split; [reflexivity|]. by split_and!. }
  destruct (Hwf _ _ Hc) as (p & -> & [w Hp]).
  unfold xclient.on_client. simpl. rewrite Hp. simpl.
  assert (Hkeep : ∀ (xc1 : xclient.XClient) w1 w2,
            (∀ k c, xclient.clients xc1 !! k = Some c →
                    ∃ c', xclient.clients xc !! k = Some c ∧ c' = c) →
            table_ok xc1 (<[p := w1]> (<[p := w2]> h))).
  { intros xc1 w1 w2 Hsub k c Hk. destruct (Hsub k c Hk) as (_ & Hk' & _).
    destruct (Hwf k c Hk') as (q & -> & [wq Hq]). exists q. split; [done|].
    destruct (decide (q = p)) as [->|Hne];
      [by rewrite lookup_insert_eq|by rewrite !lookup_insert_ne]. }
  destruct (negb (negb (client.shutdown (client.w_client w))
                  && negb (client.closing (client.w_client w)))).
  - rewrite lookup_insert_eq. simpl.
    destruct (client_Close_run w) as (e & w' & -> & _). simpl.
    eexists _, _, _. split; [reflexivity|]. split_and!; try done.
    + apply Hkeep. intros k c. simpl.
      intros [_ Hk]%lookup_delete_Some. by exists c.
    + intros a Ha. simpl. by rewrite lookup_delete_ne.
  - eexists _, _, _. split; [reflexivity|]. split_and!; try done.
    + intros k c Hk. destruct (Hwf k c Hk) as (q & -> & [wq Hq]).
      exists q. split; [done|].
      destruct (decide (q = p)) as [->|Hne];
        [by rewrite lookup_insert_eq|by rewrite !lookup_insert_ne].
    + by intros p' [= <-].
Qed.

(** X23.  [XClient.Call], up to the call on the client it chooses, keeps
    the table of clients sound and does not panic: when the table holds no
    nil and no dangling pointer, [XDial] returns a client whenever it returns
    no error and the generator draws within its bound, the choice ends
    either with an error and no client, or with a client that is in the
    heap and that the table holds for an address of the discovery's list;
    the table is sound afterwards, the index of the discovery too, and the
    list of servers, the mode and the options are unchanged. *)
Theorem Call_client_safe (Intn : Z → Z)
    (XDial : string → option loc → option client.World * error)
    (xc : xclient.XClient) (h : xclient.heap) :
  table_ok xc h → client_or_error XDial →
  (∀ n, 0 < n → 0 ≤ Intn n < n) → index_ok (xclient.d xc) →
  ∃ client err xc' h',
    xclient.Call_client Intn XDial xc h = Some (client, err, xc', h') ∧
    table_ok xc' h' ∧ index_ok (xclient.d xc') ∧
    xclient.servers (xclient.d xc') = xclient.servers (xclient.d xc) ∧
    xclient.mode xc' = xclient.mode xc ∧ xclient.opt xc' = xclient.opt xc ∧
    (is_Some client ↔ err = None) ∧
    (∀ p, client = Some p →
          is_Some (h' !! p) ∧
          ∃ addr, addr ∈ xclient.servers (xclient.d xc) ∧
                  xclient.clients xc' !! addr = Some (Some p)).
Proof.
  intros Hwf HX HIntn Hok. unfold xclient.Call_client.
  assert (HGet : ∃ s err d',
    xclient.Get Intn (xclient.mode xc) (xclient.d xc) = Some (s, err, d') ∧
    index_ok d' ∧ xclient.servers d' = xclient.servers (xclient.d xc) ∧
    (err = None → s ∈ xclient.servers (xclient.d xc))).
  { unfold xclient.Get.
    set (n := Z.of_nat (length (xclient.servers (xclient.d xc)))).
    destruct (Z.eqb_spec n 0) as [Hn|Hn].
    { eexists _, _, _. split; [reflexivity|]. by split_and!. }
    assert (Hpos : 0 < n) by lia.
    destruct (xclient.mode xc =? xclient.RandomSelect).
    { destruct (at_lookup (xclient.servers (xclient.d xc)) (Intn n))
        as (s & -> & Hin & _).
      { by apply HIntn. }
      eexists _, _, _. split; [reflexivity|]. by split_and!. }
    destruct (xclient.mode xc =? xclient.RoundRobinSelect).
    { destruct Hok as [[Hi0 Hi1] Hlen].
      rewrite int_small by lia.
      rewrite (Z.rem_mod_nonneg (xclient.index (xclient.d xc)) n) by lia.
      rewrite (Z.rem_mod_nonneg (xclient.index (xclient.d xc) + 1) n) by lia.
      destruct (at_lookup (xclient.servers (xclient.d xc))
                  (xclient.index (xclient.d xc) `mod` n))
        as (s & -> & Hin & _).
      { by apply Z.mod_pos_bound. }
      eexists _, _, _. split; [reflexivity|]. simpl. split_and!; try done.
      pose proof (Z.mod_pos_bound (xclient.index (xclient.d xc) + 1) n Hpos).
      unfold index_ok. simpl. unfold n in *. lia. }
    eexists _, _, _. split; [reflexivity|]. by split_and!. }
  destruct HGet as (s & err & d' & -> & Hok' & Hsrv & Hin). simpl.
  destruct err as [e|].
  { eexists _, _, _, _. split; [reflexivity|]. simpl. split_and!; try done;
      try (split; [by intros [? ?]|done]). }
  specialize (Hin eq_refl).
  destruct (dial_cached_ok s (xclient.set_d d' xc) h Hwf)
    as (c1 & xc1 & h1 & Hrun1 & Hwf1 & Hd1 & Hm1 & Ho1 & Hc1 & _).
  destruct (dial_new_ok XDial s c1 xc1 h1 Hwf1 HX Hc1)
    as (c2 & err & xc2 & h2 & Hrun2 & Hwf2 & Hd2 & Hm2 & Ho2 & Hx & Hc2 & _).
  exists c2, err, xc2, h2. unfold xclient.dial. rewrite Hrun1. simpl.
  split; [exact Hrun2|]. rewrite Hd2, Hd1, Hm2, Hm1, Ho2, Ho1. simpl.
  split_and!; try done.
  intros p Hp. specialize (Hc2 p Hp).
  destruct (Hwf2 _ _ Hc2) as (q & [= <-] & Hq). split; [done|].
  by exists s.
Qed.

Lemma Call_client_safe_witness :
  let w1 := client.newClientCodec
              (client.GobCodec (client.mkConn [] false None))
              opt.DefaultOption in
  let xc := xclient.NewXClient
              (xclient.mkDiscovery ["tcp@a:1"; "tcp@b:2"] 3)
              xclient.RoundRobinSelect None in
  ∃ p xc' h',
    xclient.Call_client (λ _, 0) (λ _ _, (Some w1, None)) xc ∅
      = Some (Some p, None, xc', h') ∧
    h' !! p = Some w1 ∧
    xclient.clients xc' !! "tcp@b:2" = Some (Some p) ∧
    xclient.index (xclient.d xc') = 0.
Proof.
  intros w1 xc.
  destruct (Call_client_safe (λ _, 0) (λ _ _, (Some w1, None)) xc ∅)
    as (client & err & xc' & h' & Hrun & _).
  - intros k c Hk. unfold xc in Hk. simpl in Hk.
    by rewrite lookup_empty in Hk.
  - intros a o _. by eexists.
  - intros n Hn. lia.
  - unfold index_ok. simpl. lia.
  - vm_compute in Hrun. injection Hrun as <- <- <- <-.
    eexists _, _, _. split; [reflexivity|]. split_and!; reflexivity.
Defined.

(** ** Client.Call *)

(** X24.  [Call] on a client that cannot send does not wait: on a client
    that is closing or shut down it returns [ErrShutdown], and on an open
    client whose codec holds the error of a flush that failed it returns
    that error, in both cases with nothing left pending under the number
    of the call and nothing written.  The write that meets the failure of
    the connection is not such a case: the flush drops the error, the call
    stays pending, and [Call] waits. *)
Theorem Call_cannot_send (w : client.World) (ctx_first : bool)
    (serviceMethod : string) (args reply : client.any) (e : string) :
  (client.closing (client.w_client w) || client.shutdown (client.w_client w)
     = true ∨
   client.buf_err (client.w_cc w) = Some e →
   ∃ w',
     client.Client_Call None ctx_first serviceMethod args reply w =
       Ret (if client.closing (client.w_client w)
               || client.shutdown (client.w_client w)
            then client.ErrShutdown else Some e) w' ∧
     client.w_pending w' !! client.seq (client.w_client w)
       = (if client.closing (client.w_client w)
             || client.shutdown (client.w_client w)
          then client.w_pending w !! client.seq (client.w_client w)
          else None) ∧
     (∀ k, k ≠ client.seq (client.w_client w) →
           client.w_pending w' !! k = client.w_pending w !! k) ∧
     client.sent (client.conn_of (client.w_cc w'))
       = client.sent (client.conn_of (client.w_cc w))) ∧
  (client.closing (client.w_client w) || client.shutdown (client.w_client w)
     = false →
   client.buf_err (client.w_cc w) = None →
   client.conn_fault (client.conn_of (client.w_cc w)) = Some e →
   client.Client_Call None ctx_first serviceMethod args reply w = Block).
Proof.
  split.
  - intros H.
    destruct (client.closing (client.w_client w)
              || client.shutdown (client.w_client w)) eqn:Hcs.
    + eexists. split.
      * unfold client.Client_Call, client.Call_select, client.chan_ready,
          client.chan_recv. run. rewrite Hcs. run. reflexivity.
      * by split_and!.
    + destruct H as [H|Hb]; [done|]. eexists. split.
      * unfold client.Client_Call, client.Call_select, client.chan_ready,
          client.chan_recv. run. rewrite Hcs. run. rewrite Hb. run.
        reflexivity.
      * simpl. split_and!.
        -- by rewrite lookup_delete_eq.
        -- intros k Hk. by rewrite lookup_delete_ne, lookup_insert_ne.
        -- by destruct (client.w_cc w).
  - intros Hcs Hb Hf.
    unfold client.Client_Call, client.Call_select, client.chan_ready,
      client.chan_recv. run. rewrite Hcs. run. rewrite Hb. run.
    rewrite Hf. run. reflexivity.
Qed.

Lemma Call_cannot_send_witness :
  let w := client.mkWorld
             (client.mkClient 1%positive (codec.mkHeader "" 0 "") 5 false true)
             ∅ ∅ ∅ (client.GobCodec (client.mkConn [] false None)) in
  let v := client.newClientCodec
             (client.GobCodecErr (client.mkConn [] false (Some "broken pipe")))
             1%positive in
  let u := client.newClientCodec
             (client.GobCodec (client.mkConn [] false (Some "broken pipe")))
             1%positive in
  (∃ w',
     client.Client_Call None false "Foo.Sum" "1,2" "" w =
       Ret client.ErrShutdown w' ∧
     client.w_pending w' !! 5 = None ∧
     client.sent (client.conn_of (client.w_cc w')) = []) ∧
  (∃ v',
     client.Client_Call None false "Foo.Sum" "1,2" "" v =
       Ret (Some "broken pipe") v' ∧
     client.w_pending v' !! 1 = None ∧
     client.sent (client.conn_of (client.w_cc v')) = []) ∧
  client.Client_Call None false "Foo.Sum" "1,2" "" u = Block.
Proof.
  intros w v u. split_and!.
  - destruct (Call_cannot_send w false "Foo.Sum" "1,2" "" "") as [H _].
    destruct H as (w' & Hrun & Hp & _ & Hs); [by left|].
    exists w'. split_and!; [exact Hrun|exact Hp|exact Hs].
  - destruct (Call_cannot_send v false "Foo.Sum" "1,2" "" "broken pipe")
      as [H _].
    destruct H as (v' & Hrun & Hp & _ & Hs); [by right|].
    exists v'. split_and!; [exact Hrun|exact Hp|exact Hs].
  - destruct (Call_cannot_send u false "Foo.Sum" "1,2" "" "broken pipe")
      as [_ H].
    apply H; reflexivity.
Defined.

(** X25.  A call that is cancelled takes its entry with it: on an open
    client with a working connection, [Call] under a context that is done
    writes the request, returns the error of the context behind the prefix
    of [Call], and leaves nothing pending under the number of the call; the
    reply that arrives later under that number completes no call, touches
    no channel, and its body is read and dropped. *)
Theorem Call_cancelled (w : client.World) (ctx_first : bool)
    (serviceMethod : string) (args reply : client.any) (e : string)
    (Errorf : string → string) :
  client.closing (client.w_client w) = false →
  client.shutdown (client.w_client w) = false →
  client.conn_fault (client.conn_of (client.w_cc w)) = None →
  ∃ w',
    client.Client_Call (Some e) ctx_first serviceMethod args reply w =
      Ret (Some ("rpc client: call failed:" ++ e)) w' ∧
    client.w_pending w' =
      delete (client.seq (client.w_client w)) (client.w_pending w) ∧
    client.sent (client.conn_of (client.w_cc w')) =
      (client.sent (client.conn_of (client.w_cc w)) ++
       [client.GobFrame
          (codec.mkHeader serviceMethod (client.seq (client.w_client w)) "")
          args])%list ∧
    client.seq (client.w_client w') =
      client.u64 (client.seq (client.w_client w) + 1) ∧
    ∀ t h, client.t_header t = inl h →
           codec.Seq h = client.seq (client.w_client w) →
           client.receive_turn Errorf t w' = Ret (client.t_err t) w'.
Proof.
  intros Hc Hs Hf. pose proof (buf_err_no_fault _ Hf) as Hb.
  eexists. split.
  - unfold client.Client_Call, client.Call_select, client.chan_ready,
      client.chan_recv. run. rewrite Hc, Hs. run. rewrite Hb. run.
    rewrite Hf. run. reflexivity.
  - simpl. split_and!.
    + by rewrite delete_insert_eq.
    + done.
    + done.
    + intros t h Ht Hseq. unfold client.receive_turn. rewrite Ht. run.
      rewrite Hseq, lookup_delete_eq. run.
      unfold client.set_pending. simpl. by rewrite delete_delete_eq.
Qed.

Lemma Call_cancelled_witness :
  let w := client.newClientCodec
             (client.GobCodec (client.mkConn [] false None)) 1%positive in
  ∃ w',
    client.Client_Call (Some "context deadline exceeded") true
      "Foo.Sum" "1,2" "" w =
      Ret (Some "rpc client: call failed:context deadline exceeded") w' ∧
    client.w_pending w' = ∅ ∧
    client.receive_turn (λ s, s)
      (client.mkTurn (inl (codec.mkHeader "Foo.Sum" 1 "")) None "3") w'
      = Ret None w'.
Proof.
  intros w.
  destruct (Call_cancelled w true "Foo.Sum" "1,2" ""
              "context deadline exceeded" (λ s, s))
    as (w' & Hrun & Hp & _ & _ & Hlate); try reflexivity.
  exists w'. split_and!; [exact Hrun|exact Hp|].
  exact (Hlate (client.mkTurn (inl (codec.mkHeader "Foo.Sum" 1 "")) None "3")
           (codec.mkHeader "Foo.Sum" 1 "") eq_refl eq_refl).
Defined.

(** ** The handshake *)

Lemma NewClient_handshake (σ : opt.store) (conn conn' : client.Conn)
    (p : loc) (o : opt.Option) (w : client.World) :
  σ !! p = Some o →
  client.NewClient σ conn p = Some (Some w, None, conn') →
  client.preambles conn' = (client.preambles conn ++ [o])%list ∧
  is_Some (codec.NewCodecFuncMap !! opt.oCodecType o) ∧
  client.opt (client.w_client w) = p.
Proof.
  intros Hp. unfold client.NewClient. rewrite Hp. simpl.
  destruct (codec.NewCodecFuncMap !! opt.oCodecType o) as [f|]; [|done].
  destruct (client.conn_write (client.JsonOption o) conn) as [[e|] cn] eqn:Hw;
    [done|].
  intros [= <- <-]. split_and!; [|by eexists|done].
  by rewrite (preambles_write _ _ _ _ Hw).
Qed.

Lemma NewHTTPClient_handshake (ReadResponse : client.Conn → string + string)
    (σ : opt.store) (conn conn' : client.Conn)
    (p : loc) (o : opt.Option) (w : client.World) :
  σ !! p = Some o →
  client.NewHTTPClient ReadResponse σ conn p = Some (Some w, None, conn') →
  client.preambles conn' = (client.preambles conn ++ [o])%list ∧
  is_Some (codec.NewCodecFuncMap !! opt.oCodecType o) ∧
  client.opt (client.w_client w) = p.
Proof.
  intros Hp. unfold client.NewHTTPClient.
  destruct (client.conn_write _ conn) as [e0 cn] eqn:Hw.
  pose proof (preambles_write _ _ _ _ Hw) as Hpre.
  assert (Hcn : client.preambles cn = client.preambles conn).
  { rewrite Hpre. destruct e0; by rewrite app_nil_r. }
  destruct (ReadResponse cn) as [status|e]; [|done].
  destruct (String.eqb status http.connected); [|done].
  intros H. rewrite <- Hcn. by apply (NewClient_handshake σ).
Qed.

Lemma dialTimeout_handshake
    (f : opt.store → client.Conn → loc
         → option (option client.World * error * client.Conn))
    (text : Z → string) (timer_first : bool) (σ σ' : opt.store)
    (conn conn' : client.Conn) (opts : list (option loc))
    (w : client.World) :
  (∀ σ conn conn' p o w,
     σ !! p = Some o → f σ conn p = Some (Some w, None, conn') →
     client.preambles conn' = (client.preambles conn ++ [o])%list ∧
     is_Some (codec.NewCodecFuncMap !! opt.oCodecType o) ∧
     client.opt (client.w_client w) = p) →
  σ !! opt.DefaultOption = Some opt.DefaultOption_init →
  (∀ p, Some p ∈ opts → is_Some (σ !! p)) →
  client.dialTimeout f text timer_first σ (inl conn) opts
    = Some (Some w, None, σ', Some conn') →
  ∃ o,
    σ' !! client.opt (client.w_client w) = Some o ∧
    client.preambles conn' = (client.preambles conn ++ [o])%list ∧
    opt.oMagicNumber o = opt.MagicNumber ∧
    is_Some (codec.NewCodecFuncMap !! opt.oCodecType o).
Proof.
  intros Hf Hd Hopts. unfold client.dialTimeout.
  destruct (opt.parseOptions opts σ) as [[[r e] σ1]|] eqn:Hpo; [|done]. simpl.
  destruct e as [e|]; [done|]. destruct r as [r|]; [|done].
  destruct (parseOptions_magic opts σ σ1 r None Hd Hopts Hpo)
    as (_ & o & Ho & Hm).
  rewrite Ho. simpl.
  destruct (f σ1 conn r) as [[[c1 e1] cn1]|] eqn:Hfr; [|done]. simpl.
  assert (Hres :
    Some (c1, e1, σ1,
          Some match e1 with
               | Some _ => client.conn_close cn1
               | None => cn1
               end) = Some (Some w, None, σ', Some conn') →
    ∃ o,
      σ' !! client.opt (client.w_client w) = Some o ∧
      client.preambles conn' = (client.preambles conn ++ [o])%list ∧
      opt.oMagicNumber o = opt.MagicNumber ∧
      is_Some (codec.NewCodecFuncMap !! opt.oCodecType o)).
  { intros [= -> -> <- <-].
    destruct (Hf _ _ _ _ _ _ Ho Hfr) as (Hpre & Hc & ->).
    exists o. by split_and!. }
  destruct (opt.oConnectTimeout o =? 0); [exact Hres|].
  destruct timer_first; [done|exact Hres].
Qed.

(** X26.  The handshake of a client that [XDial] has made is one that
    [ServeConn] accepts: the dial has written one option preamble on the
    connection it made, which is the option that the client holds, and a
    server that decodes that preamble finds the magic number and a codec
    for its type, and enters [serveCodec] with that option. *)
Theorem XDial_handshake_accepted
    (net : string → string → client.Conn + string)
    (ReadResponse : client.Conn → string + string)
    (text : Z → string) (timer_first : bool)
    (σ σ' : opt.store) (rpcAddr : string) (opts : list (option loc))
    (w : client.World) (conn' : client.Conn) :
  σ !! opt.DefaultOption = Some opt.DefaultOption_init →
  (∀ p, Some p ∈ opts → is_Some (σ !! p)) →
  client.XDial net ReadResponse text timer_first σ rpcAddr opts
    = Some (Some w, None, σ', Some conn') →
  ∃ network addr conn o f,
    net network addr = inl conn ∧
    σ' !! client.opt (client.w_client w) = Some o ∧
    client.preambles conn' = (client.preambles conn ++ [o])%list ∧
    server.ServeConn (inr o) = server.ServeCodec f o.
Proof.
  intros Hd Hopts H. unfold client.XDial in H.
  case_bool_decide; [done|].
  destruct (client.Split rpcAddr "@") as [|protocol [|addr [|? ?]]];
    try done.
  assert (Hserve : ∀ o,
    opt.oMagicNumber o = opt.MagicNumber →
    is_Some (codec.NewCodecFuncMap !! opt.oCodecType o) →
    ∃ f, server.ServeConn (inr o) = server.ServeCodec f o).
  { intros o Hm [f Hf]. exists f. unfold server.ServeConn.
    rewrite bool_decide_eq_false_2 by (by intros ?). by rewrite Hf. }
  destruct (String.eqb protocol "http").
  - unfold client.DialHTTP in H.
    destruct (net "tcp" addr) as [conn|e] eqn:Hnet.
    2:{ unfold client.dialTimeout in H.
        destruct (opt.parseOptions opts σ) as [[[r e0] σ1]|]; [|done].
        simpl in H. by destruct e0, r. }
    destruct (dialTimeout_handshake _ _ _ _ _ _ _ _ _
                (NewHTTPClient_handshake ReadResponse) Hd Hopts H)
      as (o & Ho & Hpre & Hm & Hc).
    destruct (Hserve o Hm Hc) as [f Hf].
    by exists "tcp", addr, conn, o, f.
  - unfold client.Dial in H.
    destruct (net protocol addr) as [conn|e] eqn:Hnet.
    2:{ unfold client.dialTimeout in H.
        destruct (opt.parseOptions opts σ) as [[[r e0] σ1]|]; [|done].
        simpl in H. by destruct e0, r. }
    destruct (dialTimeout_handshake _ _ _ _ _ _ _ _ _
                NewClient_handshake Hd Hopts H)
      as (o & Ho & Hpre & Hm & Hc).
    destruct (Hserve o Hm Hc) as [f Hf].
    by exists protocol, addr, conn, o, f.
Qed.

Lemma XDial_handshake_accepted_witness :
  let conn := client.mkConn [] false None in
  let net := λ _ _ : string, inl conn in
  ∃ (w : client.World) (conn' : client.Conn) network addr conn0 o f,
    client.XDial net (λ _, inl http.connected) (λ _, "10s") false
      opt.init_store "http@a:1" []
      = Some (Some w, None, opt.init_store, Some conn') ∧
    net network addr = inl conn0 ∧
    opt.init_store !! client.opt (client.w_client w) = Some o ∧
    client.preambles conn' = (client.preambles conn0 ++ [o])%list ∧
    server.ServeConn (inr o) = server.ServeCodec f o.
Proof.
  intros conn net.
  destruct (client.XDial net (λ _, inl http.connected) (λ _, "10s") false
              opt.init_store "http@a:1" [])
    as [[[[[w|] [e|]] s] [cn|]]|] eqn:H;
    try (vm_compute in H; discriminate H).
  assert (s = opt.init_store) as ->.
  { vm_compute in H. by injection H as _ <- _. }
  destruct (XDial_handshake_accepted net (λ _, inl http.connected)
              (λ _, "10s") false opt.init_store opt.init_store
              "http@a:1" [] w cn)
    as (network & addr & conn0 & o & f & Hnet & Ho & Hpre & Hserve).
  - reflexivity.
  - intros p Hp. by apply elem_of_nil in Hp.
  - exact H.
  - by exists w, cn, network, addr, conn0, o, f.
Defined.
